(** * Task Rover: the task-state core of the kanban board

    A shallow embedding of the logic of [board.js] (the board page), of the
    earlier single-page script (the "app" script, same functions without the
    owner field) and of the stats page, followed by the properties of the
    task store that the design document states.

    JavaScript strings are sequences of UTF-16 code units; a code unit is a
    natural number.  The host functions the scripts call ([String.prototype]
    methods, regular-expression search, [JSON]) are modelled next to the code
    that calls them. *)

From Stdlib Require Import ZArith NArith Ascii String List Lia Sorted.
From Stdlib Require DecimalFacts DecimalPos DecimalN.
From stdpp Require Import base decidable option list numbers gmap.

Local Open Scope N_scope.

(** ** JavaScript strings *)

Abbreviation char16 := N (only parsing).
Abbreviation jsstring := (list N) (only parsing).

(** An ASCII literal as a JavaScript string. *)
Fixpoint js (s : string) : jsstring :=
  match s with
  | EmptyString => []
  | String a s' => N_of_ascii a :: js s'
  end.

Definition c_bang : char16 := 33.   (* ! *)
Definition c_at : char16 := 64.     (* @ *)
Definition c_dash : char16 := 45.   (* - *)
Definition c_quote : char16 := 34.  (* double quote *)
Definition c_bslash : char16 := 92. (* backslash *)

Definition isDigit (c : char16) : bool := (48 <=? c) && (c <=? 57).
Definition inRange (lo hi c : char16) : bool := (lo <=? c) && (c <=? hi).
Definition isChar (c d : char16) : bool := c =? d.

(** WhiteSpace and LineTerminator code units, the ones [trim] strips. *)
Definition isWhiteSpace (c : char16) : bool :=
  (c =? 9) || (c =? 10) || (c =? 11) || (c =? 12) || (c =? 13) || (c =? 32)
  || (c =? 160) || (c =? 5760) || inRange 8192 8202 c
  || (c =? 8232) || (c =? 8233) || (c =? 8239) || (c =? 8287)
  || (c =? 12288) || (c =? 65279).

Fixpoint takeWhile {A} (p : A -> bool) (l : list A) : list A :=
  match l with
  | [] => []
  | x :: l' => if p x then x :: takeWhile p l' else []
  end.

Fixpoint dropWhile {A} (p : A -> bool) (l : list A) : list A :=
  match l with
  | [] => []
  | x :: l' => if p x then dropWhile p l' else l
  end.

Definition trimStart (s : jsstring) : jsstring := dropWhile isWhiteSpace s.
Definition trimEnd (s : jsstring) : jsstring :=
  rev (dropWhile isWhiteSpace (rev s)).

(** [s.trim()] *)
Definition trim (s : jsstring) : jsstring := trimEnd (trimStart s).

Fixpoint startsWith (pat s : jsstring) : bool :=
  match pat, s with
  | [], _ => true
  | p :: pat', c :: s' => (p =? c) && startsWith pat' s'
  | _ :: _, [] => false
  end.

(** [s.replace(pat, rep)] with a string pattern: the first occurrence of
    [pat] in [s] is replaced.  [rep] is taken literally, which is what the
    host does for a replacement without dollar patterns (the scripts pass the
    empty string). *)
Fixpoint replace (s pat rep : jsstring) : jsstring :=
  if startsWith pat s then rep ++ drop (length pat) s
  else match s with
       | [] => []
       | c :: s' => c :: replace s' pat rep
       end.

(** ** Regular expressions

    The fragment the scripts use: character classes, sequence, alternation,
    a greedy [+] over a class, and one capturing group.  [matchAt r s] lists,
    in the backtracking order of the host, the ways [r] matches a prefix of
    [s]: each is the text captured by the group, if any, and the rest of
    [s]. *)

Inductive regex : Type :=
| Cls (p : char16 -> bool)
| Seq (r1 r2 : regex)
| Alt (r1 r2 : regex)
| Plus (p : char16 -> bool)
| Group (r : regex).

Fixpoint plusRests (p : char16 -> bool) (s : jsstring) : list jsstring :=
  match s with
  | c :: s' => if p c then plusRests p s' ++ [s'] else []
  | [] => []
  end.

Definition orElse {A} (a b : option A) : option A :=
  match a with Some _ => a | None => b end.

Fixpoint matchAt (r : regex) (s : jsstring) : list (option jsstring * jsstring) :=
  match r with
  | Cls p =>
      match s with
      | c :: s' => if p c then [(None, s')] else []
      | [] => []
      end
  | Seq r1 r2 =>
      flat_map (fun m1 =>
        map (fun m2 => (orElse (fst m2) (fst m1), snd m2)) (matchAt r2 (snd m1)))
        (matchAt r1 s)
  | Alt r1 r2 => matchAt r1 s ++ matchAt r2 s
  | Plus p => map (fun s' => (None, s')) (plusRests p s)
  | Group r' =>
      map (fun m => (Some (take (length s - length (snd m)) s), snd m))
          (matchAt r' s)
  end.

(** The result of [s.match(r)] for a regular expression without the global
    flag: the text before the match (its length is [index]), the matched
    text (element 0), the group (element 1) and the text after the match. *)
Record MatchResult : Type := mkMatch {
  m_before : jsstring;
  m_0 : jsstring;
  m_1 : option jsstring;
  m_after : jsstring
}.

Definition shiftMatch (c : char16) (m : MatchResult) : MatchResult :=
  mkMatch (c :: m_before m) (m_0 m) (m_1 m) (m_after m).

Fixpoint String_match (r : regex) (s : jsstring) : option MatchResult :=
  match matchAt r s with
  | (g, rest) :: _ => Some (mkMatch [] (take (length s - length rest) s) g rest)
  | [] =>
      match s with
      | [] => None
      | c :: s' => option_map (shiftMatch c) (String_match r s')
      end
  end.

Definition lit (c : char16) : regex := Cls (isChar c).
Definition digit : regex := Cls isDigit.
Definition range (lo hi : char16) : regex := Cls (inRange lo hi).

Fixpoint seqs (rs : list regex) (last : regex) : regex :=
  match rs with
  | [] => last
  | r :: rs' => Seq r (seqs rs' last)
  end.

(** [/@((?:19|20)\d\d-[01]\d-[0-3]\d)/] *)
Definition dueRe : regex :=
  Seq (lit c_at)
    (Group (seqs [Alt (Seq (lit 49) (lit 57)) (Seq (lit 50) (lit 48));
                  digit; digit; lit c_dash;
                  range 48 49; digit; lit c_dash;
                  range 48 51] digit)).

(** [/!+/] *)
Definition priRe : regex := Plus (isChar c_bang).

(** ** The shorthand parser *)

Record Parsed : Type := mkParsed {
  p_title : jsstring;
  p_due : option jsstring;
  p_priority : option jsstring
}.

Definition s_high : jsstring := js "high".
Definition s_medium : jsstring := js "medium".
Definition s_low : jsstring := js "low".

(** The three [if (count ...) priority = ...] statements, in order. *)
Definition priorityOfCount (count : nat) : option jsstring :=
  let priority := None in
  let priority := if Nat.eqb count 1 then Some s_high else priority in
  let priority := if Nat.eqb count 2 then Some s_medium else priority in
  let priority := if Nat.leb 3 count then Some s_low else priority in
  priority.

Module Board.

(** [parseInput] of board.js. *)
Definition parseInput (input : jsstring) : Parsed :=
  let title := input in
  let dueMatch := String_match dueRe input in
  let '(due, title) :=
    match dueMatch with
    | Some m => (m_1 m, replace title (m_0 m) [])
    | None => (None, title)
    end in
  let priMatch := String_match priRe input in
  let '(priority, title) :=
    match priMatch with
    | Some m =>
        let count := length (m_0 m) in
        (priorityOfCount count, replace title (m_0 m) [])
    | None => (None, title)
    end in
  mkParsed (trim title) due priority.

End Board.

Module App.

(** [parseInput] of the app script. *)
Definition parseInput (input : jsstring) : Parsed :=
  let title := input in
  let dueMatch := String_match dueRe input in
  let '(due, title) :=
    match dueMatch with
    | Some m => (m_1 m, replace title (m_0 m) [])
    | None => (None, title)
    end in
  let priorityMatch := String_match priRe input in
  let '(priority, title) :=
    match priorityMatch with
    | Some m =>
        let count := length (m_0 m) in
        (priorityOfCount count, replace title (m_0 m) [])
    | None => (None, title)
    end in
  mkParsed (trim title) due priority.

End App.


(** The due token as the design document words it: an [@], a year of the
    19xx or 20xx centuries, a dash, two digits of which the first is 0 or 1,
    a dash, two digits of which the first is 0 to 3.  [dateShaped] is the
    test on the ten code units after the [@]. *)
Definition dateShaped (d : jsstring) : bool :=
  match d with
  | [y1; y2; y3; y4; h1; m1; m2; h2; d1; d2] =>
      (((y1 =? 49) && (y2 =? 57)) || ((y1 =? 50) && (y2 =? 48)))
      && isDigit y3 && isDigit y4 && (h1 =? c_dash)
      && inRange 48 49 m1 && isDigit m2 && (h2 =? c_dash)
      && inRange 48 51 d1 && isDigit d2
  | _ => false
  end.

(** What it means for a regular expression to match a whole text, with the
    text its group captures: the reference the backtracking search is
    checked against. *)
Inductive Matches : regex -> jsstring -> option jsstring -> Prop :=
| M_Cls p c : p c = true -> Matches (Cls p) [c] None
| M_Seq r1 r2 m1 m2 g1 g2 :
    Matches r1 m1 g1 -> Matches r2 m2 g2 ->
    Matches (Seq r1 r2) (m1 ++ m2) (orElse g2 g1)
| M_AltL r1 r2 m g : Matches r1 m g -> Matches (Alt r1 r2) m g
| M_AltR r1 r2 m g : Matches r2 m g -> Matches (Alt r1 r2) m g
| M_Plus p m : m <> [] -> forallb p m = true -> Matches (Plus p) m None
| M_Group r m g : Matches r m g -> Matches (Group r) m (Some m).

Definition isNil {A} (l : list A) : bool := match l with [] => true | _ => false end.

Definition isBang (c : char16) : bool := isChar c_bang c.
Definition notBang (c : char16) : bool := negb (isBang c).

(** The first run of [!] of a text (empty when it has none). *)
Definition firstRun (s : jsstring) : jsstring :=
  takeWhile isBang (dropWhile notBang s).

(** The value of [title] in [parseInput] after the due-date step. *)
Definition titleAfterDue (input : jsstring) : jsstring :=
  match String_match dueRe input with
  | Some m => replace input (m_0 m) []
  | None => input
  end.

(** The priority step of [parseInput] applied to a title: the run is
    searched in [input], its text is replaced in [title]. *)
Definition titleAfterPriority (input title : jsstring) : jsstring :=
  match String_match priRe input with
  | Some m => replace title (m_0 m) []
  | None => title
  end.

(** The parser as the design document orders it: the due token is removed
    first and the priority run is then searched in the remaining title. *)
Definition parseQuickAdd_dueFirst (input : jsstring) : Parsed :=
  let title := input in
  let '(due, title) :=
    match String_match dueRe title with
    | Some m => (m_1 m, replace title (m_0 m) [])
    | None => (None, title)
    end in
  let '(priority, title) :=
    match String_match priRe title with
    | Some m => (priorityOfCount (length (m_0 m)), replace title (m_0 m) [])
    | None => (None, title)
    end in
  mkParsed (trim title) due priority.

Definition startsWithBang (s : jsstring) : bool :=
  match s with c :: _ => isBang c | [] => false end.

(** The first run of [!] of [s] reaches the end of [s]. *)
Definition runToEnd (s : jsstring) : bool :=
  negb (isNil (dropWhile notBang s)) && forallb isBang (dropWhile notBang s).

(** The due token splits a run: the first run of [!] of the input ends
    where the token starts, and a [!] follows the token directly. *)
Definition dueSplitsRun (input : jsstring) : bool :=
  match String_match dueRe input with
  | Some m => runToEnd (m_before m) && startsWithBang (m_after m)
  | None => false
  end.

(** The number of [!] in a text. *)
Definition countBang (s : jsstring) : nat := length (List.filter isBang s).

(** [pre], [d] and [post] split [input] at its first due token: [d] is the
    date text after the [@], and no due token starts further left. *)
Definition firstDueToken (input pre d post : jsstring) : Prop :=
  input = pre ++ c_at :: d ++ post
  /\ dateShaped d = true
  /\ forall pre' d' post',
       input = pre' ++ c_at :: d' ++ post' -> dateShaped d' = true ->
       (length pre <= length pre')%nat.

Definition hasDueToken (input : jsstring) : Prop :=
  exists pre d post, input = pre ++ c_at :: d ++ post /\ dateShaped d = true.

(** Either script's parser. *)
Definition isParseInput (parse : jsstring -> Parsed) : Prop :=
  parse = Board.parseInput \/ parse = App.parseInput.

(** The priority the design document assigns to a run of [k] marks. *)
Definition priorityOfRun (k : nat) : jsstring :=
  match k with
  | 1%nat => s_high
  | 2%nat => s_medium
  | _ => s_low
  end.

(** ** Values and JSON

    The values the scripts keep in memory and in storage.  An object is the
    list of its own properties in insertion order, with distinct keys.  A
    number is kept as the exact decimal its literal denotes, [m] times ten to
    the [e]; the scripts only store integer timestamps ([e = 0]), which the
    host holds exactly.  The host rounds any other literal to a double, so
    that a number written by hand into the storage, beyond 2^53 or with a
    fraction or exponent, is not modelled as the host reads it. *)

#[warnings="-register-all"] Inductive JSValue : Type :=
| JUndefined
| JNull
| JBool (b : bool)
| JNumber (m e : Z)
| JString (s : jsstring)
| JArray (elems : list JSValue)
| JObject (props : list (jsstring * JSValue)).

Fixpoint lookupProp (ps : list (jsstring * JSValue)) (k : jsstring) : option JSValue :=
  match ps with
  | [] => None
  | (k', v) :: ps' => if decide (k' = k) then Some v else lookupProp ps' k
  end.

(** [o[k]] for an own property of a value that is not null or undefined: a
    missing property reads as undefined. *)
Definition getProp (o : JSValue) (k : jsstring) : JSValue :=
  match o with
  | JObject ps => default JUndefined (lookupProp ps k)
  | _ => JUndefined
  end.

(** [o[k] = v] on the property list: an existing property keeps its place. *)
Fixpoint setProp (ps : list (jsstring * JSValue)) (k : jsstring) (v : JSValue)
  : list (jsstring * JSValue) :=
  match ps with
  | [] => [(k, v)]
  | (k', v') :: ps' =>
      if decide (k' = k) then (k, v) :: ps' else (k', v') :: setProp ps' k v
  end.

(** *** Numbers in decimal *)

Fixpoint uintChars (u : Decimal.uint) : jsstring :=
  match u with
  | Decimal.Nil => []
  | Decimal.D0 u' => 48 :: uintChars u'
  | Decimal.D1 u' => 49 :: uintChars u'
  | Decimal.D2 u' => 50 :: uintChars u'
  | Decimal.D3 u' => 51 :: uintChars u'
  | Decimal.D4 u' => 52 :: uintChars u'
  | Decimal.D5 u' => 53 :: uintChars u'
  | Decimal.D6 u' => 54 :: uintChars u'
  | Decimal.D7 u' => 55 :: uintChars u'
  | Decimal.D8 u' => 56 :: uintChars u'
  | Decimal.D9 u' => 57 :: uintChars u'
  end.

Fixpoint charsUint (s : jsstring) : Decimal.uint :=
  match s with
  | [] => Decimal.Nil
  | c :: s' =>
      let u := charsUint s' in
      if c =? 48 then Decimal.D0 u else if c =? 49 then Decimal.D1 u
      else if c =? 50 then Decimal.D2 u else if c =? 51 then Decimal.D3 u
      else if c =? 52 then Decimal.D4 u else if c =? 53 then Decimal.D5 u
      else if c =? 54 then Decimal.D6 u else if c =? 55 then Decimal.D7 u
      else if c =? 56 then Decimal.D8 u else Decimal.D9 u
  end.

(** The value of a run of decimal digits. *)
Definition digitsValue (s : jsstring) : Z := Z.of_N (N.of_uint (charsUint s)).

(** [n.toString()] for an integer (below 10^21 in size, where the host
    switches to exponent notation). *)
Definition Number_toString (z : Z) : jsstring :=
  (if (z <? 0)%Z then [c_dash] else []) ++ uintChars (N.to_uint (Z.abs_N z)).

Definition printNumber (m e : Z) : jsstring :=
  if (e =? 0)%Z then Number_toString m
  else Number_toString m ++ [101] ++ Number_toString e.

(** *** Serialization *)

Definition hexDigit (n : N) : char16 := if n <? 10 then 48 + n else 87 + n.

(** [\uXXXX], lower-case. *)
Definition unicodeEscape (c : char16) : jsstring :=
  [c_bslash; 117; hexDigit (c / 4096 mod 16); hexDigit (c / 256 mod 16);
   hexDigit (c / 16 mod 16); hexDigit (c mod 16)].

Definition isHighSurrogate (c : char16) : bool := inRange 55296 56319 c.
Definition isLowSurrogate (c : char16) : bool := inRange 56320 57343 c.

Definition quoteChar (c : char16) : jsstring :=
  if c =? 8 then [c_bslash; 98]
  else if c =? 9 then [c_bslash; 116]
  else if c =? 10 then [c_bslash; 110]
  else if c =? 12 then [c_bslash; 102]
  else if c =? 13 then [c_bslash; 114]
  else if c =? c_quote then [c_bslash; c_quote]
  else if c =? c_bslash then [c_bslash; c_bslash]
  else if (c <? 32) || isHighSurrogate c || isLowSurrogate c then unicodeEscape c
  else [c].

(** The characters of a quoted string: a surrogate pair is written as it
    is, a lone surrogate is escaped. *)
Fixpoint quoteChars (s : jsstring) : jsstring :=
  match s with
  | [] => []
  | c :: s' =>
      if isHighSurrogate c then
        match s' with
        | d :: s'' =>
            if isLowSurrogate d then c :: d :: quoteChars s''
            else quoteChar c ++ quoteChars s'
        | [] => quoteChar c
        end
      else quoteChar c ++ quoteChars s'
  end.

Definition quote (s : jsstring) : jsstring := c_quote :: quoteChars s ++ [c_quote].

Fixpoint joinComma (l : list jsstring) : jsstring :=
  match l with
  | [] => []
  | [x] => x
  | x :: l' => x ++ 44 :: joinComma l'
  end.

(** [JSON.stringify(v)]; [None] is the result [undefined]. *)
Fixpoint JSON_stringify (v : JSValue) : option jsstring :=
  match v with
  | JUndefined => None
  | JNull => Some (js "null")
  | JBool true => Some (js "true")
  | JBool false => Some (js "false")
  | JNumber m e => Some (printNumber m e)
  | JString s => Some (quote s)
  | JArray l =>
      Some (91 :: joinComma (map (fun x => default (js "null") (JSON_stringify x)) l)
            ++ [93])
  | JObject ps =>
      Some (123 :: joinComma
              (omap (fun p => option_map (fun t => quote (fst p) ++ 58 :: t)
                                         (JSON_stringify (snd p))) ps)
            ++ [125])
  end.

(** *** Parsing *)

Inductive Error : Type := SyntaxError | TypeError.

Inductive Completion (A : Type) : Type :=
| Normal (a : A)
| Throw (e : Error).
Arguments Normal {A} a.
Arguments Throw {A} e.

Definition isJsonWs (c : char16) : bool :=
  (c =? 9) || (c =? 10) || (c =? 13) || (c =? 32).
Definition skipWs (s : jsstring) : jsstring := dropWhile isJsonWs s.

Definition hexValue (c : char16) : option N :=
  if inRange 48 57 c then Some (c - 48)
  else if inRange 97 102 c then Some (c - 87)
  else if inRange 65 70 c then Some (c - 55)
  else None.

(** The characters of a string literal up to its closing quote. *)
Fixpoint parseString (s : jsstring) : option (jsstring * jsstring) :=
  match s with
  | [] => None
  | c :: s1 =>
      if c =? c_quote then Some ([], s1)
      else if c =? c_bslash then
        match s1 with
        | [] => None
        | e :: s2 =>
            let simple (x : char16) :=
              match parseString s2 with
              | Some (str, r) => Some (x :: str, r)
              | None => None
              end in
            if e =? c_quote then simple c_quote
            else if e =? c_bslash then simple c_bslash
            else if e =? 47 then simple 47
            else if e =? 98 then simple 8
            else if e =? 102 then simple 12
            else if e =? 110 then simple 10
            else if e =? 114 then simple 13
            else if e =? 116 then simple 9
            else if e =? 117 then
              match s2 with
              | h1 :: h2 :: h3 :: h4 :: s3 =>
                  match hexValue h1, hexValue h2, hexValue h3, hexValue h4 with
                  | Some a, Some b, Some c', Some d =>
                      match parseString s3 with
                      | Some (str, r) => Some (((a * 16 + b) * 16 + c') * 16 + d :: str, r)
                      | None => None
                      end
                  | _, _, _, _ => None
                  end
              | _ => None
              end
            else None
        end
      else if c <? 32 then None
      else
        match parseString s1 with
        | Some (str, r) => Some (c :: str, r)
        | None => None
        end
  end.

(** A number literal: an optional minus sign; a zero, or a digit from 1 to
    9 and further digits; optionally a point and digits; optionally [e] or
    [E], a sign and digits. *)
Definition parseSign (s : jsstring) : bool * jsstring :=
  match s with
  | c :: s' => if c =? c_dash then (true, s') else (false, s)
  | [] => (false, s)
  end.

Definition parseInt (s : jsstring) : option (jsstring * jsstring) :=
  match s with
  | c :: s' =>
      if c =? 48 then Some ([c], s')
      else if isDigit c then Some (c :: takeWhile isDigit s', dropWhile isDigit s')
      else None
  | [] => None
  end.

Definition parseFrac (s : jsstring) : option (jsstring * jsstring) :=
  match s with
  | c :: s' =>
      if c =? 46 then
        if isNil (takeWhile isDigit s') then None
        else Some (takeWhile isDigit s', dropWhile isDigit s')
      else Some ([], s)
  | [] => Some ([], s)
  end.

Definition parseExpSign (s : jsstring) : bool * jsstring :=
  match s with
  | c :: s' =>
      if c =? c_dash then (true, s') else if c =? 43 then (false, s') else (false, s)
  | [] => (false, s)
  end.

Definition signed (neg : bool) (z : Z) : Z := if neg then Z.opp z else z.

Definition parseExp (s : jsstring) : option (Z * jsstring) :=
  match s with
  | c :: s' =>
      if (c =? 101) || (c =? 69) then
        let '(neg, s1) := parseExpSign s' in
        if isNil (takeWhile isDigit s1) then None
        else Some (signed neg (digitsValue (takeWhile isDigit s1)),
                   dropWhile isDigit s1)
      else Some (0%Z, s)
  | [] => Some (0%Z, s)
  end.

Definition parseNumber (s : jsstring) : option (JSValue * jsstring) :=
  let '(neg, s1) := parseSign s in
  '(int, s2) ← parseInt s1;
  '(frac, s3) ← parseFrac s2;
  '(ex, s4) ← parseExp s3;
  Some (JNumber (signed neg (digitsValue (int ++ frac)))
                (ex - Z.of_nat (length frac)), s4).

(** The object built from the members of an object literal, in order: a
    repeated key overwrites. *)
Definition mkObject (members : list (jsstring * JSValue)) : list (jsstring * JSValue) :=
  fold_left (fun ps kv => setProp ps (fst kv) (snd kv)) members [].

Fixpoint parseValue (fuel : nat) (s : jsstring) : option (JSValue * jsstring) :=
  match fuel with
  | O => None
  | S fuel =>
      match skipWs s with
      | [] => None
      | c :: s1 =>
          if c =? c_quote then
            match parseString s1 with
            | Some (str, r) => Some (JString str, r)
            | None => None
            end
          else if c =? 91 then
            match skipWs s1 with
            | d :: r =>
                if d =? 93 then Some (JArray [], r)
                else match parseElements fuel s1 with
                     | Some (vs, r') => Some (JArray vs, r')
                     | None => None
                     end
            | [] => None
            end
          else if c =? 123 then
            match skipWs s1 with
            | d :: r =>
                if d =? 125 then Some (JObject [], r)
                else match parseMembers fuel s1 with
                     | Some (ms, r') => Some (JObject (mkObject ms), r')
                     | None => None
                     end
            | [] => None
            end
          else if startsWith (js "true") (c :: s1) then Some (JBool true, drop 4 (c :: s1))
          else if startsWith (js "false") (c :: s1) then Some (JBool false, drop 5 (c :: s1))
          else if startsWith (js "null") (c :: s1) then Some (JNull, drop 4 (c :: s1))
          else parseNumber (c :: s1)
      end
  end
with parseElements (fuel : nat) (s : jsstring) : option (list JSValue * jsstring) :=
  match fuel with
  | O => None
  | S fuel =>
      match parseValue fuel s with
      | None => None
      | Some (v, r) =>
          match skipWs r with
          | c :: r1 =>
              if c =? 44 then
                match parseElements fuel r1 with
                | Some (vs, r2) => Some (v :: vs, r2)
                | None => None
                end
              else if c =? 93 then Some ([v], r1)
              else None
          | [] => None
          end
      end
  end
with parseMembers (fuel : nat) (s : jsstring)
  : option (list (jsstring * JSValue) * jsstring) :=
  match fuel with
  | O => None
  | S fuel =>
      match skipWs s with
      | c :: s1 =>
          if c =? c_quote then
            match parseString s1 with
            | None => None
            | Some (k, r1) =>
                match skipWs r1 with
                | c2 :: r2 =>
                    if c2 =? 58 then
                      match parseValue fuel r2 with
                      | None => None
                      | Some (v, r3) =>
                          match skipWs r3 with
                          | c3 :: r4 =>
                              if c3 =? 44 then
                                match parseMembers fuel r4 with
                                | Some (ms, r5) => Some ((k, v) :: ms, r5)
                                | None => None
                                end
                              else if c3 =? 125 then Some ([(k, v)], r4)
                              else None
                          | [] => None
                          end
                      end
                    else None
                | [] => None
                end
            end
          else None
      | [] => None
      end
  end.

(** [JSON.parse(text)]: the value, or a SyntaxError.  Each nested call uses
    up at least one character for every two units of fuel. *)
Definition JSON_parse (text : jsstring) : Completion JSValue :=
  match parseValue (2 * length text + 2) text with
  | Some (v, r) => if isNil (skipWs r) then Normal v else Throw SyntaxError
  | None => Throw SyntaxError
  end.

(** What a value reads back as after [JSON.stringify] and [JSON.parse]:
    a property whose value is undefined is gone, an undefined array element
    is null, everything else is as it was. *)
Fixpoint reload (v : JSValue) : JSValue :=
  match v with
  | JUndefined => JNull
  | JArray l => JArray (map reload l)
  | JObject ps =>
      JObject (omap (fun p => match snd p with
                              | JUndefined => None
                              | _ => Some (fst p, reload (snd p))
                              end) ps)
  | _ => v
  end.

(** The keys of every object in the value are distinct. *)
Fixpoint uniqueKeys (v : JSValue) : Prop :=
  match v with
  | JArray l => fold_right (fun x acc => uniqueKeys x /\ acc) True l
  | JObject ps =>
      NoDup (map fst ps)
      /\ fold_right (fun p acc => uniqueKeys (snd p) /\ acc) True ps
  | _ => True
  end.

(** Fuel that parsing the text of a value takes. *)
Fixpoint cost (v : JSValue) : nat :=
  match v with
  | JArray l => S (fold_right (fun x acc => S (cost x + acc)) 0%nat l)
  | JObject ps => S (fold_right (fun p acc => S (cost (snd p) + acc)) 0%nat ps)
  | _ => 1
  end.

Section JSValue_induction.
Variable P : JSValue -> Prop.
Hypothesis Hundef : P JUndefined.
Hypothesis Hnull : P JNull.
Hypothesis Hbool : forall b, P (JBool b).
Hypothesis Hnum : forall m e, P (JNumber m e).
Hypothesis Hstr : forall s, P (JString s).
Hypothesis Harr : forall l, Forall P l -> P (JArray l).
Hypothesis Hobj : forall ps, Forall (fun p => P (snd p)) ps -> P (JObject ps).

Fixpoint JSValue_nested_ind (v : JSValue) : P v :=
  match v with
  | JUndefined => Hundef
  | JNull => Hnull
  | JBool b => Hbool b
  | JNumber m e => Hnum m e
  | JString s => Hstr s
  | JArray l =>
      Harr l ((fix go (l : list JSValue) : Forall P l :=
                 match l with
                 | [] => List.Forall_nil P
                 | x :: l' => @List.Forall_cons _ P x l' (JSValue_nested_ind x) (go l')
                 end) l)
  | JObject ps =>
      Hobj ps ((fix go (ps : list (jsstring * JSValue))
                  : Forall (fun p => P (snd p)) ps :=
                  match ps with
                  | [] => List.Forall_nil _
                  | p :: ps' =>
                      @List.Forall_cons _ (fun p => P (snd p)) p ps'
                                        (JSValue_nested_ind (snd p)) (go ps')
                  end) ps)
  end.
End JSValue_induction.

(** The text after a value inside an array or an object, or the end. *)
Definition valueEnd (rest : jsstring) : bool :=
  match rest with
  | [] => true
  | c :: _ => (c =? 44) || (c =? 93) || (c =? 125)
  end.

(** ** Tasks

    A task record as the scripts read it: a field that can be missing,
    undefined or null is an option. *)

Record Task : Type := mkTask {
  t_id : jsstring;
  t_title : jsstring;
  t_due : option jsstring;
  t_priority : option jsstring;
  t_status : option jsstring;
  t_owner : option jsstring;
  t_createdAt : Z
}.

Definition optString (o : option jsstring) : JSValue :=
  match o with
  | Some s => JString s
  | None => JUndefined
  end.

(** The task as an object, laid out as the object literal of [addTask]; a
    missing field is a property whose value is undefined.  The scripts never
    depend on the order of the properties. *)
Definition taskObject (t : Task) : JSValue :=
  JObject [(js "id", JString (t_id t));
           (js "title", JString (t_title t));
           (js "due", optString (t_due t));
           (js "priority", optString (t_priority t));
           (js "status", optString (t_status t));
           (js "owner", optString (t_owner t));
           (js "createdAt", JNumber (t_createdAt t) 0)].

Definition asString (v : JSValue) : option jsstring :=
  match v with
  | JString s => Some s
  | _ => None
  end.

Definition asInteger (v : JSValue) : option Z :=
  match v with
  | JNumber m 0 => Some m
  | _ => None
  end.

(** The typed reading of an object as a task. *)
Definition readTask (o : JSValue) : option Task :=
  id ← asString (getProp o (js "id"));
  title ← asString (getProp o (js "title"));
  createdAt ← asInteger (getProp o (js "createdAt"));
  Some (mkTask id title
               (asString (getProp o (js "due")))
               (asString (getProp o (js "priority")))
               (asString (getProp o (js "status")))
               (asString (getProp o (js "owner")))
               createdAt).

(** [x || d] for a string that may be missing: the empty string is falsy. *)
Definition orDefault (x : option jsstring) (d : jsstring) : jsstring :=
  match x with
  | Some s => if isNil s then d else s
  | None => d
  end.

(** ** Storage *)

Abbreviation Storage := (gmap (list N) (list N)) (only parsing).

Definition tasksKey : jsstring := js "taskRoverTasks".

Definition getItem (storage : Storage) (key : jsstring) : option jsstring :=
  storage !! key.
Definition setItem (storage : Storage) (key value : jsstring) : Storage :=
  <[key := value]> storage.

Definition tryCatch {A} (body : Completion A) (handler : Error -> Completion A)
  : Completion A :=
  match body with
  | Normal a => Normal a
  | Throw e => handler e
  end.

Definition bindC {A B} (c : Completion A) (k : A -> Completion B) : Completion B :=
  match c with
  | Normal a => k a
  | Throw e => Throw e
  end.

(** [loadTasks] of board.js: the value [tasks] holds afterwards. *)
Definition loadTasks (storage : Storage) : Completion JSValue :=
  tryCatch
    (let stored := getItem storage tasksKey in
     match stored with
     | Some text => if isNil text then Normal (JArray []) else JSON_parse text
     | None => Normal (JArray [])
     end)
    (fun _ => Normal (JArray [])).

(** The loading code of the app script's [init]: [tasks] starts as the
    empty array and is assigned only if something is stored. *)
Definition App_loadTasks (storage : Storage) : Completion JSValue :=
  let tasks := JArray [] in
  tryCatch
    (let stored := getItem storage tasksKey in
     match stored with
     | Some text => if isNil text then Normal tasks else JSON_parse text
     | None => Normal tasks
     end)
    (fun _ => Normal (JArray [])).

(** The loading code of the stats page. *)
Definition Stats_loadTasks (storage : Storage) : Completion JSValue :=
  tryCatch
    (let stored := getItem storage tasksKey in
     match stored with
     | Some text => if isNil text then Normal (JArray []) else JSON_parse text
     | None => Normal (JArray [])
     end)
    (fun _ => Normal (JArray [])).

(** [persistTasks]: a failing write is swallowed by the script and leaves
    the slot as it was; the model writes. *)
Definition persistValue (tasks : JSValue) (storage : Storage) : Storage :=
  setItem storage tasksKey (default (js "undefined") (JSON_stringify tasks)).

(** [tasks.forEach(...)], [tasks.filter(...)]: the elements of an array; a
    value that is no array has no such method and the call throws. *)
Definition arrayElements (tasks : JSValue) : Completion (list JSValue) :=
  match tasks with
  | JArray l => Normal l
  | _ => Throw TypeError
  end.

(** What the stats page iterates over at start-up. *)
Definition Stats_tasks (storage : Storage) : Completion (list JSValue) :=
  bindC (Stats_loadTasks storage) arrayElements.

(** What the first [renderBoard] of the board page filters. *)
Definition Board_tasks (storage : Storage) : Completion (list JSValue) :=
  bindC (loadTasks storage) arrayElements.

(** A task array: every element reads as a task. *)
Definition isTaskArray (v : JSValue) : Prop :=
  exists l, v = JArray l /\ Forall (fun o => is_Some (readTask o)) l.

(** ** The stats page

    The three tallies are plain objects.  A cell of such an object holds a
    count, or the text that adding 1 to an inherited member of
    [Object.prototype] produces; assigning a text to [__proto__] is ignored
    by its setter and creates no property. *)

Inductive Cell : Type :=
| Count (n : nat)
| Text.

Definition protoAccessor : jsstring := js "__proto__".

Definition inheritedMethods : list jsstring :=
  [js "constructor"; js "hasOwnProperty"; js "isPrototypeOf";
   js "propertyIsEnumerable"; js "toLocaleString"; js "toString";
   js "valueOf"; js "__defineGetter__"; js "__defineSetter__";
   js "__lookupGetter__"; js "__lookupSetter__"].

Definition inheritedName (key : jsstring) : Prop :=
  key = protoAccessor \/ key ∈ inheritedMethods.

(** [counts[key] = (counts[key] || 0) + 1] *)
Definition increment (counts : gmap (list N) Cell) (key : jsstring)
  : gmap (list N) Cell :=
  match counts !! key with
  | Some (Count n) => <[key := Count (n + 1)]> counts
  | Some Text => <[key := Text]> counts
  | None =>
      if decide (key = protoAccessor) then counts
      else if decide (key ∈ inheritedMethods) then <[key := Text]> counts
      else <[key := Count 1]> counts
  end.

Record Stats : Type := mkStats {
  statusCounts : gmap (list N) Cell;
  priorityCounts : gmap (list N) Cell;
  ownerCounts : gmap (list N) Cell
}.

Definition statusKey (task : Task) : jsstring :=
  orDefault (t_status task) (js "unknown").

Definition priorityKey (task : Task) : jsstring :=
  orDefault (t_priority task) (js "none").

(** [task.owner && task.owner.trim() ? task.owner.trim() : "Unassigned"] *)
Definition ownerKey (task : Task) : jsstring :=
  match t_owner task with
  | Some o =>
      if negb (isNil o) && negb (isNil (trim o)) then trim o
      else js "Unassigned"
  | None => js "Unassigned"
  end.

(** The body of the [forEach] of the stats page. *)
Definition tally (st : Stats) (task : Task) : Stats :=
  let status := statusKey task in
  let pri := priorityKey task in
  let owner := ownerKey task in
  mkStats (increment (statusCounts st) status)
          (increment (priorityCounts st) pri)
          (increment (ownerCounts st) owner).

Definition computeStats (tasks : list Task) : Stats :=
  fold_left tally tasks (mkStats ∅ ∅ ∅).

(** The number of tasks of a collection that fall into a bucket. *)
Definition inBucket (key : jsstring) (tasks : list Task) : nat :=
  length (List.filter (fun t => bool_decide (statusKey t = key)) tasks).

Definition cellOfCount (n : nat) : option Cell :=
  match n with
  | O => None
  | S _ => Some (Count n)
  end.

Definition cellValue (c : Cell) : nat :=
  match c with
  | Count n => n
  | Text => 0
  end.

(** The sum of the counts of a tally. *)
Definition totalCount (counts : gmap (list N) Cell) : nat :=
  map_fold (fun _ c acc => (cellValue c + acc)%nat) 0%nat counts.

(** A status outside todo, doing and done, or none at all. *)
Definition offEnum (task : Task) : bool :=
  match t_status task with
  | Some s =>
      negb (bool_decide (s = js "todo") || bool_decide (s = js "doing")
            || bool_decide (s = js "done"))
  | None => true
  end.

(** ** The task store of the board

    The module-level state of the board scripts.  Task objects live in a
    heap and [tasks] is the array of their addresses, so that the closure of
    an undo button keeps acting on the object it captured.  The toast holds
    at most one undo button; [undoTimer] tells whether the timer that hides
    the toast is pending. *)

Inductive UndoFn : Type :=
| UndoMove (task : nat)
| UndoDelete (idx : nat) (removed : nat).

Record Store : Type := mkStore {
  heap : list Task;
  tasks : list nat;
  currentEditId : option jsstring;
  toastUndo : option UndoFn;
  undoTimer : bool;
  storage : gmap (list N) (list N)
}.

Definition emptyStore : Store := mkStore [] [] None None false ∅.

(** The collection, in order. *)
Definition getAll (s : Store) : list Task :=
  omap (fun r => heap s !! r) (tasks s).

(** The task an undo button holds outside the collection. *)
Definition tombstone (s : Store) : list nat :=
  match toastUndo s with
  | Some (UndoDelete _ removed) => [removed]
  | _ => []
  end.

Definition idsOf (h : list Task) (refs : list nat) : list jsstring :=
  omap (fun r => option_map t_id (h !! r)) refs.

Definition liveIds (s : Store) : list jsstring := idsOf (heap s) (tasks s).
Definition allIds (s : Store) : list jsstring :=
  idsOf (heap s) (tasks s ++ tombstone s).

(** Every address in use points into the heap, and none is used twice. *)
Definition wellFormed (s : Store) : Prop :=
  Forall (fun r => r < length (heap s))%nat (tasks s ++ tombstone s)
  /\ NoDup (tasks s ++ tombstone s)
  /\ match toastUndo s with
     | Some (UndoMove r) => (r < length (heap s))%nat
     | Some (UndoDelete idx _) => (idx <= length (tasks s))%nat
     | None => True
     end.

(** [tasks.find((t) => t.id === id)] *)
Fixpoint findTask (h : list Task) (id : jsstring) (refs : list nat) : option nat :=
  match refs with
  | [] => None
  | r :: refs' =>
      match h !! r with
      | Some t => if decide (t_id t = id) then Some r else findTask h id refs'
      | None => findTask h id refs'
      end
  end.

(** [tasks.findIndex((t) => t.id === id)]; [None] is -1. *)
Fixpoint findIndex (h : list Task) (id : jsstring) (refs : list nat) : option nat :=
  match refs with
  | [] => None
  | r :: refs' =>
      match h !! r with
      | Some t =>
          if decide (t_id t = id) then Some 0%nat
          else option_map S (findIndex h id refs')
      | None => option_map S (findIndex h id refs')
      end
  end.

(** [persistTasks()]: the text lists the members of each task in the order
    of the object literal of [addTask]; for a task that was loaded the host
    keeps the order of the text it was loaded from, and the two texts read
    back to the same properties. *)
Definition persistTasks (s : Store) : Store :=
  mkStore (heap s) (tasks s) (currentEditId s) (toastUndo s) (undoTimer s)
          (persistValue (JArray (map taskObject (getAll s))) (storage s)).

(** [showToast(message, undoFn)]: the pending timer is cleared, the toast
    shows the new button and a new timer is started. *)
Definition showToast (undoFn : option UndoFn) (s : Store) : Store :=
  mkStore (heap s) (tasks s) (currentEditId s) undoFn true (storage s).

Definition hideToast (s : Store) : Store :=
  mkStore (heap s) (tasks s) (currentEditId s) None (undoTimer s) (storage s).

(** The timer of the toast fires. *)
Definition timerFires (s : Store) : Store :=
  if undoTimer s then
    let s := hideToast s in
    mkStore (heap s) (tasks s) (currentEditId s) (toastUndo s) false (storage s)
  else s.

Definition setStatus (st : jsstring) (t : Task) : Task :=
  mkTask (t_id t) (t_title t) (t_due t) (t_priority t) (Some st) (t_owner t)
         (t_createdAt t).

Definition updateHeap (r : nat) (f : Task -> Task) (s : Store) : Store :=
  mkStore (alter f r (heap s)) (tasks s) (currentEditId s) (toastUndo s)
          (undoTimer s) (storage s).

Definition setTasks (refs : list nat) (s : Store) : Store :=
  mkStore (heap s) refs (currentEditId s) (toastUndo s) (undoTimer s) (storage s).

Definition setCurrentEditId (id : option jsstring) (s : Store) : Store :=
  mkStore (heap s) (tasks s) id (toastUndo s) (undoTimer s) (storage s).

Definition s_todo : jsstring := js "todo".
Definition s_doing : jsstring := js "doing".
Definition s_done : jsstring := js "done".

(** The closure an undo button runs. *)
Definition runUndo (f : UndoFn) (s : Store) : Store :=
  match f with
  | UndoMove task => persistTasks (updateHeap task (setStatus s_doing) s)
  | UndoDelete idx removed =>
      persistTasks (setTasks (take idx (tasks s) ++ removed :: drop idx (tasks s)) s)
  end.

(** A click on the undo button of the toast, when there is one. *)
Definition clickUndo (s : Store) : Store :=
  match toastUndo s with
  | Some f => hideToast (runUndo f s)
  | None => s
  end.

(** [moveTask(id, newStatus)] *)
Definition moveTask (id newStatus : jsstring) (s : Store) : Store :=
  match findTask (heap s) id (tasks s) with
  | Some task =>
      let s := updateHeap task (setStatus newStatus) s in
      let s := if decide (newStatus = s_done)
               then showToast (Some (UndoMove task)) s else s in
      persistTasks s
  | None => s
  end.

(** The drop handler of a column. *)
Definition dropOn (taskId column : jsstring) (s : Store) : Store :=
  match findTask (heap s) taskId (tasks s) with
  | Some task =>
      if decide (option_map t_status (heap s !! task) = Some (Some column)) then s
      else moveTask taskId column s
  | None => s
  end.

(** [openTaskModal(id)] and [closeTaskModal()], as far as the store goes. *)
Definition openTaskModal (id : option jsstring) (s : Store) : Store :=
  setCurrentEditId id s.
Definition closeTaskModal (s : Store) : Store := setCurrentEditId None s.

(** A string that is missing or empty is falsy. *)
Definition truthy (x : option jsstring) : bool :=
  match x with
  | Some s => negb (isNil s)
  | None => false
  end.

(** [deleteCurrentTask()] *)
Definition deleteCurrentTask (s : Store) : Store :=
  match currentEditId s with
  | Some id =>
      if negb (truthy (Some id)) then s
      else
        match findIndex (heap s) id (tasks s) with
        | None => s
        | Some idx =>
            match tasks s !! idx with
            | None => s
            | Some removed =>
                let s := setTasks (delete idx (tasks s)) s in
                let s := closeTaskModal s in
                let s := persistTasks s in
                showToast (Some (UndoDelete idx removed)) s
            end
        end
  | None => s
  end.

(** The argument of [addTask]. *)
Record TaskData : Type := mkData {
  d_title : jsstring;
  d_due : option jsstring;
  d_priority : option jsstring;
  d_status : option jsstring;
  d_owner : option jsstring
}.

(** The two clock readings of [addTask], one for the id and one for
    [createdAt]. *)
Record Clock : Type := mkClock {
  nowId : Z;
  nowCreated : Z
}.

Definition pushTask (t : Task) (s : Store) : Store :=
  mkStore (heap s ++ [t]) (tasks s ++ [length (heap s)]) (currentEditId s)
          (toastUndo s) (undoTimer s) (storage s).

(** The values of the form of the modal. *)
Record Form : Type := mkForm {
  f_title : jsstring;
  f_due : jsstring;
  f_owner : jsstring;
  f_priority : jsstring;
  f_status : jsstring
}.

(** [value || undefined] *)
Definition orUndefined (v : jsstring) : option jsstring :=
  if isNil v then None else Some v.

Definition editTask (title : jsstring) (due priority status owner : option jsstring)
  (setOwner : bool) (t : Task) : Task :=
  mkTask (t_id t) title due priority status
         (if setOwner then owner else t_owner t) (t_createdAt t).

Module BoardStore.

(** [addTask(data)] of board.js. *)
Definition addTask (clock : Clock) (data : TaskData) (s : Store) : Store :=
  let newTask :=
    mkTask (Number_toString (nowId clock)) (d_title data) (d_due data)
           (d_priority data) (d_status data)
           (Some (orDefault (d_owner data) [])) (nowCreated clock) in
  persistTasks (pushTask newTask s).

(** [saveTask()] of board.js: every field is required. *)
Definition saveTask (clock : Clock) (form : Form) (s : Store) : Store :=
  let title := trim (f_title form) in
  if isNil title then s
  else
    let due := orUndefined (f_due form) in
    let owner := trim (f_owner form) in
    let status := orUndefined (f_status form) in
    let priority := orUndefined (f_priority form) in
    if isNil owner || negb (truthy due) || negb (truthy priority)
       || negb (truthy status) then s
    else
      let s :=
        if truthy (currentEditId s) then
          match findTask (heap s) (default [] (currentEditId s)) (tasks s) with
          | Some task =>
              persistTasks
                (updateHeap task
                   (editTask title due priority status (Some owner) true) s)
          | None => s
          end
        else addTask clock (mkData title due priority status (Some owner)) s in
      closeTaskModal s.

(** [handleQuickAdd()] of board.js opens the modal on a new task. *)
Definition handleQuickAdd (text : jsstring) (s : Store) : Store :=
  let value := trim text in
  if isNil value then s else setCurrentEditId None s.

End BoardStore.

Module AppStore.

(** [addTask(data)] of the app script. *)
Definition addTask (clock : Clock) (data : TaskData) (s : Store) : Store :=
  let newTask :=
    mkTask (Number_toString (nowId clock)) (d_title data) (d_due data)
           (d_priority data) (d_status data) None (nowCreated clock) in
  persistTasks (pushTask newTask s).

(** [saveTask()] of the app script. *)
Definition saveTask (clock : Clock) (form : Form) (s : Store) : Store :=
  let title := trim (f_title form) in
  if isNil title then s
  else
    let due := orUndefined (f_due form) in
    let priority := orUndefined (f_priority form) in
    let status := Some (f_status form) in
    let s :=
      if truthy (currentEditId s) then
        match findTask (heap s) (default [] (currentEditId s)) (tasks s) with
        | Some task =>
            persistTasks
              (updateHeap task (editTask title due priority status None false) s)
        | None => s
        end
      else addTask clock (mkData title due priority status None) s in
    closeTaskModal s.

(** [handleQuickAdd()] of the app script adds the task at once. *)
Definition handleQuickAdd (clock : Clock) (text : jsstring) (s : Store) : Store :=
  let value := trim text in
  if isNil value then s
  else
    let p := App.parseInput value in
    addTask clock (mkData (p_title p) (p_due p) (p_priority p) (Some s_todo) None) s.

End AppStore.

Inductive Script : Type := BoardJs | AppJs.

(** What the user can do to the store. *)
Inductive Event : Type :=
| EvQuickAdd (clock : Clock) (text : jsstring)
| EvOpen (id : jsstring)
| EvClose
| EvSave (clock : Clock) (form : Form)
| EvDelete
| EvDrop (taskId column : jsstring)
| EvUndo
| EvTimer.

Definition step (sc : Script) (s : Store) (ev : Event) : Store :=
  match ev with
  | EvQuickAdd clock text =>
      match sc with
      | BoardJs => BoardStore.handleQuickAdd text s
      | AppJs => AppStore.handleQuickAdd clock text s
      end
  | EvOpen id => openTaskModal (Some id) s
  | EvClose => closeTaskModal s
  | EvSave clock form =>
      match sc with
      | BoardJs => BoardStore.saveTask clock form s
      | AppJs => AppStore.saveTask clock form s
      end
  | EvDelete => deleteCurrentTask s
  | EvDrop taskId column => dropOn taskId column s
  | EvUndo => clickUndo s
  | EvTimer => timerFires s
  end.

Definition run (sc : Script) (s : Store) (evs : list Event) : Store :=
  fold_left (step sc) evs s.

(** The clock reading an event takes for a new id.  [addTask] alone reads
    the clock, so that an event takes a reading exactly when it leads to a
    call of [addTask] in the state [s]: a quick add of the app script whose
    text is not blank, and a save that passes the checks of its script while
    the modal is open on no task.  An edit, a refused save and a quick add
    of the board page read no clock. *)
Definition clockOf (sc : Script) (s : Store) (ev : Event) : option Z :=
  match ev with
  | EvQuickAdd clock text =>
      match sc with
      | BoardJs => None
      | AppJs => if isNil (trim text) then None else Some (nowId clock)
      end
  | EvSave clock form =>
      if isNil (trim (f_title form)) then None
      else
        match sc with
        | BoardJs =>
            if isNil (trim (f_owner form)) || negb (truthy (orUndefined (f_due form)))
               || negb (truthy (orUndefined (f_priority form)))
               || negb (truthy (orUndefined (f_status form))) then None
            else if truthy (currentEditId s) then None
            else Some (nowId clock)
        | AppJs =>
            if truthy (currentEditId s) then None else Some (nowId clock)
        end
  | _ => None
  end.

(** Along the run of [evs] from [s], the clock readings that are taken are
    at least [c] and go up strictly. *)
Fixpoint clockRises (sc : Script) (c : Z) (s : Store) (evs : list Event) : Prop :=
  match evs with
  | [] => True
  | ev :: evs' =>
      match clockOf sc s ev with
      | Some now => (c <= now)%Z /\ clockRises sc (now + 1) (step sc s ev) evs'
      | None => clockRises sc c (step sc s ev) evs'
      end
  end.

(** Every id in the store is the decimal of a clock reading below [c]. *)
Definition stamped (c : Z) (s : Store) : Prop :=
  forall id, id ∈ allIds s -> exists n, id = Number_toString n /\ (n < c)%Z.

(** ** Notions the proofs use *)

(** The text after a number must not continue it. *)
Definition numEnd (rest : jsstring) : bool :=
  match rest with
  | [] => true
  | c :: _ => negb (isDigit c || (c =? 46) || (c =? 101) || (c =? 69))
  end.

Definition parseCons (c : char16) (r : option (jsstring * jsstring))
  : option (jsstring * jsstring) :=
  match r with
  | Some (str, rest) => Some (c :: str, rest)
  | None => None
  end.

Definition ser (x : JSValue) : jsstring := default (js "null") (JSON_stringify x).

Definition valueStart (c : char16) : bool :=
  (c =? 34) || (c =? 91) || (c =? 123) || (c =? 116) || (c =? 102)
  || (c =? 110) || (c =? 45) || isDigit c.

Definition costElems (l : list JSValue) : nat :=
  fold_right (fun x acc => S (cost x + acc)) 0%nat l.

Definition costProps (ps : list (jsstring * JSValue)) : nat :=
  fold_right (fun p acc => S (cost (snd p) + acc)) 0%nat ps.

Definition printedMembers (ps : list (jsstring * JSValue)) : list jsstring :=
  omap (fun p => option_map (fun t => quote (fst p) ++ 58 :: t)
                            (JSON_stringify (snd p))) ps.

Definition reloadProps (ps : list (jsstring * JSValue)) : list (jsstring * JSValue) :=
  omap (fun p => match snd p with
                 | JUndefined => None
                 | _ => Some (fst p, reload (snd p))
                 end) ps.

(** Parsing the text of [v] gives [reload v] back. *)
Definition ReadsBack (v : JSValue) : Prop :=
  uniqueKeys v ->
  forall fuel rest,
    (cost (reload v) <= fuel)%nat -> valueEnd rest = true ->
    parseValue fuel (ser v ++ rest) = Some (reload v, rest).

Definition bump (c : option Cell) (n : nat) : option Cell :=
  match n, c with
  | O, _ => c
  | S _, None => Some (Count n)
  | S _, Some (Count m) => Some (Count (m + n))
  | S _, Some Text => Some Text
  end.

(** No cell holds a text. *)
Definition countsOnly (m : gmap (list N) Cell) : Prop :=
  forall k, m !! k <> Some Text.

(** The invariant: addresses are sound, the ids of the collection and of the
    task an undo button holds are distinct, and each is the decimal of a
    clock reading below [c]. *)
Definition Inv (c : Z) (s : Store) : Prop :=
  wellFormed s /\ NoDup (allIds s) /\ stamped c s.

(** ** Themes

    Every page carries the same three functions.  The page is the wrapper
    element, dark or not, the text and the label of the toggle button, and
    the storage; writes to the storage are taken to succeed. *)

Definition themeKey : jsstring := js "taskRoverTheme".
Definition s_dark : jsstring := js "dark".
Definition s_light : jsstring := js "light".

(** The sun and the moon of the toggle button, in code units. *)
Definition icon_sun : jsstring := [9728; 65039].
Definition icon_moon : jsstring := [55356; 57113].

Record ThemeUi : Type := mkThemeUi {
  wrapperDark : bool;
  toggleText : jsstring;
  toggleLabel : jsstring;
  themeSlots : gmap (list N) (list N)
}.

(** [applyTheme(mode)]; the app script calls it [setTheme]. *)
Definition applyTheme (mode : jsstring) (ui : ThemeUi) : ThemeUi :=
  let ui :=
    if decide (mode = s_dark)
    then mkThemeUi true icon_sun (js "Switch to light mode") (themeSlots ui)
    else mkThemeUi false icon_moon (js "Switch to dark mode") (themeSlots ui) in
  mkThemeUi (wrapperDark ui) (toggleText ui) (toggleLabel ui)
            (setItem (themeSlots ui) themeKey mode).

(** [initTheme()]; [prefersDark] is what the media query of the system
    preference answers, false when the host has no [matchMedia]. *)
Definition initTheme (prefersDark : bool) (ui : ThemeUi) : ThemeUi :=
  let theme := getItem (themeSlots ui) themeKey in
  let theme :=
    if negb (truthy theme) then Some (if prefersDark then s_dark else s_light)
    else theme in
  applyTheme (default [] theme) ui.

(** [initTheme()] of board.js sets the icon once more from the class. *)
Definition Board_initTheme (prefersDark : bool) (ui : ThemeUi) : ThemeUi :=
  let theme := getItem (themeSlots ui) themeKey in
  let theme :=
    if negb (truthy theme) then Some (if prefersDark then s_dark else s_light)
    else theme in
  let ui := applyTheme (default [] theme) ui in
  mkThemeUi (wrapperDark ui) (if wrapperDark ui then icon_sun else icon_moon)
            (toggleLabel ui) (themeSlots ui).

(** [toggleTheme()] *)
Definition toggleTheme (ui : ThemeUi) : ThemeUi :=
  let isDark := wrapperDark ui in
  applyTheme (if isDark then s_light else s_dark) ui.

(** Either version of [initTheme]. *)
Definition isInitTheme (init : bool -> ThemeUi -> ThemeUi) : Prop :=
  init = initTheme \/ init = Board_initTheme.

(** ** Signing in and out *)

Definition loggedInKey : jsstring := js "loggedIn".
Definition userEmailKey : jsstring := js "userEmail".

Definition removeItem (storage : Storage) (key : jsstring) : Storage :=
  delete key storage.

Definition c_dot : char16 := 46.

(** The class of the sign-in pattern: no space and no at sign. *)
Definition notSpaceOrAt (c : char16) : bool :=
  negb (isWhiteSpace c || isChar c_at c).

(** The pattern of [validateEmail] between its two anchors: a run of the
    class, an at sign, a run, a dot, a run. *)
Definition emailRe : regex :=
  seqs [Plus notSpaceOrAt; lit c_at; Plus notSpaceOrAt; lit c_dot]
       (Plus notSpaceOrAt).

(** [r.test(s)] for a pattern anchored at both ends: the search can only
    start at the first code unit, and it backtracks until a way of matching
    uses up the text. *)
Definition testAnchored (r : regex) (s : jsstring) : bool :=
  existsb (fun m => isNil (snd m)) (matchAt r s).

Definition validateEmail (email : jsstring) : bool := testAnchored emailRe email.

Inductive Location : Type := signin_html | board_html | stats_html | landing_html.

Inductive SigninMessage : Type := InvalidEmail | CheckYourEmail.

(** The sign-in page: the storage, the message under the form, and whether
    the timer that leads to the board is running. *)
Record SigninPage : Type := mkSigninPage {
  signinSlots : gmap (list N) (list N);
  signinMessage : option SigninMessage;
  signinTimer : option Location
}.

(** The submit handler of the sign-in form; the two writes are taken to
    succeed. *)
Definition Signin_submit (emailInput : jsstring) (p : SigninPage) : SigninPage :=
  let email := trim emailInput in
  if negb (validateEmail email) then
    mkSigninPage (signinSlots p) (Some InvalidEmail) (signinTimer p)
  else
    let slots := setItem (signinSlots p) loggedInKey (js "true") in
    let slots := setItem slots userEmailKey email in
    mkSigninPage slots (Some CheckYourEmail) (Some board_html).

(** Where the sign-in script sends the browser when the page opens. *)
Definition Signin_open (slots : Storage) : option Location :=
  if truthy (getItem slots loggedInKey) then Some board_html else None.

(** The start of [init] of board.js: the redirect, or the loaded tasks. *)
Definition Board_init (slots : Storage) : Location + Completion JSValue :=
  let loggedIn := getItem slots loggedInKey in
  if negb (truthy loggedIn) then inl signin_html else inr (loadTasks slots).

(** The stats page: the redirect, or the tasks it is about to count. *)
Definition Stats_open (slots : Storage) : Location + Completion (list JSValue) :=
  if negb (truthy (getItem slots loggedInKey)) then inl signin_html
  else inr (Stats_tasks slots).

(** The click handler of the sign-out button of the board. *)
Definition Board_signOut (slots : Storage) : Storage * Location :=
  let slots := removeItem slots loggedInKey in
  let slots := removeItem slots userEmailKey in
  (slots, landing_html).

(** ** Sorting

    [l.sort(cmp)]: the sort is stable, so that for a comparison that orders
    the elements consistently the result is fixed; it is computed here by
    insertion.  A comparison result that is no number counts as 0; a
    comparison with such results is not consistent, the order is then up
    to the host, and the one computed here need not be the one it takes. *)

Fixpoint insertSorted {A} (cmp : A -> A -> Z) (x : A) (l : list A) : list A :=
  match l with
  | [] => [x]
  | y :: l' => if (cmp x y <=? 0)%Z then x :: l else y :: insertSorted cmp x l'
  end.

Definition Array_sort {A} (cmp : A -> A -> Z) (l : list A) : list A :=
  fold_right (insertSorted cmp) [] l.

(** ** Rendering the board *)

Definition statuses : list (jsstring * jsstring) :=
  [(s_todo, js "To Do"); (s_doing, js "In Progress"); (s_done, js "Done")].

(** A column as [renderBoard] builds it: its status key, its title, the
    number on its chip and the tasks of its cards from top to bottom. *)
Record Column : Type := mkColumn {
  col_status : jsstring;
  col_title : jsstring;
  col_count : nat;
  col_cards : list Task
}.

(** [renderBoard()], the same text in both board scripts. *)
Definition renderBoard (s : Store) : list Column :=
  map (fun status =>
         let tasksForStatus :=
           List.filter (fun t => bool_decide (t_status t = Some (fst status)))
                       (getAll s) in
         mkColumn (fst status) (snd status) (length tasksForStatus)
                  (Array_sort (fun a b => (t_createdAt a - t_createdAt b)%Z)
                              tasksForStatus))
      statuses.

(** ** Rendering the stats *)

(** The label of an item: a text, or what [labelMap[key]] gives for a name
    inherited from [Object.prototype], which is no text. *)
Inductive Label : Type :=
| LabelText (s : jsstring)
| LabelInherited.

Fixpoint lookupLabel (labelMap : list (jsstring * jsstring)) (key : jsstring)
  : option jsstring :=
  match labelMap with
  | [] => None
  | (k, l) :: labelMap' => if decide (k = key) then Some l else lookupLabel labelMap' key
  end.

(** [labelMap && key in labelMap ? labelMap[key] : key]; [None] is the
    [null] the owner section passes. *)
Definition labelOf (labelMap : option (list (jsstring * jsstring))) (key : jsstring)
  : Label :=
  match labelMap with
  | Some lm =>
      match lookupLabel lm key with
      | Some l => LabelText l
      | None =>
          if decide (key = protoAccessor) then LabelInherited
          else if decide (key ∈ inheritedMethods) then LabelInherited
          else LabelText key
      end
  | None => LabelText key
  end.

Definition statusLabels : list (jsstring * jsstring) :=
  [(js "todo", js "To Do"); (js "doing", js "In Progress"); (js "done", js "Done")].

Definition priorityLabels : list (jsstring * jsstring) :=
  [(js "none", js "None"); (js "high", js "High"); (js "medium", js "Medium");
   (js "low", js "Low")].

(** An item of a section, [label: value]. *)
Record StatsItem : Type := mkItem {
  i_label : Label;
  i_value : option Cell
}.

Inductive StatsList : Type :=
| NoData
| Items (items : list StatsItem).

(** [data[b] - data[a]]; with a cell that is no count the difference is no
    number. *)
Definition countDiff (data : gmap (list N) Cell) (a b : jsstring) : Z :=
  match data !! b, data !! a with
  | Some (Count y), Some (Count x) => (Z.of_nat y - Z.of_nat x)%Z
  | _, _ => 0%Z
  end.

(** [renderList(containerId, data, labelMap)]; [keys] is what
    [Object.keys(data)] gives, the own keys of [data] in the order of the
    host. *)
Definition renderList (keys : list jsstring) (data : gmap (list N) Cell)
    (labelMap : option (list (jsstring * jsstring))) : StatsList :=
  if (length keys =? 0)%nat then NoData
  else
    let keys := Array_sort (countDiff data) keys in
    Items (map (fun key => mkItem (labelOf labelMap key) (data !! key)) keys).

(** ** The modal of the board page

    The quick-add bar, the title of the modal, the three inputs and the two
    [data-value] attributes of its form, whether the delete button and the
    modal show, and whether the save button is disabled.  An input holds
    the text assigned to it. *)

Record Ui : Type := mkUi {
  quickAdd : jsstring;
  modalTitle : jsstring;
  fields : Form;
  deleteShown : bool;
  modalShown : bool;
  saveDisabled : bool
}.

Definition setFields (f : Form) (ui : Ui) : Ui :=
  mkUi (quickAdd ui) (modalTitle ui) f (deleteShown ui) (modalShown ui)
       (saveDisabled ui).

Definition setModal (title : jsstring) (delete show : bool) (ui : Ui) : Ui :=
  mkUi (quickAdd ui) title (fields ui) delete show (saveDisabled ui).

Module BoardPage.

(** [setActivePriority(value)]: the attribute gets the value, or the empty
    text for a falsy one. *)
Definition setActivePriority (value : jsstring) (ui : Ui) : Ui :=
  let f := fields ui in
  setFields (mkForm (f_title f) (f_due f) (f_owner f) (orDefault (Some value) [])
                    (f_status f)) ui.

Definition getActivePriority (ui : Ui) : option jsstring :=
  orUndefined (f_priority (fields ui)).

(** [setActiveStatus(value)]; the status of a task can be missing. *)
Definition setActiveStatus (value : option jsstring) (ui : Ui) : Ui :=
  let f := fields ui in
  setFields (mkForm (f_title f) (f_due f) (f_owner f) (f_priority f)
                    (orDefault value [])) ui.

Definition getActiveStatus (ui : Ui) : option jsstring :=
  orUndefined (f_status (fields ui)).

Definition setInputs (title due owner : jsstring) (ui : Ui) : Ui :=
  let f := fields ui in
  setFields (mkForm title due owner (f_priority f) (f_status f)) ui.

(** [updateSaveBtnState()] *)
Definition updateSaveBtnState (ui : Ui) : Ui :=
  let title := trim (f_title (fields ui)) in
  let due := f_due (fields ui) in
  let owner := trim (f_owner (fields ui)) in
  let priority := getActivePriority ui in
  let status := getActiveStatus ui in
  let allFilled :=
    negb (isNil title) && negb (isNil owner) && negb (isNil due)
    && truthy priority && truthy status in
  mkUi (quickAdd ui) (modalTitle ui) (fields ui) (deleteShown ui) (modalShown ui)
       (negb allFilled).

(** [handleQuickAdd()] of board.js, up to the timer it starts. *)
Definition handleQuickAdd (p : Ui * Store) : Ui * Store :=
  let '(ui, s) := p in
  let value := trim (quickAdd ui) in
  if isNil value then p
  else
    let parsed := Board.parseInput value in
    let ui := mkUi [] (modalTitle ui) (fields ui) (deleteShown ui) (modalShown ui)
                   (saveDisabled ui) in
    let s := setCurrentEditId None s in
    let ui := setInputs (p_title parsed) (orDefault (p_due parsed) []) [] ui in
    let ui := setActiveStatus (Some (js "todo")) ui in
    let ui := setActivePriority (orDefault (p_priority parsed) []) ui in
    (setModal (js "Add Task") false true ui, s).

(** [openTaskModal(id)] of board.js, up to the timer it starts. *)
Definition openTaskModal (id : option jsstring) (p : Ui * Store) : Ui * Store :=
  let '(ui, s) := p in
  let s := setCurrentEditId id s in
  let ui := setActivePriority [] ui in
  if truthy id then
    let ui := setModal (js "Edit Task") (deleteShown ui) (modalShown ui) ui in
    match findTask (heap s) (default [] id) (tasks s) with
    | None => (ui, s)
    | Some r =>
        match heap s !! r with
        | None => (ui, s)
        | Some task =>
            let ui := setInputs (t_title task) (orDefault (t_due task) [])
                                (orDefault (t_owner task) []) ui in
            let ui := setActiveStatus (t_status task) ui in
            let ui := setActivePriority (orDefault (t_priority task) []) ui in
            (setModal (modalTitle ui) true true ui, s)
        end
    end
  else
    let ui := setInputs [] [] [] ui in
    let ui := setActiveStatus (Some (js "todo")) ui in
    let ui := setActivePriority [] ui in
    (setModal (js "Add Task") false true ui, s).

(** The timer both functions start: the title gets the focus and the save
    button its state. *)
Definition focusTimer (p : Ui * Store) : Ui * Store :=
  (updateSaveBtnState (fst p), snd p).

(** [closeTaskModal()] *)
Definition closeTaskModal (p : Ui * Store) : Ui * Store :=
  let '(ui, s) := p in
  (setModal (modalTitle ui) (deleteShown ui) false ui, setCurrentEditId None s).

(** [saveTask()] of board.js, reading the form of the modal. *)
Definition saveTask (clock : Clock) (p : Ui * Store) : Ui * Store :=
  let '(ui, s) := p in
  let title := trim (f_title (fields ui)) in
  if isNil title then p
  else
    let due := orUndefined (f_due (fields ui)) in
    let owner := trim (f_owner (fields ui)) in
    let status := getActiveStatus ui in
    let priority := getActivePriority ui in
    if isNil owner || negb (truthy due) || negb (truthy priority)
       || negb (truthy status) then p
    else
      let s :=
        if truthy (currentEditId s) then
          match findTask (heap s) (default [] (currentEditId s)) (tasks s) with
          | Some task =>
              persistTasks
                (updateHeap task
                   (editTask title due priority status (Some owner) true) s)
          | None => s
          end
        else BoardStore.addTask clock (mkData title due priority status (Some owner)) s in
      closeTaskModal (ui, s).

End BoardPage.

(** ** Notions the further properties use *)

(** The number of tasks a key function sends to a bucket. *)
Definition inBucketBy (key : Task -> jsstring) (k : jsstring) (tasks : list Task)
  : nat :=
  length (List.filter (fun t => bool_decide (key t = k)) tasks).

(** The storage reads back as the collection. *)
Definition mirrors (s : Store) : Prop :=
  exists vs,
    loadTasks (storage s) = Normal (JArray vs)
    /\ Forall2 (fun t v => readTask v = Some t) (getAll s) vs.

(** The store a page starts with when the storage holds the tasks [ts]. *)
Definition startStore (ts : list Task) (slots : gmap (list N) (list N)) : Store :=
  mkStore ts (seq 0 (length ts)) None None false slots.

(** The task object at [r] is out of reach: it is neither in the
    collection nor held by the undo button. *)
Definition outOfReach (r : nat) (s : Store) : Prop :=
  (r < length (heap s))%nat /\ (r ∉ tasks s) /\ (r ∉ tombstone s).

(** The count a cell shows, for the order of a stats section. *)
Definition countOfKey (data : gmap (list N) Cell) (key : jsstring) : nat :=
  match data !! key with
  | Some c => cellValue c
  | None => 0%nat
  end.

Definition onBoard (t : Task) : bool :=
  bool_decide (t_status t = Some s_todo) || bool_decide (t_status t = Some s_doing)
  || bool_decide (t_status t = Some s_done).

(** * Properties *)

(** ** The regular-expression search *)

Lemma plusRests_spec (p : char16 -> bool) (s rest : jsstring) :
  In rest (plusRests p s) <->
  exists m, s = m ++ rest /\ m <> [] /\ forallb p m = true.
Proof.
  revert rest. induction s as [|c s IH]; intros rest; simpl.
  - split; [inversion 1|]. intros (m & Hs & Hm & _). destruct m; [congruence|discriminate].
  - destruct (p c) eqn:Hc.
    + rewrite in_app_iff, IH. simpl. split.
      * intros [(m & -> & Hm & Hp) | [<- | []]].
        -- exists (c :: m). simpl. rewrite Hc. auto.
        -- exists [c]. simpl. rewrite Hc. auto.
      * intros (m & Hs & Hm & Hp). destruct m as [|c' m]; [congruence|].
        simpl in Hs, Hp. injection Hs as <- ->.
        apply andb_prop in Hp as [_ Hp].
        destruct m as [|c'' m]; [right; left; reflexivity|].
        left. exists (c'' :: m). auto.
    + split; [inversion 1|]. intros (m & Hs & Hm & Hp).
      destruct m as [|c' m]; [congruence|]. simpl in Hs, Hp.
      injection Hs as <- _. rewrite Hc in Hp. discriminate.
Qed.

Lemma take_app_rest {A} (m rest : list A) :
  take (length (m ++ rest) - length rest) (m ++ rest) = m.
Proof.
  rewrite length_app.
  replace (length m + length rest - length rest)%nat with (length m) by lia.
  apply take_app_length.
Qed.

Lemma matchAt_spec (r : regex) (s rest : jsstring) (g : option jsstring) :
  In (g, rest) (matchAt r s) <-> exists m, s = m ++ rest /\ Matches r m g.
Proof.
  revert s rest g. induction r as [p | r1 IH1 r2 IH2 | r1 IH1 r2 IH2 | p | r IH];
    intros s rest g; simpl.
  - destruct s as [|c s]; simpl.
    + split; [inversion 1|]. intros (m & Hs & Hm). inversion Hm; subst. discriminate.
    + destruct (p c) eqn:Hc; simpl.
      * split.
        -- intros [[= <- <-] | []]. exists [c]. split; [reflexivity|]. by constructor.
        -- intros (m & Hs & Hm). inversion Hm; subst. injection Hs as <- <-. auto.
      * split; [inversion 1|]. intros (m & Hs & Hm). inversion Hm; subst.
        injection Hs as <- _. congruence.
  - rewrite in_flat_map. split.
    + intros ([g1 s1] & H1 & H2). apply in_map_iff in H2 as ([g2 s2] & [= <- <-] & H2).
      apply IH1 in H1 as (m1 & -> & Hm1). apply IH2 in H2 as (m2 & Hs2 & Hm2).
      simpl in Hs2. subst s1. exists (m1 ++ m2). rewrite <- app_assoc.
      split; [reflexivity|]. by constructor.
    + intros (m & -> & Hm). inversion Hm; subst.
      exists (g1, m2 ++ rest). split.
      * apply IH1. exists m1. by rewrite <- app_assoc.
      * apply in_map_iff. exists (g2, rest). split; [reflexivity|].
        apply IH2. eauto.
  - rewrite in_app_iff, IH1, IH2. split.
    + intros [(m & -> & Hm) | (m & -> & Hm)]; exists m; split; auto;
        [by apply M_AltL | by apply M_AltR].
    + intros (m & -> & Hm). inversion Hm; subst; eauto.
  - rewrite in_map_iff. split.
    + intros (s' & [= <- <-] & Hin). apply plusRests_spec in Hin as (m & -> & Hm & Hp).
      exists m. split; [reflexivity|]. by constructor.
    + intros (m & -> & Hm). inversion Hm; subst. exists rest. split; [reflexivity|].
      apply plusRests_spec. eauto.
  - rewrite in_map_iff. split.
    + intros ([g' rest'] & [= <- <-] & Hin). apply IH in Hin as (m & -> & Hm).
      exists m. simpl. rewrite take_app_rest. split; [reflexivity|].
      eapply M_Group; eassumption.
    + intros (m & -> & Hm). inversion Hm as [| | | | |r' m' g' Hm']; subst.
      exists (g', rest). simpl.
      rewrite take_app_rest. split; [reflexivity|]. apply IH. eauto.
Qed.

Lemma matchAt_head (r : regex) (s rest : jsstring) g l :
  matchAt r s = (g, rest) :: l ->
  s = take (length s - length rest) s ++ rest
  /\ Matches r (take (length s - length rest) s) g.
Proof.
  intros Hm.
  assert (Hin : In (g, rest) (matchAt r s)) by (rewrite Hm; left; reflexivity).
  apply matchAt_spec in Hin as (x & -> & Hx).
  rewrite take_app_rest. auto.
Qed.

Lemma matchAt_nil (r : regex) (s : jsstring) :
  matchAt r s = [] -> forall x g post, s = x ++ post -> ~ Matches r x g.
Proof.
  intros Hm x g post Hs Hx.
  assert (Hin : In (g, post) (matchAt r s)) by (apply matchAt_spec; eauto).
  rewrite Hm in Hin. destruct Hin.
Qed.

Lemma String_match_eq (r : regex) (s : jsstring) :
  String_match r s =
  match matchAt r s with
  | (g, rest) :: _ => Some (mkMatch [] (take (length s - length rest) s) g rest)
  | [] =>
      match s with
      | [] => None
      | c :: s' => option_map (shiftMatch c) (String_match r s')
      end
  end.
Proof. destruct s; reflexivity. Qed.

(** What [String_match] returns is a match, at the leftmost position where
    there is one. *)
Lemma String_match_Some (r : regex) (s : jsstring) (m : MatchResult) :
  String_match r s = Some m ->
  s = m_before m ++ m_0 m ++ m_after m
  /\ Matches r (m_0 m) (m_1 m)
  /\ forall pre x g post,
       s = pre ++ x ++ post -> Matches r x g ->
       (length (m_before m) <= length pre)%nat.
Proof.
  revert m. induction s as [|c s IH]; intros m; rewrite String_match_eq.
  - destruct (matchAt r []) as [|[g rest] l] eqn:Hm; [discriminate|].
    intros [= <-]. apply matchAt_head in Hm as [Hs Hx].
    cbn [m_before m_0 m_1 m_after]. repeat split; auto. intros. simpl. lia.
  - destruct (matchAt r (c :: s)) as [|[g rest] l] eqn:Hm.
    + destruct (String_match r s) as [m'|] eqn:Hs; [|discriminate].
      intros [= <-]. destruct (IH m' eq_refl) as (Hsplit & Hmat & Hleft).
      cbn [shiftMatch m_before m_0 m_1 m_after]. repeat split; auto.
      * simpl. by rewrite Hsplit at 1.
      * intros pre x g post Hpre Hx. destruct pre as [|c' pre].
        -- exfalso. by eapply (matchAt_nil _ _ Hm x g post).
        -- simpl in Hpre. injection Hpre as <- Hpre. simpl.
           specialize (Hleft _ _ _ _ Hpre Hx). lia.
    + intros [= <-]. apply matchAt_head in Hm as [Hs Hx].
      cbn [m_before m_0 m_1 m_after]. repeat split; auto. intros. simpl. lia.
Qed.

Lemma String_match_None (r : regex) (s : jsstring) :
  String_match r s = None ->
  forall pre x g post, s = pre ++ x ++ post -> ~ Matches r x g.
Proof.
  induction s as [|c s IH]; rewrite String_match_eq.
  - destruct (matchAt r []) as [|[g rest] l] eqn:Hm; [|discriminate].
    intros _ pre x g post Hs. destruct pre; [|discriminate].
    by eapply matchAt_nil.
  - destruct (matchAt r (c :: s)) as [|[g rest] l] eqn:Hm; [|discriminate].
    destruct (String_match r s) as [m'|] eqn:Hs; [discriminate|].
    intros _ pre x g post Hpre. destruct pre as [|c' pre].
    + by eapply matchAt_nil.
    + injection Hpre as <- Hpre. by eapply IH.
Qed.

(** ** The two patterns of the parser *)

Lemma orElse_None_r {A} (g : option A) : orElse g None = g.
Proof. by destruct g. Qed.

Lemma Matches_cons (p : char16 -> bool) (r : regex) c m g :
  p c = true -> Matches r m g -> Matches (Seq (Cls p) r) (c :: m) g.
Proof.
  intros Hc Hm. rewrite <- (orElse_None_r g).
  change (c :: m) with ([c] ++ m). constructor; [by constructor | done].
Qed.

Lemma Matches_cons_inv (p : char16 -> bool) (r : regex) m g :
  Matches (Seq (Cls p) r) m g ->
  exists c m', m = c :: m' /\ p c = true /\ Matches r m' g.
Proof.
  intros H. inversion H as [|r1 r2 m1 m2 g1 g2 H1 H2| | | |]; subst.
  inversion H1; subst. rewrite orElse_None_r. eauto.
Qed.

Ltac and_true :=
  repeat match goal with
  | H : _ && _ = true |- _ => apply andb_prop in H as [? ?]
  end.

Lemma Matches_dueRe (m : jsstring) (g : option jsstring) :
  Matches dueRe m g <->
  exists d, m = c_at :: d /\ dateShaped d = true /\ g = Some d.
Proof.
  unfold dueRe, lit, digit, range, seqs. split.
  - intros H. apply Matches_cons_inv in H as (c & d & -> & Hc & H).
    apply N.eqb_eq in Hc as <-. exists d. split; [reflexivity|].
    inversion H as [| | | | |r' m' g' H']; subst. split; [|reflexivity].
    inversion H' as [|r1 r2 m1 m2 g1 g2 Hy H2| | | |]; subst. clear H H'.
    do 7 (apply Matches_cons_inv in H2 as (? & ? & -> & ? & H2)).
    inversion H2; subst. clear H2.
    assert (Hyy : exists y1 y2, m1 = [y1; y2] /\
      ((y1 =? 49) && (y2 =? 57) || (y1 =? 50) && (y2 =? 48)) = true).
    { inversion Hy as [| |? ? ? ? Ha|? ? ? ? Ha| |]; subst;
        apply Matches_cons_inv in Ha as (y1 & ? & -> & Hy1 & Ha);
        inversion Ha as [? y2 Hy2| | | | |]; subst; exists y1, y2;
        (split; [reflexivity|]); unfold isChar in *;
        apply N.eqb_eq in Hy1, Hy2; subst; reflexivity. }
    destruct Hyy as (y1 & y2 & -> & Hyy). simpl.
    unfold isChar, c_dash in *.
    repeat match goal with
    | H : (45 =? ?c) = true |- _ => rewrite N.eqb_sym in H
    end.
    repeat match goal with
    | H : _ = true |- _ => rewrite H; clear H
    end. reflexivity.
  - intros (d & -> & Hd & ->).
    do 11 (destruct d as [|? d]; try discriminate Hd).
    simpl in Hd. and_true.
    apply Matches_cons; [apply N.eqb_refl|].
    apply (M_Group _ _ None).
    match goal with
    | |- Matches _ (?a :: ?b :: ?l) _ => change (a :: b :: l) with ([a; b] ++ l)
    end.
    rewrite <- (orElse_None_r None). constructor.
    + match goal with H : _ || _ = true |- _ => apply orb_prop in H as [H|H] end;
        and_true; [apply M_AltL | apply M_AltR];
        (apply Matches_cons; [unfold isChar; by rewrite N.eqb_sym|]);
        constructor; unfold isChar; by rewrite N.eqb_sym.
    + unfold c_dash in *.
      repeat (apply Matches_cons; [unfold isChar; first [done | by rewrite N.eqb_sym]|]).
      by constructor.
Qed.

Lemma dateShaped_length (d : jsstring) : dateShaped d = true -> length d = 10%nat.
Proof. do 11 (destruct d as [|? d]; try discriminate). reflexivity. Qed.

Lemma dateShaped_no_bang (d : jsstring) :
  dateShaped d = true -> forallb (fun c => negb (isChar c_bang c)) d = true.
Proof.
  intros H. do 11 (destruct d as [|? d]; try discriminate H).
  simpl in H. and_true. unfold isChar, c_bang, isDigit, inRange, c_dash in *.
  cbn [forallb].
  repeat match goal with
  | H : _ || _ = true |- _ => apply orb_prop in H as [H|H]
  end; and_true;
  repeat match goal with
  | H : (_ =? _) = true |- _ => apply N.eqb_eq in H
  | H : (_ <=? _) = true |- _ => apply N.leb_le in H
  end;
  repeat match goal with
  | |- context [33 =? ?c] => destruct (N.eqb_spec 33 c); [lia|]
  end; reflexivity.
Qed.

Lemma plusRests_head (p : char16 -> bool) (s : jsstring) :
  match plusRests p s with
  | [] => takeWhile p s = []
  | r :: _ => r = dropWhile p s /\ takeWhile p s <> []
  end.
Proof.
  induction s as [|c s IH]; simpl; [reflexivity|].
  destruct (p c); [|reflexivity].
  destruct (plusRests p s) as [|r l] eqn:Hr; simpl.
  - split; [|discriminate]. destruct s as [|c' s]; [reflexivity|].
    simpl in *. destruct (p c'); [discriminate | reflexivity].
  - destruct IH as [-> _]. split; [reflexivity | discriminate].
Qed.

Lemma takeWhile_dropWhile {A} (p : A -> bool) (l : list A) :
  takeWhile p l ++ dropWhile p l = l.
Proof. induction l as [|x l IH]; simpl; [done|]. destruct (p x); simpl; congruence. Qed.

Lemma takeWhile_forallb {A} (p : A -> bool) (l : list A) :
  forallb p (takeWhile p l) = true.
Proof. induction l as [|x l IH]; simpl; [done|]. destruct (p x) eqn:H; simpl; [by rewrite H|done]. Qed.

Lemma take_length_dropWhile {A} (p : A -> bool) (l : list A) :
  take (length l - length (dropWhile p l)) l = takeWhile p l.
Proof.
  rewrite <- (takeWhile_dropWhile p l) at 1 3. apply take_app_rest.
Qed.

Lemma dropWhile_notBang_head (s : jsstring) :
  match dropWhile notBang s with
  | [] => True
  | c :: _ => isBang c = true
  end.
Proof.
  induction s as [|c s IH]; simpl; [done|]. unfold notBang at 1.
  destruct (isBang c) eqn:H; simpl; [done | exact IH].
Qed.

Lemma dropWhile_notBang_cons (c : char16) (s : jsstring) :
  dropWhile notBang (c :: s) = if isBang c then c :: s else dropWhile notBang s.
Proof. simpl. unfold notBang. by destruct (isBang c). Qed.

Lemma takeWhile_notBang_cons (c : char16) (s : jsstring) :
  takeWhile notBang (c :: s) = if isBang c then [] else c :: takeWhile notBang s.
Proof. simpl. unfold notBang. by destruct (isBang c). Qed.

(** The search for [/!+/]: the longest run at the first [!]. *)
Lemma String_match_priRe (s : jsstring) :
  String_match priRe s =
  match firstRun s with
  | [] => None
  | _ :: _ =>
      Some (mkMatch (takeWhile notBang s) (firstRun s) None
                    (dropWhile isBang (dropWhile notBang s)))
  end.
Proof.
  unfold firstRun. induction s as [|c s IH]; [reflexivity|].
  rewrite String_match_eq. unfold priRe at 1. cbn [matchAt].
  pose proof (plusRests_head (isChar c_bang) (c :: s)) as Hh.
  change (isChar c_bang) with isBang in *.
  rewrite dropWhile_notBang_cons, takeWhile_notBang_cons.
  destruct (plusRests isBang (c :: s)) as [|r l] eqn:Hr.
  - cbn [map takeWhile] in *. destruct (isBang c) eqn:Hc; [discriminate|].
    rewrite IH. by destruct (takeWhile isBang (dropWhile notBang s)).
  - destruct Hh as [-> Hne]. cbn [map].
    rewrite take_length_dropWhile. cbn [takeWhile] in *.
    destruct (isBang c) eqn:Hc; [|done].
    cbn [takeWhile]. rewrite Hc. reflexivity.
Qed.

Lemma firstRun_forallb (s : jsstring) : forallb isBang (firstRun s) = true.
Proof. apply takeWhile_forallb. Qed.

(** ** Replacing the first occurrence *)

Lemma startsWith_spec (pat s : jsstring) :
  startsWith pat s = true <-> exists rest, s = pat ++ rest.
Proof.
  revert s. induction pat as [|p pat IH]; intros s; simpl.
  - split; eauto.
  - destruct s as [|c s].
    + split; [discriminate|]. intros [rest H]. discriminate.
    + rewrite andb_true_iff, N.eqb_eq, IH. split.
      * intros [-> [rest ->]]. eauto.
      * intros [rest [= -> ->]]. eauto.
Qed.

Lemma replace_eq (s pat rep : jsstring) :
  replace s pat rep =
  if startsWith pat s then rep ++ drop (length pat) s
  else match s with
       | [] => []
       | c :: s' => c :: replace s' pat rep
       end.
Proof. destruct s; reflexivity. Qed.

Lemma replace_first (pre pat post rep : jsstring) :
  (forall pre' post', pre ++ pat ++ post = pre' ++ pat ++ post' ->
     (length pre <= length pre')%nat) ->
  replace (pre ++ pat ++ post) pat rep = pre ++ rep ++ post.
Proof.
  induction pre as [|c pre IH]; intros Hmin; rewrite replace_eq.
  - simpl. assert (Hs : startsWith pat (pat ++ post) = true)
      by (apply startsWith_spec; eauto).
    rewrite Hs. by rewrite drop_app_length.
  - destruct (startsWith pat ((c :: pre) ++ pat ++ post)) eqn:Hs.
    + apply startsWith_spec in Hs as [rest Hs].
      specialize (Hmin [] rest Hs). simpl in Hmin. lia.
    + simpl. f_equal. apply IH. intros pre' post' Heq.
      specialize (Hmin (c :: pre') post'). simpl in Hmin.
      rewrite Heq in Hmin. specialize (Hmin eq_refl). lia.
Qed.

(** ** The due-date step *)

Lemma String_match_dueRe (input : jsstring) (m : MatchResult) :
  String_match dueRe input = Some m ->
  exists d, m_0 m = c_at :: d /\ m_1 m = Some d
    /\ firstDueToken input (m_before m) d (m_after m)
    /\ replace input (m_0 m) [] = m_before m ++ m_after m.
Proof.
  intros H. apply String_match_Some in H as (Hs & Hm & Hleft).
  apply Matches_dueRe in Hm as (d & H0 & Hd & H1).
  exists d. split; [done|]. split; [done|].
  assert (Hfirst : firstDueToken input (m_before m) d (m_after m)).
  { split; [by rewrite Hs, H0|]. split; [done|].
    intros pre' d' post' Hin Hd'.
    apply (Hleft pre' (c_at :: d') (Some d') post'); [done|].
    apply Matches_dueRe. eauto. }
  split; [done|].
  rewrite Hs at 1. rewrite (replace_first _ _ _ []); [done|].
  intros pre' post' Heq. rewrite <- Hs in Heq.
  apply (Hleft pre' (m_0 m) (Some d) post'); [done|].
  apply Matches_dueRe. eauto.
Qed.

Lemma String_match_dueRe_None (input : jsstring) :
  String_match dueRe input = None -> ~ hasDueToken input.
Proof.
  intros H (pre & d & post & Hin & Hd).
  apply (String_match_None _ _ H pre (c_at :: d) (Some d) post); [done|].
  apply Matches_dueRe. eauto.
Qed.

Lemma firstDueToken_unique (input pre d post pre' d' post' : jsstring) :
  firstDueToken input pre d post -> firstDueToken input pre' d' post' ->
  pre = pre' /\ d = d' /\ post = post'.
Proof.
  intros (Hin & Hd & Hmin) (Hin' & Hd' & Hmin').
  assert (Hlen : length pre = length pre').
  { pose proof (Hmin _ _ _ Hin' Hd'). pose proof (Hmin' _ _ _ Hin Hd). lia. }
  rewrite Hin in Hin'. apply app_inj_1 in Hin' as [-> Heq]; [|done].
  injection Heq as Heq. apply app_inj_1 in Heq as [-> ->]; [done|].
  by rewrite !dateShaped_length.
Qed.

Lemma firstDueToken_match (input pre d post : jsstring) :
  firstDueToken input pre d post ->
  String_match dueRe input = Some (mkMatch pre (c_at :: d) (Some d) post).
Proof.
  intros Hf. destruct (String_match dueRe input) as [m|] eqn:Hm.
  - apply String_match_dueRe in Hm as (d' & H0 & H1 & Hf' & _).
    destruct (firstDueToken_unique _ _ _ _ _ _ _ Hf Hf') as (-> & -> & ->).
    destruct m; simpl in *. by subst.
  - exfalso. apply String_match_dueRe_None in Hm. apply Hm.
    destruct Hf as (Hin & Hd & _). by exists pre, d, post.
Qed.

Lemma titleAfterDue_token (input pre d post : jsstring) :
  firstDueToken input pre d post -> titleAfterDue input = pre ++ post.
Proof.
  intros Hf. unfold titleAfterDue.
  pose proof (firstDueToken_match _ _ _ _ Hf) as Hm. rewrite Hm.
  apply String_match_dueRe in Hm as (_ & _ & _ & _ & Hr). exact Hr.
Qed.

(** [parseInput] in terms of its two steps. *)
Lemma parseInput_steps (input : jsstring) :
  Board.parseInput input =
  mkParsed (trim (titleAfterPriority input (titleAfterDue input)))
           (match String_match dueRe input with Some m => m_1 m | None => None end)
           (match String_match priRe input with
            | Some m => priorityOfCount (length (m_0 m))
            | None => None
            end).
Proof.
  unfold Board.parseInput, titleAfterPriority, titleAfterDue.
  destruct (String_match dueRe input); destruct (String_match priRe input); reflexivity.
Qed.

(** ** The priority step *)

Lemma dropWhile_notBang_app (pre s : jsstring) :
  forallb notBang pre = true ->
  dropWhile notBang (pre ++ s) = dropWhile notBang s.
Proof.
  induction pre as [|c pre IH]; simpl; [done|].
  intros [Hc Hpre]%andb_prop. rewrite Hc. auto.
Qed.

Lemma takeWhile_notBang_app (pre s : jsstring) :
  forallb notBang pre = true ->
  takeWhile notBang (pre ++ s) = pre ++ takeWhile notBang s.
Proof.
  induction pre as [|c pre IH]; simpl; [done|].
  intros [Hc Hpre]%andb_prop. rewrite Hc. f_equal. auto.
Qed.

Lemma firstRun_app (pre s : jsstring) :
  forallb notBang pre = true -> firstRun (pre ++ s) = firstRun s.
Proof. intros H. unfold firstRun. by rewrite dropWhile_notBang_app. Qed.

Lemma firstRun_cons (c : char16) (s : jsstring) :
  firstRun (c :: s) = if isBang c then c :: takeWhile isBang s else firstRun s.
Proof.
  unfold firstRun. rewrite dropWhile_notBang_cons.
  destruct (isBang c) eqn:Hc; [|done]. simpl. by rewrite Hc.
Qed.

Lemma takeWhile_isBang_skip (b tok after : jsstring) :
  startsWithBang tok = false -> tok <> [] ->
  takeWhile isBang (b ++ after) =
  takeWhile isBang (b ++ tok ++ after)
  ++ (if forallb isBang b then takeWhile isBang after else []).
Proof.
  intros Htok Hne. induction b as [|c b IH]; simpl.
  - destruct tok as [|t tok]; [done|]. simpl in *. by rewrite Htok.
  - destruct (isBang c); simpl; [by rewrite IH | done].
Qed.

Lemma takeWhile_isBang_nil (s : jsstring) :
  startsWithBang s = false -> takeWhile isBang s = [].
Proof. destruct s; simpl; [done|]. by intros ->. Qed.

Lemma takeWhile_isBang_cons (s : jsstring) :
  startsWithBang s = true -> takeWhile isBang s <> [].
Proof. destruct s; simpl; [done|]. by intros ->. Qed.

Lemma runToEnd_cons (c : char16) (b : jsstring) :
  runToEnd (c :: b) = if isBang c then forallb isBang b else runToEnd b.
Proof.
  unfold runToEnd. rewrite dropWhile_notBang_cons.
  destruct (isBang c) eqn:Hc; [|done]. simpl. by rewrite Hc.
Qed.

(** Taking a text without [!] out of [input] can only lengthen the first
    run: the run grows exactly when it ended where the text started and a
    [!] followed the text. *)
Lemma firstRun_remove (before tok after : jsstring) :
  forallb notBang tok = true -> tok <> [] ->
  firstRun (before ++ after)
  = firstRun (before ++ tok ++ after)
    ++ (if runToEnd before then takeWhile isBang after else []).
Proof.
  intros Htok Hne.
  assert (Hst : startsWithBang tok = false).
  { destruct tok as [|t tok]; [done|]. simpl in *.
    apply andb_prop in Htok as [Ht _]. unfold notBang in Ht.
    by destruct (isBang t). }
  induction before as [|c b IH].
  - simpl. rewrite firstRun_app by done. by rewrite app_nil_r.
  - simpl. rewrite !firstRun_cons, runToEnd_cons. destruct (isBang c) eqn:Hc.
    + by rewrite (takeWhile_isBang_skip b tok after).
    + exact IH.
Qed.

Lemma firstRun_split (s : jsstring) :
  s = takeWhile notBang s ++ firstRun s ++ dropWhile isBang (dropWhile notBang s).
Proof. unfold firstRun. by rewrite !takeWhile_dropWhile. Qed.

Lemma replace_run (pre run post : jsstring) :
  forallb notBang pre = true -> startsWithBang run = true ->
  replace (pre ++ run ++ post) run [] = pre ++ post.
Proof.
  intros Hpre Hrun. induction pre as [|c pre IH]; rewrite replace_eq.
  - simpl. assert (Hs : startsWith run (run ++ post) = true)
      by (apply startsWith_spec; eauto).
    rewrite Hs. by rewrite drop_app_length.
  - simpl in Hpre. apply andb_prop in Hpre as [Hc Hpre].
    destruct (startsWith run ((c :: pre) ++ run ++ post)) eqn:Hs.
    + apply startsWith_spec in Hs as [rest Hs].
      destruct run as [|r run]; [done|]. simpl in Hs, Hrun.
      injection Hs as -> _. unfold notBang in Hc. by rewrite Hrun in Hc.
    + simpl. f_equal. auto.
Qed.

Lemma firstRun_replicate (pre post : jsstring) (k : nat) :
  forallb notBang pre = true -> (1 <= k)%nat -> startsWithBang post = false ->
  firstRun (pre ++ replicate k c_bang ++ post) = replicate k c_bang.
Proof.
  intros Hpre Hk Hpost. rewrite firstRun_app by done.
  destruct k as [|k]; [lia|]. simpl. rewrite firstRun_cons.
  change (isBang c_bang) with true. cbv iota. f_equal.
  clear Hk. induction k as [|k IH]; simpl.
  - by apply takeWhile_isBang_nil.
  - change (isBang c_bang) with true. cbv iota. by f_equal.
Qed.

Lemma priorityOfCount_run (k : nat) :
  (1 <= k)%nat -> priorityOfCount k = Some (priorityOfRun k).
Proof.
  intros Hk. destruct k as [|[|[|k]]]; [lia|reflexivity..].
Qed.

Lemma titleAfterDue_split (input : jsstring) :
  exists extra,
    firstRun (titleAfterDue input) = firstRun input ++ extra
    /\ (dueSplitsRun input = false -> extra = [])
    /\ (dueSplitsRun input = true -> extra <> []).
Proof.
  unfold titleAfterDue, dueSplitsRun.
  destruct (String_match dueRe input) as [m|] eqn:Hm.
  - apply String_match_dueRe in Hm as (d & H0 & _ & (Hin & Hd & _) & ->).
    rewrite Hin.
    change (c_at :: d ++ m_after m) with ((c_at :: d) ++ m_after m).
    rewrite (firstRun_remove (m_before m) (c_at :: d) (m_after m));
      [| simpl; by rewrite dateShaped_no_bang | done].
    eexists. split; [reflexivity|].
    destruct (runToEnd (m_before m)); simpl; [|done].
    split.
    + by apply takeWhile_isBang_nil.
    + by apply takeWhile_isBang_cons.
  - exists []. by rewrite app_nil_r.
Qed.

Lemma titleAfterPriority_run (input : jsstring) :
  firstRun input <> [] ->
  exists pre' post',
    titleAfterDue input = pre' ++ firstRun input ++ post'
    /\ forallb notBang pre' = true
    /\ titleAfterPriority input (titleAfterDue input) = pre' ++ post'.
Proof.
  intros Hrun. destruct (titleAfterDue_split input) as (extra & Hext & _ & _).
  pose proof (firstRun_split (titleAfterDue input)) as Hsplit.
  rewrite Hext, <- app_assoc in Hsplit.
  eexists _, _. split; [exact Hsplit|]. split; [apply takeWhile_forallb|].
  unfold titleAfterPriority. rewrite String_match_priRe.
  destruct (firstRun input) as [|c r] eqn:Hr; [done|]. cbn [m_0].
  rewrite Hsplit at 1. apply replace_run; [apply takeWhile_forallb|].
  pose proof (firstRun_forallb input) as Hall. rewrite Hr in Hall.
  simpl in *. by apply andb_prop in Hall as [? _].
Qed.

(** ** Counting marks *)

Lemma countBang_app (a b : jsstring) : countBang (a ++ b) = (countBang a + countBang b)%nat.
Proof. unfold countBang. by rewrite List.filter_app, length_app. Qed.

Lemma countBang_rev (s : jsstring) : countBang (rev s) = countBang s.
Proof.
  induction s as [|c s IH]; [done|]. simpl. rewrite countBang_app, IH.
  unfold countBang. simpl. destruct (isBang c); simpl; lia.
Qed.

Lemma isWhiteSpace_notBang (c : char16) : isWhiteSpace c = true -> isBang c = false.
Proof.
  unfold isBang, isChar, c_bang. destruct (N.eqb_spec 33 c) as [<-|]; [|done].
  discriminate.
Qed.

Lemma countBang_dropWhile (s : jsstring) :
  countBang (dropWhile isWhiteSpace s) = countBang s.
Proof.
  induction s as [|c s IH]; [done|]. simpl.
  destruct (isWhiteSpace c) eqn:Hc; [|done].
  rewrite IH. unfold countBang. simpl. by rewrite (isWhiteSpace_notBang c Hc).
Qed.

Lemma countBang_trim (s : jsstring) : countBang (trim s) = countBang s.
Proof.
  unfold trim, trimEnd, trimStart.
  by rewrite countBang_rev, countBang_dropWhile, countBang_rev, countBang_dropWhile.
Qed.

Lemma countBang_all (s : jsstring) : forallb isBang s = true -> countBang s = length s.
Proof.
  unfold countBang. induction s as [|c s IH]; [done|]. simpl.
  intros [Hc Hs]%andb_prop. rewrite Hc. simpl. by rewrite IH.
Qed.

Lemma priorityOfCount_Some (k : nat) : (1 <= k)%nat -> priorityOfCount k <> None.
Proof. intros H. by rewrite priorityOfCount_run. Qed.

(** When the due token splits a run, the two orders disagree. *)
Lemma split_run_differs (input : jsstring) :
  dueSplitsRun input = true ->
  Board.parseInput input <> parseQuickAdd_dueFirst input.
Proof.
  intros Hsplit.
  destruct (titleAfterDue_split input) as (extra & Hrun & _ & Hextra).
  specialize (Hextra Hsplit).
  pose proof (firstRun_split (titleAfterDue input)) as HT.
  pose proof (firstRun_forallb (titleAfterDue input)) as Hall.
  rewrite Hrun in HT, Hall. rewrite forallb_app in Hall.
  apply andb_prop in Hall as [HallR HallE].
  assert (Heq : parseQuickAdd_dueFirst input =
    mkParsed (trim (match String_match priRe (titleAfterDue input) with
                    | Some m => replace (titleAfterDue input) (m_0 m) []
                    | None => titleAfterDue input
                    end))
             (match String_match dueRe input with Some m => m_1 m | None => None end)
             (match String_match priRe (titleAfterDue input) with
              | Some m => priorityOfCount (length (m_0 m))
              | None => None
              end)).
  { unfold parseQuickAdd_dueFirst, titleAfterDue.
    destruct (String_match dueRe input);
      destruct (String_match priRe _); reflexivity. }
  rewrite Heq, parseInput_steps. unfold titleAfterPriority.
  rewrite !String_match_priRe, Hrun.
  set (pre := takeWhile notBang (titleAfterDue input)) in *.
  set (rest := dropWhile isBang (dropWhile notBang (titleAfterDue input))) in *.
  assert (Hpre : forallb notBang pre = true) by apply takeWhile_forallb.
  destruct (firstRun input) as [|c R] eqn:HR.
  - simpl app. destruct extra as [|e extra]; [done|].
    cbn [m_0]. intros [= _ Hp]. symmetry in Hp.
    by apply priorityOfCount_Some in Hp; [|simpl; lia].
  - destruct extra as [|e extra]; [done|].
    cbn [app m_0]. intros [= Htitle _].
    assert (HbR : startsWithBang (c :: R) = true)
      by (simpl in HallR; by apply andb_prop in HallR as [? _]).
    assert (H1 : replace (pre ++ c :: (R ++ e :: extra) ++ rest) (c :: R) []
                 = pre ++ (e :: extra) ++ rest).
    { change (pre ++ c :: (R ++ e :: extra) ++ rest)
        with (pre ++ ((c :: R) ++ e :: extra) ++ rest).
      rewrite <- (app_assoc (c :: R)). by apply replace_run. }
    assert (H2 : replace (pre ++ c :: (R ++ e :: extra) ++ rest)
                         (c :: R ++ e :: extra) []
                 = pre ++ rest).
    { change (pre ++ c :: (R ++ e :: extra) ++ rest)
        with (pre ++ (c :: R ++ e :: extra) ++ rest).
      by apply replace_run. }
    apply (f_equal countBang) in Htitle. rewrite !countBang_trim in Htitle.
    cbn [app] in HT, Htitle. rewrite HT, H1, H2 in Htitle.
    rewrite !countBang_app, (countBang_all (e :: extra)) in Htitle by done.
    simpl in Htitle. lia.
Qed.

Example parse_ship_report :
  Board.parseInput (js "Ship report @2024-03-05 !!")
  = mkParsed (js "Ship report") (Some (js "2024-03-05")) (Some s_medium).
Proof. vm_compute. reflexivity. Qed.

Example parse_buy_milk :
  Board.parseInput (js "Buy milk !") = mkParsed (js "Buy milk") None (Some s_high).
Proof. vm_compute. reflexivity. Qed.

Example parse_between :
  Board.parseInput (js "!@2024-01-01!") = mkParsed (js "!") (Some (js "2024-01-01")) (Some s_high).
Proof. vm_compute. reflexivity. Qed.

(** ** What the parser guarantees *)

Lemma App_parseInput_eq : App.parseInput = Board.parseInput.
Proof. reflexivity. Qed.

Lemma isParseInput_Board (parse : jsstring -> Parsed) :
  isParseInput parse -> parse = Board.parseInput.
Proof. intros [-> | ->]; reflexivity. Qed.

(** C3. The due date is the date text of the first [@YYYY-MM-DD] token of
    the input, where the year starts with 19 or 20, the month is two digits
    of which the first is 0 or 1 and the day two digits of which the first
    is 0 to 3: it is captured as written, the token is taken out of the
    title, and an input without such a token has no due date.  No calendar
    check is made: "2024-02-30" is captured unchanged. *)
Theorem due_is_first_token (parse : jsstring -> Parsed) (input : jsstring) :
  isParseInput parse ->
  (forall pre d post, firstDueToken input pre d post ->
     p_due (parse input) = Some d
     /\ titleAfterDue input = pre ++ post
     /\ p_title (parse input) = trim (titleAfterPriority input (pre ++ post)))
  /\ (hasDueToken input -> exists pre d post, firstDueToken input pre d post)
  /\ (~ hasDueToken input ->
      p_due (parse input) = None /\ titleAfterDue input = input)
  /\ parse (js "Pay rent @2024-02-30")
     = mkParsed (js "Pay rent") (Some (js "2024-02-30")) None.
Proof.
  intros ->%isParseInput_Board. rewrite parseInput_steps. cbn [p_due p_title].
  split; [|split; [|split]].
  - intros pre d post Hf. rewrite <- (titleAfterDue_token _ _ _ _ Hf).
    by rewrite (firstDueToken_match _ _ _ _ Hf).
  - intros Hhas. destruct (String_match dueRe input) as [m|] eqn:Hm.
    + apply String_match_dueRe in Hm as (d & _ & _ & Hf & _). eauto.
    + by apply String_match_dueRe_None in Hm.
  - intros Hno. unfold titleAfterDue.
    destruct (String_match dueRe input) as [m|] eqn:Hm; [|done].
    exfalso. apply Hno.
    apply String_match_dueRe in Hm as (d & _ & _ & (Hin & Hd & _) & _).
    by exists (m_before m), d, (m_after m).
  - vm_compute. reflexivity.
Qed.

Lemma firstDueToken_ship_report :
  firstDueToken (js "Ship report @2024-03-05 !!")
                (js "Ship report ") (js "2024-03-05") (js " !!").
Proof.
  assert (Hm : String_match dueRe (js "Ship report @2024-03-05 !!")
               = Some (mkMatch (js "Ship report ") (js "@2024-03-05")
                               (Some (js "2024-03-05")) (js " !!")))
    by (vm_compute; reflexivity).
  apply String_match_dueRe in Hm as (d & H0 & _ & Hf & _).
  injection H0 as <-. exact Hf.
Qed.

Lemma due_is_first_token_witness :
  p_due (Board.parseInput (js "Ship report @2024-03-05 !!")) = Some (js "2024-03-05")
  /\ p_title (Board.parseInput (js "Ship report @2024-03-05 !!")) = js "Ship report".
Proof.
  destruct (due_is_first_token Board.parseInput (js "Ship report @2024-03-05 !!")
              (or_introl eq_refl)) as (H & _).
  destruct (H _ _ _ firstDueToken_ship_report) as (Hdue & _ & Htitle).
  split; [exact Hdue|]. rewrite Htitle. vm_compute. reflexivity.
Defined.

(** C6 as stated fails: with the due token between two marks the scripts
    find the run "!" in the input and leave one mark in the title, while
    searching after the removal finds the run "!!". *)
Lemma bangs_around_due_counterexample :
  Board.parseInput (js "!@2024-01-01!")
  = mkParsed (js "!") (Some (js "2024-01-01")) (Some s_high)
  /\ parseQuickAdd_dueFirst (js "!@2024-01-01!")
     = mkParsed [] (Some (js "2024-01-01")) (Some s_medium)
  /\ Board.parseInput (js "!@2024-01-01!") <> parseQuickAdd_dueFirst (js "!@2024-01-01!").
Proof. vm_compute. repeat split; discriminate. Qed.

(** C6, amended.  The priority run is searched in the input as typed, not
    in the title left by the due-date step.  The result is the one of
    removing the due token first and searching the run afterwards in every
    case but one: when the first run of [!] ends where the due token starts
    and a [!] follows the token, the marks after the token are not counted
    and stay in the title. *)
Theorem due_first_order (parse : jsstring -> Parsed) (input : jsstring) :
  isParseInput parse ->
  (parse input = parseQuickAdd_dueFirst input <-> dueSplitsRun input = false).
Proof.
  intros ->%isParseInput_Board. split.
  - intros Heq. destruct (dueSplitsRun input) eqn:Hs; [|done].
    by apply split_run_differs in Hs.
  - intros Hcond.
    destruct (titleAfterDue_split input) as (extra & Hrun & Hextra & _).
    rewrite (Hextra Hcond), app_nil_r in Hrun.
    unfold Board.parseInput, parseQuickAdd_dueFirst, titleAfterDue in *.
    destruct (String_match dueRe input) as [m|]; [|reflexivity].
    rewrite !String_match_priRe, Hrun.
    by destruct (firstRun input).
Qed.

Lemma due_first_order_witness :
  Board.parseInput (js "Ship report @2024-03-05 !!")
  = parseQuickAdd_dueFirst (js "Ship report @2024-03-05 !!").
Proof.
  apply (due_first_order Board.parseInput); [by left | vm_compute; reflexivity].
Defined.

(** C7. Only the first run of [!] counts: a run of one mark gives high, of
    two medium, of three or more low; exactly the marks of that run leave
    the title, and whatever follows them, later runs included, stays.  An
    input without [!] has no priority. *)
Theorem priority_is_first_run (parse : jsstring -> Parsed) (input : jsstring) :
  isParseInput parse ->
  (forall pre k post,
     input = pre ++ replicate k c_bang ++ post ->
     forallb notBang pre = true -> (1 <= k)%nat -> startsWithBang post = false ->
     p_priority (parse input) = Some (priorityOfRun k)
     /\ (exists pre' post',
           titleAfterDue input = pre' ++ replicate k c_bang ++ post'
           /\ forallb notBang pre' = true
           /\ p_title (parse input) = trim (pre' ++ post'))
     /\ (p_due (parse input) = None -> p_title (parse input) = trim (pre ++ post)))
  /\ (forallb notBang input = true ->
      p_priority (parse input) = None
      /\ p_title (parse input) = trim (titleAfterDue input))
  /\ parse (js "Buy milk !") = mkParsed (js "Buy milk") None (Some s_high)
  /\ parse (js "Fix bug !! now !!!") = mkParsed (js "Fix bug  now !!!") None (Some s_medium).
Proof.
  intros ->%isParseInput_Board. split; [|split; [|split]].
  - intros pre k post Hin Hpre Hk Hpost.
    assert (Hrun : firstRun input = replicate k c_bang)
      by (rewrite Hin; by apply firstRun_replicate).
    assert (Hne : firstRun input <> [])
      by (rewrite Hrun; destruct k; [lia | discriminate]).
    rewrite parseInput_steps. cbn [p_due p_title p_priority].
    split; [|split].
    + rewrite String_match_priRe. destruct (firstRun input) eqn:Hr; [done|].
      cbn [m_0]. rewrite Hrun, length_replicate. by apply priorityOfCount_run.
    + destruct (titleAfterPriority_run input Hne) as (pre' & post' & HT & Hpre' & Htitle).
      exists pre', post'. by rewrite Htitle, <- Hrun.
    + intros Hdue. unfold titleAfterDue.
      destruct (String_match dueRe input) as [m|] eqn:Hm.
      * apply String_match_dueRe in Hm as (d & _ & H1 & _). congruence.
      * unfold titleAfterPriority. rewrite String_match_priRe.
        destruct (firstRun input) eqn:Hr; [done|]. cbn [m_0].
        rewrite Hrun, Hin. f_equal. apply replace_run; [done|].
        destruct k; [lia | reflexivity].
  - intros Hno. rewrite parseInput_steps. cbn [p_title p_priority].
    assert (Hrun : firstRun input = []).
    { rewrite <- (app_nil_r input). by rewrite firstRun_app. }
    unfold titleAfterPriority. rewrite String_match_priRe, Hrun. done.
  - vm_compute. reflexivity.
  - vm_compute. reflexivity.
Qed.

Lemma priority_is_first_run_witness :
  p_priority (Board.parseInput (js "Call Ann !!! today !")) = Some s_low
  /\ p_title (Board.parseInput (js "Call Ann !!! today !")) = js "Call Ann  today !".
Proof.
  destruct (priority_is_first_run Board.parseInput (js "Call Ann !!! today !")
              (or_introl eq_refl)) as (H & _).
  destruct (H (js "Call Ann ") 3%nat (js " today !") eq_refl eq_refl ltac:(lia) eq_refl)
    as (Hp & _ & Ht).
  split; [exact Hp|]. rewrite Ht; reflexivity.
Defined.

(** C10. The two scripts parse every input alike: the same title, the same
    due date and the same priority. *)
Theorem parseInput_scripts_agree (input : jsstring) :
  Board.parseInput input = App.parseInput input
  /\ p_title (Board.parseInput input) = p_title (App.parseInput input)
  /\ p_due (Board.parseInput input) = p_due (App.parseInput input)
  /\ p_priority (Board.parseInput input) = p_priority (App.parseInput input).
Proof.
  assert (H : Board.parseInput input = App.parseInput input).
  { unfold Board.parseInput, App.parseInput.
    destruct (String_match dueRe input), (String_match priRe input); reflexivity. }
  rewrite H. auto.
Qed.

(** ** Numbers *)

Lemma charsUint_uintChars (u : Decimal.uint) : charsUint (uintChars u) = u.
Proof. induction u; simpl; congruence. Qed.

Lemma uintChars_digits (u : Decimal.uint) : forallb isDigit (uintChars u) = true.
Proof. induction u; simpl; auto. Qed.

Lemma takeWhile_app_all {A} (p : A -> bool) (l rest : list A) :
  forallb p l = true -> takeWhile p (l ++ rest) = l ++ takeWhile p rest.
Proof.
  induction l as [|x l IH]; simpl; [done|].
  intros [Hx Hl]%andb_prop. rewrite Hx. f_equal. auto.
Qed.

Lemma dropWhile_app_all {A} (p : A -> bool) (l rest : list A) :
  forallb p l = true -> dropWhile p (l ++ rest) = dropWhile p rest.
Proof.
  induction l as [|x l IH]; simpl; [done|].
  intros [Hx Hl]%andb_prop. rewrite Hx. auto.
Qed.


Lemma numEnd_digits (rest : jsstring) :
  numEnd rest = true ->
  takeWhile isDigit rest = [] /\ dropWhile isDigit rest = rest.
Proof.
  destruct rest as [|c rest]; simpl; [done|].
  destruct (isDigit c); simpl; [discriminate | done].
Qed.

(** The decimal digits of a number: a single zero, or digits that start
    with one from 1 to 9. *)
Lemma to_uint_shape (n : N) :
  uintChars (N.to_uint n) = [48]
  \/ exists c ds, uintChars (N.to_uint n) = c :: ds
       /\ isDigit c = true /\ (c =? 48) = false /\ (c =? c_dash) = false
       /\ (c =? 43) = false.
Proof.
  assert (Hn : N.to_uint n = Decimal.unorm (N.to_uint n)).
  { rewrite <- (DecimalN.Unsigned.to_of (N.to_uint n)).
    by rewrite DecimalN.Unsigned.of_to. }
  destruct (Decimal.nzhead (N.to_uint n)) as [|u|u|u|u|u|u|u|u|u|u] eqn:Hh;
    [ left; rewrite Hn; unfold Decimal.unorm; by rewrite Hh
    | exfalso; by apply (DecimalFacts.nzhead_nonzero _ _ Hh)
    | right; rewrite Hn; unfold Decimal.unorm; rewrite Hh; simpl; eauto 10 .. ].
Qed.

Lemma digitsValue_to_uint (n : N) :
  digitsValue (uintChars (N.to_uint n)) = Z.of_N n.
Proof.
  unfold digitsValue. by rewrite charsUint_uintChars, DecimalN.Unsigned.of_to.
Qed.

Lemma parseSign_print (z : Z) (rest : jsstring) :
  parseSign (Number_toString z ++ rest)
  = ((z <? 0)%Z, uintChars (N.to_uint (Z.abs_N z)) ++ rest).
Proof.
  unfold Number_toString. destruct (z <? 0)%Z; [reflexivity|]. simpl.
  destruct (to_uint_shape (Z.abs_N z)) as [-> | (c & ds & -> & _ & _ & Hc & _)];
    simpl; [done | by rewrite Hc].
Qed.

Lemma parseExpSign_print (z : Z) (rest : jsstring) :
  parseExpSign (Number_toString z ++ rest)
  = ((z <? 0)%Z, uintChars (N.to_uint (Z.abs_N z)) ++ rest).
Proof.
  unfold Number_toString. destruct (z <? 0)%Z; [reflexivity|]. simpl.
  destruct (to_uint_shape (Z.abs_N z)) as [-> | (c & ds & -> & _ & _ & Hc & Hp)];
    simpl; [done | by rewrite Hc, Hp].
Qed.

Lemma parseInt_print (n : N) (rest : jsstring) :
  takeWhile isDigit rest = [] ->
  parseInt (uintChars (N.to_uint n) ++ rest) = Some (uintChars (N.to_uint n), rest).
Proof.
  intros Hrest.
  assert (Hdrop : dropWhile isDigit rest = rest).
  { rewrite <- (takeWhile_dropWhile isDigit rest) at 2. by rewrite Hrest. }
  pose proof (uintChars_digits (N.to_uint n)) as Hd.
  destruct (to_uint_shape n) as [-> | (c & ds & Heq & Hc & H0 & _)].
  - reflexivity.
  - rewrite Heq in *. simpl in *. rewrite H0, Hc. rewrite Hc in Hd. simpl in Hd.
    rewrite takeWhile_app_all, dropWhile_app_all, Hrest, Hdrop, app_nil_r by done.
    reflexivity.
Qed.

Lemma uintChars_nonnil (n : N) : isNil (uintChars (N.to_uint n)) = false.
Proof.
  by destruct (to_uint_shape n) as [-> | (c & ds & -> & _)].
Qed.

Lemma signed_abs' (z : Z) : signed (z <? 0)%Z (Z.of_N (Z.abs_N z)) = z.
Proof. unfold signed. destruct (Z.ltb_spec z 0); lia. Qed.

Lemma parseExp_none (rest : jsstring) :
  numEnd rest = true -> parseExp rest = Some (0%Z, rest).
Proof.
  destruct rest as [|c rest]; simpl; [done|].
  intros H. apply negb_true_iff in H.
  destruct (isDigit c), (c =? 46), (c =? 101), (c =? 69); try discriminate.
  reflexivity.
Qed.

Lemma parseFrac_none (rest : jsstring) :
  numEnd rest = true -> parseFrac rest = Some ([], rest).
Proof.
  destruct rest as [|c rest]; simpl; [done|].
  intros H. apply negb_true_iff in H.
  destruct (isDigit c), (c =? 46); try discriminate. reflexivity.
Qed.

Lemma parseNumber_print (m e : Z) (rest : jsstring) :
  numEnd rest = true ->
  parseNumber (printNumber m e ++ rest) = Some (JNumber m e, rest).
Proof.
  intros Hrest. destruct (numEnd_digits _ Hrest) as [Htake Hdrop].
  unfold parseNumber, printNumber. destruct (Z.eqb_spec e 0) as [-> | He].
  - rewrite parseSign_print, parseInt_print by done. simpl.
    rewrite parseFrac_none by done. simpl.
    rewrite parseExp_none by done. simpl.
    by rewrite app_nil_r, digitsValue_to_uint, signed_abs'.
  - rewrite <- app_assoc. rewrite parseSign_print, parseInt_print by done.
    simpl. rewrite parseExpSign_print.
    pose proof (uintChars_digits (N.to_uint (Z.abs_N e))) as Hd.
    rewrite takeWhile_app_all, dropWhile_app_all, Htake, Hdrop, !app_nil_r by done.
    rewrite uintChars_nonnil. simpl.
    rewrite !digitsValue_to_uint, !signed_abs'.
    by rewrite Z.sub_0_r.
Qed.

(** ** Strings *)

Lemma hexValue_hexDigit (n : N) : n < 16 -> hexValue (hexDigit n) = Some n.
Proof.
  intros H. unfold hexValue, hexDigit, inRange.
  destruct (N.ltb_spec n 10).
  - replace (48 <=? 48 + n) with true by (symmetry; apply N.leb_le; lia).
    replace (48 + n <=? 57) with true by (symmetry; apply N.leb_le; lia).
    simpl. f_equal. lia.
  - replace (48 <=? 87 + n) with true by (symmetry; apply N.leb_le; lia).
    replace (87 + n <=? 57) with false by (symmetry; apply N.leb_gt; lia).
    replace (97 <=? 87 + n) with true by (symmetry; apply N.leb_le; lia).
    replace (87 + n <=? 102) with true by (symmetry; apply N.leb_le; lia).
    simpl. f_equal. lia.
Qed.


Lemma parseString_escape (c : char16) (t : jsstring) :
  c < 65536 ->
  parseString (unicodeEscape c ++ t) = parseCons c (parseString t).
Proof.
  intros Hc. unfold unicodeEscape.
  cbn [app parseString]. change (c_bslash =? c_quote) with false.
  change (c_bslash =? c_bslash) with true. cbv iota.
  change (117 =? c_quote) with false. change (117 =? c_bslash) with false.
  change (117 =? 47) with false. change (117 =? 98) with false.
  change (117 =? 102) with false. change (117 =? 110) with false.
  change (117 =? 114) with false. change (117 =? 116) with false.
  change (117 =? 117) with true. cbv iota.
  rewrite !hexValue_hexDigit by (apply N.mod_lt; lia).
  replace (((c / 4096 mod 16 * 16 + c / 256 mod 16) * 16 + c / 16 mod 16) * 16
           + c mod 16) with c; [reflexivity|].
  replace (c / 256) with (c / 16 / 16) by (by rewrite N.Div0.div_div).
  replace (c / 4096) with (c / 16 / 16 / 16) by (by rewrite !N.Div0.div_div).
  zify. Z.to_euclidean_division_equations. lia.
Qed.

Lemma parseString_literal (c : char16) (t : jsstring) :
  (c =? c_quote) = false -> (c =? c_bslash) = false -> (c <? 32) = false ->
  parseString (c :: t) = parseCons c (parseString t).
Proof. intros H1 H2 H3. simpl. by rewrite H1, H2, H3. Qed.

Lemma parseString_quoteChar (c : char16) (t : jsstring) :
  parseString (quoteChar c ++ t) = parseCons c (parseString t).
Proof.
  unfold quoteChar.
  destruct (N.eqb_spec c 8) as [-> | ?]; [reflexivity|].
  destruct (N.eqb_spec c 9) as [-> | ?]; [reflexivity|].
  destruct (N.eqb_spec c 10) as [-> | ?]; [reflexivity|].
  destruct (N.eqb_spec c 12) as [-> | ?]; [reflexivity|].
  destruct (N.eqb_spec c 13) as [-> | ?]; [reflexivity|].
  destruct (N.eqb_spec c c_quote) as [-> | Hq]; [reflexivity|].
  destruct (N.eqb_spec c c_bslash) as [-> | Hb]; [reflexivity|].
  destruct ((c <? 32) || isHighSurrogate c || isLowSurrogate c) eqn:He.
  - apply parseString_escape.
    unfold isHighSurrogate, isLowSurrogate, inRange in He.
    repeat match goal with
    | H : _ || _ = true |- _ => apply orb_prop in H as [H|H]
    | H : _ && _ = true |- _ => apply andb_prop in H as [? H]
    | H : (_ <? _) = true |- _ => apply N.ltb_lt in H
    | H : (_ <=? _) = true |- _ => apply N.leb_le in H
    end; lia.
  - apply orb_false_elim in He as [He _]. apply orb_false_elim in He as [He _].
    apply parseString_literal; [by apply N.eqb_neq..|done].
Qed.

Lemma surrogate_literal (c : char16) :
  55296 <= c ->
  (c =? c_quote) = false /\ (c =? c_bslash) = false /\ (c <? 32) = false.
Proof.
  intros H. unfold c_quote, c_bslash.
  repeat split; [apply N.eqb_neq; lia | apply N.eqb_neq; lia | apply N.ltb_ge; lia].
Qed.

Lemma parseCons_Some (c : char16) (s rest : jsstring) :
  parseCons c (Some (s, rest)) = Some (c :: s, rest).
Proof. reflexivity. Qed.

Lemma parseString_quoteChars (s rest : jsstring) :
  parseString (quoteChars s ++ c_quote :: rest) = Some (s, rest).
Proof.
  remember (length s) as n eqn:Hn. revert s Hn.
  induction n as [n IH] using lt_wf_ind. intros s ->.
  destruct s as [|c s]; [reflexivity|]. cbn [quoteChars].
  assert (Hone : parseString ((quoteChar c ++ quoteChars s) ++ c_quote :: rest)
                 = Some (c :: s, rest)).
  { rewrite <- app_assoc, parseString_quoteChar.
    rewrite (IH (length s)); [reflexivity | simpl; lia | reflexivity]. }
  destruct (isHighSurrogate c) eqn:Hh; [|exact Hone].
  destruct s as [|d s].
  - simpl in Hone. by rewrite app_nil_r in Hone.
  - destruct (isLowSurrogate d) eqn:Hl; [|exact Hone].
    unfold isHighSurrogate, isLowSurrogate, inRange in Hh, Hl.
    apply andb_prop in Hh as [Hh _]. apply andb_prop in Hl as [Hl _].
    apply N.leb_le in Hh, Hl.
    destruct (surrogate_literal c) as (? & ? & ?); [lia|].
    destruct (surrogate_literal d) as (? & ? & ?); [lia|].
    cbn [app]. rewrite !parseString_literal by done.
    rewrite (IH (length s)); [reflexivity | simpl; lia | reflexivity].
Qed.

Lemma parseString_quote (s rest : jsstring) :
  exists t, quote s ++ rest = c_quote :: t /\ parseString t = Some (s, rest).
Proof.
  exists (quoteChars s ++ c_quote :: rest). split.
  - unfold quote. simpl. by rewrite <- app_assoc.
  - apply parseString_quoteChars.
Qed.

(** ** Values *)



Lemma Number_toString_start (z : Z) :
  exists c t, Number_toString z = c :: t /\ ((c =? 45) || isDigit c) = true.
Proof.
  unfold Number_toString. destruct (z <? 0)%Z; simpl; [eauto|].
  destruct (to_uint_shape (Z.abs_N z)) as [-> | (c & ds & -> & Hc & _)]; [eauto|].
  exists c, ds. by rewrite Hc, orb_true_r.
Qed.

Lemma printNumber_start (m e : Z) :
  exists c t, printNumber m e = c :: t /\ ((c =? 45) || isDigit c) = true.
Proof.
  unfold printNumber. destruct (Number_toString_start m) as (c & t & -> & Hc).
  destruct (e =? 0)%Z; simpl; eauto.
Qed.

Lemma stringify_start (v : JSValue) (t : jsstring) :
  JSON_stringify v = Some t ->
  exists c t', t = c :: t' /\ valueStart c = true.
Proof.
  destruct v as [| |[]|m e|s|l|ps]; simpl; intros [= <-]; try (by eauto).
  destruct (printNumber_start m e) as (c & t & -> & Hc).
  exists c, t. split; [done|]. unfold valueStart.
  apply orb_prop in Hc as [-> | ->]; by rewrite ?orb_true_r.
Qed.

Lemma ser_start (x : JSValue) :
  exists c t', ser x = c :: t' /\ valueStart c = true.
Proof.
  unfold ser. destruct (JSON_stringify x) as [t|] eqn:Hx; simpl.
  - by eapply stringify_start.
  - by eauto.
Qed.

Lemma stringify_None (v : JSValue) : JSON_stringify v = None -> v = JUndefined.
Proof. by destruct v as [| |[]| | | |]. Qed.

Lemma valueStart_facts (c : char16) :
  valueStart c = true ->
  isJsonWs c = false /\ (c =? 93) = false /\ (c =? 125) = false.
Proof.
  unfold valueStart, isJsonWs, isDigit. intros H.
  repeat match goal with
  | H : _ || _ = true |- _ => apply orb_prop in H as [H|H]
  | H : _ && _ = true |- _ => apply andb_prop in H as [? H]
  | H : (_ =? _) = true |- _ => apply N.eqb_eq in H; subst
  | H : (_ <=? _) = true |- _ => apply N.leb_le in H
  end; try done.
  repeat split; repeat (apply orb_false_intro); apply N.eqb_neq; lia.
Qed.

Lemma skipWs_cons (c : char16) (s : jsstring) :
  isJsonWs c = false -> skipWs (c :: s) = c :: s.
Proof. intros H. unfold skipWs. simpl. by rewrite H. Qed.

Lemma valueEnd_facts (rest : jsstring) :
  valueEnd rest = true -> numEnd rest = true /\ skipWs rest = rest.
Proof.
  destruct rest as [|c rest]; simpl; [done|]. intros H.
  assert (Hc : c = 44 \/ c = 93 \/ c = 125).
  { repeat match goal with
    | H : _ || _ = true |- _ => apply orb_prop in H as [H|H]
    | H : (_ =? _) = true |- _ => apply N.eqb_eq in H
    end; auto. }
  destruct Hc as [-> | [-> | ->]]; done.
Qed.

Lemma parseValue_S (fuel : nat) (s : jsstring) :
  parseValue (S fuel) s =
  match skipWs s with
  | [] => None
  | c :: s1 =>
      if c =? c_quote then
        match parseString s1 with
        | Some (str, r) => Some (JString str, r)
        | None => None
        end
      else if c =? 91 then
        match skipWs s1 with
        | d :: r =>
            if d =? 93 then Some (JArray [], r)
            else match parseElements fuel s1 with
                 | Some (vs, r') => Some (JArray vs, r')
                 | None => None
                 end
        | [] => None
        end
      else if c =? 123 then
        match skipWs s1 with
        | d :: r =>
            if d =? 125 then Some (JObject [], r)
            else match parseMembers fuel s1 with
                 | Some (ms, r') => Some (JObject (mkObject ms), r')
                 | None => None
                 end
        | [] => None
        end
      else if startsWith (js "true") (c :: s1) then Some (JBool true, drop 4 (c :: s1))
      else if startsWith (js "false") (c :: s1) then Some (JBool false, drop 5 (c :: s1))
      else if startsWith (js "null") (c :: s1) then Some (JNull, drop 4 (c :: s1))
      else parseNumber (c :: s1)
  end.
Proof. reflexivity. Qed.

Lemma parseElements_S (fuel : nat) (s : jsstring) :
  parseElements (S fuel) s =
  match parseValue fuel s with
  | None => None
  | Some (v, r) =>
      match skipWs r with
      | c :: r1 =>
          if c =? 44 then
            match parseElements fuel r1 with
            | Some (vs, r2) => Some (v :: vs, r2)
            | None => None
            end
          else if c =? 93 then Some ([v], r1)
          else None
      | [] => None
      end
  end.
Proof. reflexivity. Qed.

Lemma parseMembers_S (fuel : nat) (s : jsstring) :
  parseMembers (S fuel) s =
  match skipWs s with
  | c :: s1 =>
      if c =? c_quote then
        match parseString s1 with
        | None => None
        | Some (k, r1) =>
            match skipWs r1 with
            | c2 :: r2 =>
                if c2 =? 58 then
                  match parseValue fuel r2 with
                  | None => None
                  | Some (v, r3) =>
                      match skipWs r3 with
                      | c3 :: r4 =>
                          if c3 =? 44 then
                            match parseMembers fuel r4 with
                            | Some (ms, r5) => Some ((k, v) :: ms, r5)
                            | None => None
                            end
                          else if c3 =? 125 then Some ([(k, v)], r4)
                          else None
                      | [] => None
                      end
                  end
                else None
            | [] => None
            end
        end
      else None
  | [] => None
  end.
Proof. reflexivity. Qed.

Lemma parseValue_number (fuel : nat) (c : char16) (s : jsstring) :
  ((c =? 45) || isDigit c) = true ->
  parseValue (S fuel) (c :: s) = parseNumber (c :: s).
Proof.
  intros Hc. rewrite parseValue_S.
  assert (H : 45 <= c <= 57).
  { unfold isDigit in Hc. apply orb_prop in Hc as [Hc|Hc].
    - apply N.eqb_eq in Hc. lia.
    - apply andb_prop in Hc as [H1 H2]. apply N.leb_le in H1, H2. lia. }
  rewrite skipWs_cons.
  2:{ unfold isJsonWs. repeat (apply orb_false_intro); apply N.eqb_neq; lia. }
  unfold c_quote.
  change (js "true") with [116; 114; 117; 101].
  change (js "false") with [102; 97; 108; 115; 101].
  change (js "null") with [110; 117; 108; 108].
  cbn [startsWith].
  repeat match goal with
  | |- context [?n =? c] => destruct (N.eqb_spec n c); [lia|]
  | |- context [c =? ?n] => destruct (N.eqb_spec c n); [lia|]
  end. reflexivity.
Qed.




Lemma joinComma_cons2 (a b : jsstring) (l : list jsstring) :
  joinComma (a :: b :: l) = a ++ 44 :: joinComma (b :: l).
Proof. reflexivity. Qed.

Lemma parseElements_print (l : list JSValue) :
  Forall ReadsBack l -> Forall uniqueKeys l -> l <> [] ->
  forall fuel rest,
    (costElems (map reload l) <= fuel)%nat ->
    parseElements fuel (joinComma (map ser l) ++ 93 :: rest)
    = Some (map reload l, rest).
Proof.
  induction l as [|x l IH]; [done|]. intros HP HU _ fuel rest Hfuel.
  apply Forall_cons in HP as [Hx HP]. apply Forall_cons in HU as [Ux HU].
  cbn [map costElems fold_right] in Hfuel. fold (costElems (map reload l)) in Hfuel.
  destruct fuel as [|fuel]; [lia|]. rewrite parseElements_S.
  destruct l as [|y l].
  - cbn [map joinComma]. rewrite (Hx Ux) by (done || lia).
    rewrite skipWs_cons by done. reflexivity.
  - cbn [map]. rewrite joinComma_cons2, <- app_assoc. cbn [app].
    rewrite (Hx Ux) by (done || lia). rewrite skipWs_cons by done.
    change (44 =? 44) with true. cbv iota.
    change (joinComma (ser y :: map ser l)) with (joinComma (map ser (y :: l))).
    rewrite IH; [reflexivity | done | done | done | ].
    cbn [map] in *. lia.
Qed.

Lemma printedMembers_nil (ps : list (jsstring * JSValue)) :
  printedMembers ps = [] -> reloadProps ps = [].
Proof.
  induction ps as [|[k v] ps IH]; [done|]. unfold printedMembers, reloadProps.
  cbn [omap list_omap fst snd].
  destruct (JSON_stringify v) eqn:Hv; cbn; [discriminate|].
  apply stringify_None in Hv as ->. exact IH.
Qed.

Lemma parseMembers_print (ps : list (jsstring * JSValue)) :
  Forall (fun p => ReadsBack (snd p)) ps ->
  Forall (fun p => uniqueKeys (snd p)) ps ->
  printedMembers ps <> [] ->
  forall fuel rest,
    (costProps (reloadProps ps) <= fuel)%nat ->
    parseMembers fuel (joinComma (printedMembers ps) ++ 125 :: rest)
    = Some (reloadProps ps, rest).
Proof.
  induction ps as [|[k v] ps IH]; [done|]. intros HP HU Hne fuel rest Hfuel.
  apply Forall_cons in HP as [Hv HP]. apply Forall_cons in HU as [Uv HU].
  cbn [fst snd] in Hv, Uv.
  unfold printedMembers, reloadProps in *. cbn [omap list_omap fst snd] in *.
  fold (printedMembers ps) in *. fold (reloadProps ps) in *.
  destruct (JSON_stringify v) as [t|] eqn:Ht.
  2:{ apply stringify_None in Ht as ->. cbn in *. by apply IH. }
  assert (Hser : ser v = t) by (unfold ser; by rewrite Ht).
  assert (Hr : (match v with
                | JUndefined => None
                | _ => Some (k, reload v)
                end : option (jsstring * JSValue)) = Some (k, reload v))
    by (destruct v; [discriminate Ht | done..]).
  rewrite Hr in *. cbn [option_map mbind option_bind] in *. clear Hr.
  cbn [costProps fold_right snd] in Hfuel. fold (costProps (reloadProps ps)) in Hfuel.
  destruct fuel as [|fuel]; [lia|]. rewrite parseMembers_S.
  destruct (parseString_quote k (58 :: t ++ 125 :: rest)) as (q & Hq & Hparse).
  destruct (printedMembers ps) as [|m ms] eqn:Hpm.
  - rewrite (printedMembers_nil _ Hpm). cbn [joinComma].
    rewrite <- app_assoc. cbn [app]. rewrite Hq.
    rewrite skipWs_cons by done. change (c_quote =? c_quote) with true. cbv iota.
    rewrite Hparse. rewrite skipWs_cons by done.
    change (58 =? 58) with true. cbv iota.
    rewrite <- Hser, (Hv Uv) by (done || lia).
    rewrite skipWs_cons by done. reflexivity.
  - rewrite joinComma_cons2, <- !app_assoc. cbn [app].
    destruct (parseString_quote k (58 :: t ++ 44 :: joinComma (m :: ms) ++ 125 :: rest))
      as (q' & Hq' & Hparse').
    cbn [app]. rewrite Hq'.
    rewrite skipWs_cons by done. change (c_quote =? c_quote) with true. cbv iota.
    rewrite Hparse'. rewrite skipWs_cons by done.
    change (58 =? 58) with true. cbv iota.
    rewrite <- Hser, (Hv Uv) by (done || lia).
    rewrite skipWs_cons by done. change (44 =? 44) with true. cbv iota.
    rewrite IH; [reflexivity | done | done | done | lia].
Qed.

Lemma setProp_fresh (ps : list (jsstring * JSValue)) (k : jsstring) (v : JSValue) :
  k ∉ map fst ps -> setProp ps k v = ps ++ [(k, v)].
Proof.
  induction ps as [|[k' v'] ps IH]; simpl; [done|]. intros Hk.
  apply not_elem_of_cons in Hk as [Hne Hk].
  destruct (decide (k' = k)); [congruence|]. by rewrite IH.
Qed.

Lemma mkObject_from (acc ms : list (jsstring * JSValue)) :
  NoDup (map fst (acc ++ ms)) ->
  fold_left (fun ps kv => setProp ps (fst kv) (snd kv)) ms acc = acc ++ ms.
Proof.
  revert acc. induction ms as [|[k v] ms IH]; intros acc Hnd; simpl.
  - by rewrite app_nil_r.
  - rewrite setProp_fresh.
    + rewrite IH; rewrite <- app_assoc; done.
    + rewrite map_app in Hnd. apply NoDup_app in Hnd as (_ & Hdis & _).
      intros Hin. apply (Hdis k Hin). simpl. left.
Qed.

Lemma mkObject_unique (ms : list (jsstring * JSValue)) :
  NoDup (map fst ms) -> mkObject ms = ms.
Proof. intros H. unfold mkObject. by rewrite mkObject_from. Qed.

Lemma reloadProps_keys (ps : list (jsstring * JSValue)) :
  NoDup (map fst ps) -> NoDup (map fst (reloadProps ps)).
Proof.
  induction ps as [|[k v] ps IH]; [done|]. simpl. intros Hnd.
  apply NoDup_cons in Hnd as [Hk Hnd]. unfold reloadProps.
  cbn [omap list_omap fst snd]. fold (reloadProps ps).
  assert (Hsub : forall x, x ∈ map fst (reloadProps ps) -> x ∈ map fst ps).
  { clear. induction ps as [|[k v] ps IH]; [done|]. intros x. unfold reloadProps.
    cbn [omap list_omap fst snd]. fold (reloadProps ps).
    destruct v; cbn; rewrite ?elem_of_cons; intros Hx;
      first [right; by apply IH | destruct Hx as [Hx|Hx]; [by left | right; by apply IH]]. }
  destruct v; cbn; auto; apply NoDup_cons; split; auto.
Qed.

Lemma uniqueKeys_array (l : list JSValue) :
  uniqueKeys (JArray l) -> Forall uniqueKeys l.
Proof.
  simpl. induction l as [|x l IH]; simpl; [constructor|].
  intros [Hx Hl]. constructor; auto.
Qed.

Lemma uniqueKeys_object (ps : list (jsstring * JSValue)) :
  uniqueKeys (JObject ps) ->
  NoDup (map fst ps) /\ Forall (fun p => uniqueKeys (snd p)) ps.
Proof.
  simpl. intros [Hnd H]. split; [done|].
  induction ps as [|p ps IH]; simpl in *; [constructor|].
  apply NoDup_cons in Hnd as [_ Hnd]. destruct H as [Hp H]. constructor; auto.
Qed.

Lemma ser_Some (v : JSValue) (t : jsstring) :
  JSON_stringify v = Some t -> ser v = t.
Proof. unfold ser. by intros ->. Qed.

Lemma readsBack_all (v : JSValue) : ReadsBack v.
Proof.
  induction v as [| |b|m e|s|l IH|ps IH] using JSValue_nested_ind;
    intros Hu fuel rest Hfuel Hrest;
    destruct (valueEnd_facts _ Hrest) as [Hnum Hskip];
    (destruct fuel as [|fuel]; [simpl in Hfuel; lia|]).
  - reflexivity.
  - reflexivity.
  - destruct b; reflexivity.
  - rewrite (ser_Some (JNumber m e) (printNumber m e) eq_refl). cbn [reload].
    destruct (printNumber_start m e) as (c & t & Heq & Hc).
    rewrite Heq. cbn [app]. rewrite parseValue_number by done.
    change (c :: t ++ rest) with ((c :: t) ++ rest). rewrite <- Heq.
    by apply parseNumber_print.
  - rewrite (ser_Some (JString s) (quote s) eq_refl). cbn [reload].
    destruct (parseString_quote s rest) as (q & Hq & Hparse).
    rewrite parseValue_S, Hq, skipWs_cons by done.
    change (c_quote =? c_quote) with true. cbv iota. by rewrite Hparse.
  - apply uniqueKeys_array in Hu.
    rewrite (ser_Some (JArray l) (91 :: joinComma (map ser l) ++ [93]) eq_refl).
    cbn [reload]. rewrite parseValue_S.
    cbn [app]. rewrite skipWs_cons by done.
    change (91 =? c_quote) with false. change (91 =? 91) with true. cbv iota.
    rewrite <- app_assoc. cbn [app].
    destruct l as [|x l]; [reflexivity|].
    assert (Hs : exists c t, joinComma (map ser (x :: l)) ++ 93 :: rest = c :: t
                             /\ valueStart c = true).
    { destruct (ser_start x) as (c & t & Hx & Hc). cbn [map].
      destruct (map ser l); cbn [joinComma]; rewrite Hx; cbn [app]; eauto. }
    destruct Hs as (c & t & Heq & Hc).
    destruct (valueStart_facts _ Hc) as (Hws & H93 & _).
    rewrite Heq at 1. rewrite skipWs_cons, H93 by done.
    rewrite parseElements_print; [reflexivity | done | done | done |].
    cbn [reload cost] in Hfuel. unfold costElems. lia.
  - apply uniqueKeys_object in Hu as [Hnd Hu].
    rewrite (ser_Some (JObject ps) (123 :: joinComma (printedMembers ps) ++ [125]) eq_refl).
    cbn [reload]. rewrite parseValue_S. fold (reloadProps ps).
    cbn [app]. rewrite skipWs_cons by done.
    change (123 =? c_quote) with false. change (123 =? 91) with false.
    change (123 =? 123) with true. cbv iota.
    rewrite <- app_assoc. cbn [app].
    destruct (printedMembers ps) as [|m ms] eqn:Hpm.
    { rewrite (printedMembers_nil _ Hpm). reflexivity. }
    assert (Hs : exists t, joinComma (m :: ms) ++ 125 :: rest = c_quote :: t).
    { assert (Hm : exists t, m = c_quote :: t).
      { clear -Hpm. induction ps as [|[k v] ps IH]; [done|].
        unfold printedMembers in Hpm. cbn [omap list_omap fst snd] in Hpm.
        destruct (JSON_stringify v); cbn in Hpm; [|by apply IH].
        injection Hpm as <- _. unfold quote. eauto. }
      destruct Hm as (t & ->). destruct ms; cbn [joinComma app]; eauto. }
    destruct Hs as (t & Heq). rewrite Heq at 1. rewrite skipWs_cons by done.
    change (c_quote =? 125) with false. cbv iota.
    rewrite <- Hpm, parseMembers_print; [| done | done | by rewrite Hpm |].
    + rewrite mkObject_unique; [reflexivity | by apply reloadProps_keys].
    + cbn [reload cost] in Hfuel. fold (reloadProps ps) in Hfuel.
      unfold costProps. lia.
Qed.

Lemma joinComma_length_cons (a : jsstring) (l : list jsstring) :
  (length a + length (joinComma l) <= length (joinComma (a :: l)))%nat
  /\ (l <> [] -> length (joinComma (a :: l)) = S (length a + length (joinComma l))).
Proof.
  destruct l as [|b l]; simpl.
  - split; [lia | done].
  - rewrite length_app. simpl. split; [lia | intros _; lia].
Qed.

Lemma costElems_bound (l : list JSValue) :
  Forall (fun x => (cost (reload x) <= 2 * length (ser x))%nat) l ->
  (costElems (map reload l) <= 2 * length (joinComma (map ser l)) + 1)%nat.
Proof.
  induction l as [|x l IH]; [simpl; lia|]. intros [Hx Hl]%Forall_cons.
  specialize (IH Hl). cbn [map costElems fold_right]. fold (costElems (map reload l)).
  destruct (joinComma_length_cons (ser x) (map ser l)) as [Hle Heq].
  destruct l as [|y l].
  - simpl in *. lia.
  - rewrite Heq by done. lia.
Qed.

Lemma costProps_bound (ps : list (jsstring * JSValue)) :
  Forall (fun p => (cost (reload (snd p)) <= 2 * length (ser (snd p)))%nat) ps ->
  (costProps (reloadProps ps) <= 2 * length (joinComma (printedMembers ps)) + 1)%nat.
Proof.
  induction ps as [|[k v] ps IH]; [simpl; lia|]. intros [Hv Hps]%Forall_cons.
  specialize (IH Hps). cbn [snd] in Hv.
  unfold printedMembers, reloadProps in *. cbn [omap list_omap fst snd].
  fold (printedMembers ps) in *. fold (reloadProps ps) in *.
  destruct (JSON_stringify v) as [t|] eqn:Ht.
  2:{ apply stringify_None in Ht as ->. exact IH. }
  rewrite (ser_Some _ _ Ht) in Hv.
  assert (Hr : (match v with
                | JUndefined => None
                | _ => Some (k, reload v)
                end : option (jsstring * JSValue)) = Some (k, reload v))
    by (destruct v; [discriminate Ht | done..]).
  rewrite Hr. cbn [option_map mbind option_bind costProps fold_right snd].
  fold (costProps (reloadProps ps)).
  destruct (joinComma_length_cons (quote k ++ 58 :: t) (printedMembers ps)) as [Hle Heq].
  destruct (printedMembers ps) as [|m ms] eqn:Hpm.
  - rewrite (printedMembers_nil _ Hpm) in *. cbn [joinComma costProps fold_right].
    rewrite length_app. cbn [length]. lia.
  - rewrite Heq by done. rewrite length_app. cbn [length]. lia.
Qed.

Lemma cost_bound (v : JSValue) : (cost (reload v) <= 2 * length (ser v))%nat.
Proof.
  induction v as [| |b|m e|s|l IH|ps IH] using JSValue_nested_ind.
  - simpl. lia.
  - simpl. lia.
  - destruct b; simpl; lia.
  - destruct (ser_start (JNumber m e)) as (c & t & -> & _). simpl. lia.
  - destruct (ser_start (JString s)) as (c & t & -> & _). simpl. lia.
  - rewrite (ser_Some (JArray l) (91 :: joinComma (map ser l) ++ [93]) eq_refl).
    cbn [reload cost length]. rewrite length_app. simpl.
    pose proof (costElems_bound l IH). unfold costElems in *. lia.
  - rewrite (ser_Some (JObject ps) (123 :: joinComma (printedMembers ps) ++ [125]) eq_refl).
    cbn [reload cost length]. rewrite length_app. simpl.
    pose proof (costProps_bound ps IH). unfold costProps, reloadProps in *. lia.
Qed.

(** Whatever [JSON.stringify] writes, [JSON.parse] reads back. *)
Lemma JSON_roundtrip (v : JSValue) (t : jsstring) :
  uniqueKeys v -> JSON_stringify v = Some t ->
  JSON_parse t = Normal (reload v).
Proof.
  intros Hu Ht. unfold JSON_parse. rewrite <- (ser_Some _ _ Ht).
  rewrite <- (app_nil_r (ser v)) at 2.
  rewrite (readsBack_all v Hu); [reflexivity | | reflexivity].
  pose proof (cost_bound v). lia.
Qed.

(** ** The fuel of the parser is enough

    Whatever the parser finds with some fuel it finds with twice the length
    of the text, so [JSON_parse] rejects a text only if no amount of fuel
    makes it readable. *)

Lemma dropWhile_length {A} (p : A -> bool) (l : list A) :
  (length (dropWhile p l) <= length l)%nat.
Proof. induction l as [|x l IH]; simpl; [lia|]. destruct (p x); simpl; lia. Qed.

Lemma skipWs_length (s : list N) : (length (skipWs s) <= length s)%nat.
Proof. apply dropWhile_length. Qed.

Lemma skipWs_cons_length (s s1 : list N) (c : N) :
  skipWs s = c :: s1 -> (length s1 < length s)%nat.
Proof. intros H. pose proof (skipWs_length s) as Hl. rewrite H in Hl. simpl in Hl. lia. Qed.

Lemma parseString_length (s str r : list N) :
  parseString s = Some (str, r) -> (length r < length s)%nat.
Proof.
  remember (length s) as n eqn:Hn. revert s str r Hn.
  induction n as [n IH] using lt_wf_ind. intros s str r -> H.
  destruct s as [|c s1]; [discriminate|]. cbn [parseString] in H.
  destruct (c =? c_quote); [injection H as <- <-; simpl; lia|].
  destruct (c =? c_bslash).
  - destruct s1 as [|e s2]; [discriminate|].
    assert (Hsimple : forall x,
      match parseString s2 with
      | Some (str0, r0) => Some (x :: str0, r0)
      | None => None
      end = Some (str, r) -> (length r < length (c :: e :: s2))%nat).
    { intros x Hx. destruct (parseString s2) as [[str0 r0]|] eqn:Hp; [|discriminate].
      injection Hx as <- <-.
      pose proof (IH (length s2) ltac:(simpl; lia) s2 _ _ eq_refl Hp). simpl. lia. }
    repeat (match type of H with
            | (if ?b then _ else _) = _ => destruct b; [by eapply Hsimple|]
            end).
    destruct (e =? 117); [|discriminate].
    destruct s2 as [|h1 [|h2 [|h3 [|h4 s3]]]]; try discriminate.
    destruct (hexValue h1), (hexValue h2), (hexValue h3), (hexValue h4); try discriminate.
    destruct (parseString s3) as [[str0 r0]|] eqn:Hp; [|discriminate].
    injection H as <- <-.
    pose proof (IH (length s3) ltac:(simpl; lia) s3 _ _ eq_refl Hp). simpl. lia.
  - destruct (c <? 32); [discriminate|].
    destruct (parseString s1) as [[str0 r0]|] eqn:Hp; [|discriminate].
    injection H as <- <-.
    pose proof (IH (length s1) ltac:(simpl; lia) s1 _ _ eq_refl Hp). simpl. lia.
Qed.

Lemma parseNumber_length (s r : list N) (v : JSValue) :
  parseNumber s = Some (v, r) -> (length r < length s)%nat.
Proof.
  unfold parseNumber.
  destruct (parseSign s) as [neg s1] eqn:Hs.
  assert (H1 : (length s1 <= length s)%nat).
  { unfold parseSign in Hs. destruct s as [|c s']; [by injection Hs as <- <-|].
    destruct (c =? c_dash); injection Hs as <- <-; simpl; lia. }
  destruct (parseInt s1) as [[int s2]|] eqn:Hi; [|discriminate]. simpl.
  assert (H2 : (length s2 < length s1)%nat).
  { unfold parseInt in Hi. destruct s1 as [|c s']; [discriminate|].
    destruct (c =? 48); [injection Hi as <- <-; simpl; lia|].
    destruct (isDigit c); [|discriminate]. injection Hi as <- <-.
    pose proof (dropWhile_length isDigit s'). simpl. lia. }
  destruct (parseFrac s2) as [[frac s3]|] eqn:Hf; [|discriminate]. simpl.
  assert (H3 : (length s3 <= length s2)%nat).
  { unfold parseFrac in Hf. destruct s2 as [|c s']; [by injection Hf as <- <-|].
    destruct (c =? 46); [|by injection Hf as <- <-].
    destruct (isNil _); [discriminate|]. injection Hf as <- <-.
    pose proof (dropWhile_length isDigit s'). simpl. lia. }
  destruct (parseExp s3) as [[ex s4]|] eqn:He; [|discriminate]. simpl.
  assert (H4 : (length s4 <= length s3)%nat).
  { unfold parseExp in He. destruct s3 as [|c s']; [by injection He as <- <-|].
    destruct (_ || _); [|by injection He as <- <-].
    destruct (parseExpSign s') as [eneg s5] eqn:Hes.
    assert (length s5 <= length s')%nat.
    { unfold parseExpSign in Hes. destruct s' as [|d s'']; [by injection Hes as <- <-|].
      destruct (d =? c_dash); [injection Hes as <- <-; simpl; lia|].
      destruct (d =? 43); injection Hes as <- <-; simpl; lia. }
    destruct (isNil _); [discriminate|]. injection He as <- <-.
    pose proof (dropWhile_length isDigit s5). simpl. lia. }
  intros [= <- <-]. lia.
Qed.

Lemma fuel_enough (f : nat) :
  (forall s v r, parseValue f s = Some (v, r) ->
     (length r < length s)%nat
     /\ forall f', (2 * (length s - length r) <= f')%nat ->
          parseValue f' s = Some (v, r))
  /\ (forall s vs r, parseElements f s = Some (vs, r) ->
        (length r < length s)%nat
        /\ forall f', (2 * (length s - length r) - 1 <= f')%nat ->
             parseElements f' s = Some (vs, r))
  /\ (forall s ms r, parseMembers f s = Some (ms, r) ->
        (length r < length s)%nat
        /\ forall f', (2 * (length s - length r) - 1 <= f')%nat ->
             parseMembers f' s = Some (ms, r)).
Proof.
  induction f as [|f (IHv & IHe & IHm)]; [by repeat split|].
  split; [|split].
  - intros s v r H. rewrite parseValue_S in H.
    destruct (skipWs s) as [|c s1] eqn:Hsk; [discriminate|].
    pose proof (skipWs_cons_length _ _ _ Hsk) as Hs1.
    destruct (c =? c_quote) eqn:Hq.
    { destruct (parseString s1) as [[str r']|] eqn:Hp; [|discriminate].
      injection H as <- <-. pose proof (parseString_length _ _ _ Hp).
      split; [lia|]. intros [|f'] Hf'; [lia|].
      by rewrite parseValue_S, Hsk, Hq, Hp. }
    destruct (c =? 91) eqn:Ha.
    { destruct (skipWs s1) as [|d r0] eqn:Hsk1; [discriminate|].
      pose proof (skipWs_cons_length _ _ _ Hsk1) as Hr0.
      destruct (d =? 93) eqn:Hd.
      - injection H as <- <-. split; [lia|]. intros [|f'] Hf'; [lia|].
        by rewrite parseValue_S, Hsk, Hq, Ha, Hsk1, Hd.
      - destruct (parseElements f s1) as [[vs r']|] eqn:Hp; [|discriminate].
        injection H as <- <-. destruct (IHe _ _ _ Hp) as [Hlen Hfuel].
        split; [lia|]. intros [|f'] Hf'; [lia|].
        rewrite parseValue_S, Hsk, Hq, Ha, Hsk1, Hd, Hfuel; [done | lia]. }
    destruct (c =? 123) eqn:Ho.
    { destruct (skipWs s1) as [|d r0] eqn:Hsk1; [discriminate|].
      pose proof (skipWs_cons_length _ _ _ Hsk1) as Hr0.
      destruct (d =? 125) eqn:Hd.
      - injection H as <- <-. split; [lia|]. intros [|f'] Hf'; [lia|].
        by rewrite parseValue_S, Hsk, Hq, Ha, Ho, Hsk1, Hd.
      - destruct (parseMembers f s1) as [[ms r']|] eqn:Hp; [|discriminate].
        injection H as <- <-. destruct (IHm _ _ _ Hp) as [Hlen Hfuel].
        split; [lia|]. intros [|f'] Hf'; [lia|].
        rewrite parseValue_S, Hsk, Hq, Ha, Ho, Hsk1, Hd, Hfuel; [done | lia]. }
    destruct (startsWith (js "true") (c :: s1)) eqn:Ht.
    { injection H as <- <-. rewrite length_drop. simpl.
      split; [lia|]. intros [|f'] Hf'; [lia|].
      by rewrite parseValue_S, Hsk, Hq, Ha, Ho, Ht. }
    destruct (startsWith (js "false") (c :: s1)) eqn:Hf.
    { injection H as <- <-. rewrite length_drop. simpl.
      split; [lia|]. intros [|f'] Hf'; [lia|].
      by rewrite parseValue_S, Hsk, Hq, Ha, Ho, Ht, Hf. }
    destruct (startsWith (js "null") (c :: s1)) eqn:Hn.
    { injection H as <- <-. rewrite length_drop. simpl.
      split; [lia|]. intros [|f'] Hf'; [lia|].
      by rewrite parseValue_S, Hsk, Hq, Ha, Ho, Ht, Hf, Hn. }
    pose proof (parseNumber_length _ _ _ H) as Hnum. simpl in Hnum.
    split; [lia|]. intros [|f'] Hf'; [lia|].
    by rewrite parseValue_S, Hsk, Hq, Ha, Ho, Ht, Hf, Hn.
  - intros s vs r H. rewrite parseElements_S in H.
    destruct (parseValue f s) as [[v r1]|] eqn:Hv; [|discriminate].
    destruct (IHv _ _ _ Hv) as [Hlen1 Hfuel1].
    destruct (skipWs r1) as [|c r2] eqn:Hsk; [discriminate|].
    pose proof (skipWs_cons_length _ _ _ Hsk) as Hr2.
    destruct (c =? 44) eqn:Hc.
    + destruct (parseElements f r2) as [[vs' r3]|] eqn:He; [|discriminate].
      injection H as <- <-. destruct (IHe _ _ _ He) as [Hlen3 Hfuel3].
      split; [lia|]. intros [|f'] Hf'; [lia|].
      rewrite parseElements_S, Hfuel1, Hsk, Hc, Hfuel3; [done | lia | lia].
    + destruct (c =? 93) eqn:Hd; [|discriminate].
      injection H as <- <-. split; [lia|]. intros [|f'] Hf'; [lia|].
      rewrite parseElements_S, Hfuel1, Hsk, Hc, Hd; [done | lia].
  - intros s ms r H. rewrite parseMembers_S in H.
    destruct (skipWs s) as [|c s1] eqn:Hsk; [discriminate|].
    pose proof (skipWs_cons_length _ _ _ Hsk) as Hs1.
    destruct (c =? c_quote) eqn:Hq; [|discriminate].
    destruct (parseString s1) as [[k r1]|] eqn:Hk; [|discriminate].
    pose proof (parseString_length _ _ _ Hk) as Hr1.
    destruct (skipWs r1) as [|c2 r2] eqn:Hsk1; [discriminate|].
    pose proof (skipWs_cons_length _ _ _ Hsk1) as Hr2.
    destruct (c2 =? 58) eqn:Hc2; [|discriminate].
    destruct (parseValue f r2) as [[v r3]|] eqn:Hv; [|discriminate].
    destruct (IHv _ _ _ Hv) as [Hlen3 Hfuel3].
    destruct (skipWs r3) as [|c3 r4] eqn:Hsk3; [discriminate|].
    pose proof (skipWs_cons_length _ _ _ Hsk3) as Hr4.
    destruct (c3 =? 44) eqn:Hc3.
    + destruct (parseMembers f r4) as [[ms' r5]|] eqn:Hm; [|discriminate].
      injection H as <- <-. destruct (IHm _ _ _ Hm) as [Hlen5 Hfuel5].
      split; [lia|]. intros [|f'] Hf'; [lia|].
      rewrite parseMembers_S, Hsk, Hq, Hk, Hsk1, Hc2, Hfuel3, Hsk3, Hc3, Hfuel5;
        [done | lia | lia].
    + destruct (c3 =? 125) eqn:Hd; [|discriminate].
      injection H as <- <-. split; [lia|]. intros [|f'] Hf'; [lia|].
      rewrite parseMembers_S, Hsk, Hq, Hk, Hsk1, Hc2, Hfuel3, Hsk3, Hc3, Hd;
        [done | lia].
Qed.

(** [JSON_parse] rejects a text only if the parser, with any fuel, fails or
    leaves something other than white space behind. *)
Lemma JSON_parse_complete (text : list N) (fuel : nat) (v : JSValue) (r : list N) :
  parseValue fuel text = Some (v, r) -> isNil (skipWs r) = true ->
  JSON_parse text = Normal v.
Proof.
  intros H Hr. destruct (fuel_enough fuel) as (Hv & _ & _).
  destruct (Hv _ _ _ H) as [Hlen Hfuel]. unfold JSON_parse.
  rewrite Hfuel by lia. by rewrite Hr.
Qed.

Lemma JSON_parse_throws (text : list N) (e : Error) :
  JSON_parse text = Throw e ->
  forall fuel v r, parseValue fuel text = Some (v, r) -> isNil (skipWs r) = false.
Proof.
  intros Hthrow fuel v r H. destruct (isNil (skipWs r)) eqn:Hr; [|done].
  by rewrite (JSON_parse_complete _ _ _ _ H Hr) in Hthrow.
Qed.

(** ** Persisting and loading *)

Lemma lookupProp_None (ps : list (jsstring * JSValue)) (k : jsstring) :
  k ∉ map fst ps -> lookupProp ps k = None.
Proof.
  induction ps as [|[k' v] ps IH]; simpl; [done|]. intros Hk.
  apply not_elem_of_cons in Hk as [Hne Hk].
  destruct (decide (k' = k)); [congruence | auto].
Qed.

Lemma reloadProps_subkeys (ps : list (jsstring * JSValue)) (k : jsstring) :
  k ∈ map fst (reloadProps ps) -> k ∈ map fst ps.
Proof.
  induction ps as [|[k' v] ps IH]; [done|]. unfold reloadProps.
  cbn [omap list_omap fst snd]. fold (reloadProps ps).
  destruct v; cbn; rewrite ?elem_of_cons; intros Hx;
    first [right; by apply IH | destruct Hx as [Hx|Hx]; [by left | right; by apply IH]].
Qed.

(** Reading a property after a reload gives what it gave before, for an
    object whose property values are strings, numbers and the like. *)
Lemma getProp_reload (ps : list (jsstring * JSValue)) (k : jsstring) :
  NoDup (map fst ps) ->
  Forall (fun p => reload (snd p) = snd p \/ snd p = JUndefined) ps ->
  getProp (reload (JObject ps)) k = getProp (JObject ps) k.
Proof.
  cbn [reload getProp]. fold (reloadProps ps).
  induction ps as [|[k' v] ps IH]; [done|].
  intros [Hk Hnd]%NoDup_cons [Hv Hps]%Forall_cons. cbn [fst snd] in *.
  unfold reloadProps. cbn [omap list_omap fst snd]. fold (reloadProps ps).
  destruct Hv as [Hv | ->].
  - assert (Hr : (match v with
                  | JUndefined => None
                  | _ => Some (k', reload v)
                  end : option (jsstring * JSValue)) = Some (k', v))
      by (destruct v; by rewrite ?Hv).
    rewrite Hr. cbn. destruct (decide (k' = k)); [done | by apply IH].
  - cbn. destruct (decide (k' = k)) as [-> | Hne]; [|by apply IH].
    rewrite lookupProp_None; [done|]. intros Hin. apply Hk.
    by apply reloadProps_subkeys.
Qed.

Lemma taskObject_keys (t : Task) : uniqueKeys (taskObject t).
Proof.
  simpl. split; [|by destruct (t_due t), (t_priority t), (t_status t), (t_owner t)].
  apply (bool_decide_unpack _). vm_compute. reflexivity.
Qed.

Lemma taskObject_reload (t : Task) (k : jsstring) :
  getProp (reload (taskObject t)) k = getProp (taskObject t) k.
Proof.
  unfold taskObject. apply getProp_reload.
  - apply (bool_decide_unpack _). vm_compute. reflexivity.
  - repeat (apply List.Forall_cons;
      [cbn [snd];
       first [ by left
             | match goal with
               | |- context [optString ?o] => destruct o; [by left | by right]
               end ] |]).
    apply List.Forall_nil.
Qed.

Lemma readTask_reload (t : Task) : readTask (reload (taskObject t)) = Some t.
Proof.
  unfold readTask. rewrite !taskObject_reload.
  destruct t as [id title due pri st own created].
  destruct due, pri, st, own; reflexivity.
Qed.

Lemma tasks_uniqueKeys (ts : list Task) : uniqueKeys (JArray (map taskObject ts)).
Proof.
  cbn [uniqueKeys]. induction ts as [|t ts IH]; [done|].
  cbn [map fold_right]. split; [apply taskObject_keys | exact IH].
Qed.

Lemma getItem_persistValue (v : JSValue) (storage : gmap (list N) (list N)) :
  getItem (persistValue v storage) tasksKey
  = Some (default (js "undefined") (JSON_stringify v)).
Proof. unfold getItem, persistValue, setItem. apply lookup_insert_eq. Qed.

Lemma load_persisted (v : JSValue) (storage : gmap (list N) (list N)) :
  uniqueKeys v -> v <> JUndefined ->
  loadTasks (persistValue v storage) = Normal (reload v)
  /\ App_loadTasks (persistValue v storage) = Normal (reload v)
  /\ Stats_loadTasks (persistValue v storage) = Normal (reload v).
Proof.
  intros Hu Hv. unfold loadTasks, App_loadTasks, Stats_loadTasks.
  rewrite getItem_persistValue.
  destruct (JSON_stringify v) as [t|] eqn:Ht; [|by apply stringify_None in Ht].
  cbn [default]. unfold id.
  destruct (stringify_start _ _ Ht) as (c & t' & -> & _). cbn [isNil].
  by rewrite (JSON_roundtrip v _ Hu Ht).
Qed.

Lemma persisted_reads_back (ts : list Task) (storage : gmap (list N) (list N)) :
  loadTasks (persistValue (JArray (map taskObject ts)) storage)
  = Normal (JArray (map reload (map taskObject ts)))
  /\ App_loadTasks (persistValue (JArray (map taskObject ts)) storage)
     = Normal (JArray (map reload (map taskObject ts)))
  /\ Stats_loadTasks (persistValue (JArray (map taskObject ts)) storage)
     = Normal (JArray (map reload (map taskObject ts))).
Proof. apply load_persisted; [apply tasks_uniqueKeys | done]. Qed.

(** C8. A task collection that is persisted and loaded again comes back
    field for field: every element reads as the task it was, every property
    reads as before, and an optional field that was absent reads as
    undefined, not as a string.  This holds for the three loaders, and for
    what [persistTasks] writes from any state of the store. *)
Theorem persist_load_roundtrip (ts : list Task) (slots : gmap (list N) (list N))
    (s : Store) :
  (exists vs,
     loadTasks (persistValue (JArray (map taskObject ts)) slots) = Normal (JArray vs)
     /\ App_loadTasks (persistValue (JArray (map taskObject ts)) slots)
        = Normal (JArray vs)
     /\ Stats_loadTasks (persistValue (JArray (map taskObject ts)) slots)
        = Normal (JArray vs)
     /\ Forall2 (fun t v =>
          readTask v = Some t
          /\ (forall k, getProp v k = getProp (taskObject t) k)
          /\ getProp v (js "due") = optString (t_due t)
          /\ getProp v (js "priority") = optString (t_priority t)
          /\ getProp v (js "owner") = optString (t_owner t)) ts vs)
  /\ (exists vs,
        loadTasks (storage (persistTasks s)) = Normal (JArray vs)
        /\ Forall2 (fun t v => readTask v = Some t) (getAll s) vs).
Proof.
  split.
  - exists (map reload (map taskObject ts)).
    destruct (persisted_reads_back ts slots) as (H1 & H2 & H3).
    split; [exact H1|]. split; [exact H2|]. split; [exact H3|].
    clear H1 H2 H3. induction ts as [|t ts IH]; [constructor|].
    cbn [map]. constructor; [|exact IH].
    split; [apply readTask_reload|]. split; [apply taskObject_reload|].
    rewrite !taskObject_reload. by destruct t.
  - exists (map reload (map taskObject (getAll s))).
    split; [apply persisted_reads_back|].
    induction (getAll s) as [|t l IH]; [constructor|].
    cbn [map]. constructor; [apply readTask_reload | exact IH].
Qed.

(** C9 as stated fails: the text [{}] is no task array, it parses, and the
    scripts adopt the object it denotes as their collection; the first
    iteration over it then throws. *)
Lemma load_recovery_counterexample :
  JSON_parse (js "{}") = Normal (JObject [])
  /\ ~ isTaskArray (JObject [])
  /\ loadTasks (setItem ∅ tasksKey (js "{}")) = Normal (JObject [])
  /\ loadTasks (setItem ∅ tasksKey (js "{}")) <> Normal (JArray [])
  /\ Board_tasks (setItem ∅ tasksKey (js "{}")) = Throw TypeError
  /\ Stats_tasks (setItem ∅ tasksKey (js "{}")) = Throw TypeError.
Proof.
  assert (Hg : getItem (setItem ∅ tasksKey (js "{}")) tasksKey = Some (js "{}"))
    by apply lookup_insert_eq.
  assert (Hp : JSON_parse (js "{}") = Normal (JObject [])) by (vm_compute; reflexivity).
  assert (Hl : loadTasks (setItem ∅ tasksKey (js "{}")) = Normal (JObject [])).
  { unfold loadTasks. rewrite Hg. change (isNil (js "{}")) with false.
    cbv iota. by rewrite Hp. }
  split; [exact Hp|]. split; [by intros (l & [=] & _)|].
  split; [exact Hl|]. split; [by rewrite Hl|].
  unfold Board_tasks, Stats_tasks, Stats_loadTasks. rewrite Hl, Hg.
  change (isNil (js "{}")) with false. cbv iota. by rewrite Hp.
Qed.

(** C9, amended.  A stored text that [JSON.parse] rejects makes every
    loader start with the empty collection, and nothing is thrown; the same
    holds for an empty or missing slot.  A text that parses is adopted as
    parsed, whatever it denotes. *)
Theorem unparseable_loads_empty (slots : gmap (list N) (list N)) :
  ((getItem slots tasksKey = None
    \/ exists text, getItem slots tasksKey = Some text
         /\ (text = [] \/ exists e, JSON_parse text = Throw e)) ->
   loadTasks slots = Normal (JArray [])
   /\ App_loadTasks slots = Normal (JArray [])
   /\ Stats_loadTasks slots = Normal (JArray [])
   /\ Board_tasks slots = Normal []
   /\ Stats_tasks slots = Normal [])
  /\ (forall text v,
        getItem slots tasksKey = Some text -> text <> [] ->
        JSON_parse text = Normal v ->
        loadTasks slots = Normal v
        /\ App_loadTasks slots = Normal v
        /\ Stats_loadTasks slots = Normal v).
Proof.
  unfold Board_tasks, Stats_tasks, loadTasks, App_loadTasks, Stats_loadTasks.
  split.
  - intros H. destruct H as [-> | (text & -> & [-> | (e & He)])]; [done | done |].
    destruct text; [done|]. cbn [isNil]. by rewrite He.
  - intros text v -> Hne Hv. destruct text; [done|]. cbn [isNil]. by rewrite Hv.
Qed.

Lemma unparseable_loads_empty_witness :
  loadTasks (setItem ∅ tasksKey (js "[{oops")) = Normal (JArray []).
Proof.
  apply unparseable_loads_empty. right. exists (js "[{oops"). split.
  - apply lookup_insert_eq.
  - right. exists SyntaxError. vm_compute. reflexivity.
Defined.

(** Texts [JSON.parse] rejects, and texts it reads. *)
Example JSON_parse_rejects :
  JSON_parse (js "[1,]") = Throw SyntaxError
  /\ JSON_parse (js "01") = Throw SyntaxError
  /\ JSON_parse (js "{'a':1}") = Throw SyntaxError
  /\ JSON_parse (js "undefined") = Throw SyntaxError
  /\ JSON_parse (js "[1 2]") = Throw SyntaxError
  /\ JSON_parse (js "1.") = Throw SyntaxError
  /\ JSON_parse (js "") = Throw SyntaxError.
Proof. vm_compute. repeat split. Qed.

Example JSON_parse_reads :
  JSON_parse (js " [ 1 , -2.5e3, true, null, [], {} ] ")
  = Normal (JArray [JNumber 1 0; JNumber (-25) 2; JBool true; JNull; JArray [];
                    JObject []])
  /\ JSON_parse (js "null") = Normal JNull
  /\ JSON_parse (js "0") = Normal (JNumber 0 0).
Proof. vm_compute. repeat split. Qed.

(** ** The stats page *)


Lemma increment_same (counts : gmap (list N) Cell) (k : list N) :
  ~ inheritedName k -> increment counts k !! k = bump (counts !! k) 1.
Proof.
  intros Hk. unfold increment.
  destruct (counts !! k) as [[n|]|] eqn:Hc; simpl.
  - by rewrite lookup_insert_eq.
  - by rewrite lookup_insert_eq.
  - destruct (decide (k = protoAccessor)) as [->|]; [exfalso; apply Hk; by left|].
    destruct (decide (k ∈ inheritedMethods)); [exfalso; apply Hk; by right|].
    by rewrite lookup_insert_eq.
Qed.

Lemma increment_other (counts : gmap (list N) Cell) (key k : list N) :
  key <> k -> increment counts key !! k = counts !! k.
Proof.
  intros Hne. unfold increment.
  destruct (counts !! key) as [[n|]|]; repeat case_decide;
    by rewrite ?lookup_insert_ne.
Qed.

Lemma bump_bump (c : option Cell) (n : nat) : bump (bump c 1) n = bump c (S n).
Proof.
  destruct c as [[m|]|], n as [|n]; simpl; try done; f_equal; f_equal; lia.
Qed.

Lemma fold_increment (keys : list (list N)) (counts : gmap (list N) Cell) (k : list N) :
  ~ inheritedName k ->
  fold_left increment keys counts !! k
  = bump (counts !! k) (length (List.filter (fun x => bool_decide (x = k)) keys)).
Proof.
  intros Hk. revert counts. induction keys as [|key keys IH]; intros counts; simpl.
  - by destruct (counts !! k) as [[|]|].
  - rewrite IH. case_bool_decide as Hkey; simpl length.
    + subst key. by rewrite increment_same, bump_bump.
    + by rewrite increment_other.
Qed.

Lemma statusCounts_fold (tasks : list Task) (st : Stats) :
  statusCounts (fold_left tally tasks st)
  = fold_left increment (map statusKey tasks) (statusCounts st).
Proof. revert st. induction tasks as [|t tasks IH]; intros st; simpl; [done|]. by rewrite IH. Qed.

Lemma filter_map_length (k : list N) (tasks : list Task) :
  length (List.filter (fun x => bool_decide (x = k)) (map statusKey tasks))
  = inBucket k tasks.
Proof.
  unfold inBucket. induction tasks as [|t tasks IH]; simpl; [done|].
  case_bool_decide; simpl; by rewrite IH.
Qed.

Lemma totalCount_insert_fresh (m : gmap (list N) Cell) (k : list N) (c : Cell) :
  m !! k = None -> totalCount (<[k := c]> m) = (cellValue c + totalCount m)%nat.
Proof.
  intros Hk. unfold totalCount. rewrite map_fold_insert_L; [done | | done].
  intros. lia.
Qed.

Lemma totalCount_insert (m : gmap (list N) Cell) (k : list N) (c0 c : Cell) :
  m !! k = Some c0 ->
  (totalCount (<[k := c]> m) + cellValue c0 = cellValue c + totalCount m)%nat.
Proof.
  intros Hk. rewrite <- (insert_delete_id m k c0 Hk) at 2.
  rewrite <- insert_delete_eq.
  rewrite !totalCount_insert_fresh by apply lookup_delete_eq. lia.
Qed.


Lemma increment_counts (m : gmap (list N) Cell) (k : list N) :
  ~ inheritedName k -> countsOnly m ->
  countsOnly (increment m k) /\ totalCount (increment m k) = S (totalCount m).
Proof.
  intros Hk Hm. unfold increment.
  destruct (m !! k) as [[n|]|] eqn:Hc.
  - split.
    + intros j. destruct (decide (k = j)) as [<-|Hne];
        [by rewrite lookup_insert_eq | by rewrite lookup_insert_ne].
    + pose proof (totalCount_insert m k (Count n) (Count (n + 1)) Hc). simpl in *. lia.
  - by destruct (Hm k).
  - destruct (decide (k = protoAccessor)) as [->|]; [exfalso; apply Hk; by left|].
    destruct (decide (k ∈ inheritedMethods)); [exfalso; apply Hk; by right|].
    split.
    + intros j. destruct (decide (k = j)) as [<-|Hne];
        [by rewrite lookup_insert_eq | by rewrite lookup_insert_ne].
    + by rewrite totalCount_insert_fresh.
Qed.

Lemma fold_increment_total (keys : list (list N)) (m : gmap (list N) Cell) :
  Forall (fun k => ~ inheritedName k) keys -> countsOnly m ->
  totalCount (fold_left increment keys m) = (length keys + totalCount m)%nat.
Proof.
  revert m. induction keys as [|k keys IH]; intros m Hkeys Hm; simpl; [done|].
  apply Forall_cons in Hkeys as [Hk Hkeys].
  destruct (increment_counts m k Hk Hm) as [Hm' Ht].
  rewrite IH by done. lia.
Qed.

Lemma statusKey_missing (t : Task) :
  t_status t = None \/ t_status t = Some [] -> statusKey t = js "unknown".
Proof. unfold statusKey. by intros [-> | ->]. Qed.

(** C2 as stated fails: a task whose status is the unlisted "blocked" is
    counted under "blocked", and nothing is counted under "unknown". *)
Lemma status_unknown_counterexample :
  offEnum (mkTask (js "1") (js "Fix") None None (Some (js "blocked")) None 1) = true
  /\ statusCounts (computeStats
       [mkTask (js "1") (js "Fix") None None (Some (js "blocked")) None 1])
     !! js "unknown" = None
  /\ statusCounts (computeStats
       [mkTask (js "1") (js "Fix") None None (Some (js "blocked")) None 1])
     !! js "blocked" = Some (Count 1).
Proof.
  split; [reflexivity|].
  assert (Hb : ~ inheritedName (js "blocked")).
  { intros [H|H]; [discriminate H|]. revert H. apply (bool_decide_unpack _).
    vm_compute. reflexivity. }
  split.
  - unfold computeStats. simpl. by rewrite increment_other.
  - unfold computeStats. simpl. change (statusKey _) with (js "blocked").
    by rewrite increment_same.
Qed.

(** C2, amended.  A task without a status, or with the empty one, is
    counted under "unknown"; any other status, listed or not, is counted
    under the status itself.  As long as no status is the name of a member
    inherited from [Object.prototype], the count under a key is the number
    of tasks of that bucket, and the counts add up to the size of the
    collection: every task is counted exactly once. *)
Theorem status_counts_buckets (tasks : list Task) :
  Forall (fun t => ~ inheritedName (statusKey t)) tasks ->
  (forall t, t ∈ tasks ->
     (t_status t = None \/ t_status t = Some [] -> statusKey t = js "unknown")
     /\ (forall s, t_status t = Some s -> s <> [] -> statusKey t = s))
  /\ (forall k, ~ inheritedName k ->
        statusCounts (computeStats tasks) !! k = cellOfCount (inBucket k tasks))
  /\ totalCount (statusCounts (computeStats tasks)) = length tasks.
Proof.
  intros Hall. split; [|split].
  - intros t _. split; [apply statusKey_missing|].
    intros s Hs Hne. unfold statusKey. rewrite Hs. by destruct s.
  - intros k Hk. unfold computeStats.
    rewrite statusCounts_fold, fold_increment, filter_map_length by done.
    cbn [statusCounts]. rewrite lookup_empty. by destruct (inBucket k tasks).
  - unfold computeStats. rewrite statusCounts_fold, fold_increment_total.
    + cbn [statusCounts]. rewrite length_map. unfold totalCount.
      rewrite map_fold_empty. lia.
    + by apply Forall_map.
    + intros k. cbn [statusCounts]. by rewrite lookup_empty.
Qed.

Lemma status_counts_buckets_witness :
  statusCounts (computeStats
    [mkTask (js "1") (js "a") None None None None 1;
     mkTask (js "2") (js "b") None None (Some (js "todo")) None 2;
     mkTask (js "3") (js "c") None None (Some []) None 3])
  !! js "unknown" = Some (Count 2).
Proof.
  assert (Hn : forall k, bool_decide (k ≠ protoAccessor /\ k ∉ inheritedMethods) = true
                         -> ~ inheritedName k).
  { intros k Hk%bool_decide_eq_true [?|?]; tauto. }
  refine (proj1 (proj2 (status_counts_buckets _ _)) (js "unknown") _).
  - repeat constructor; apply Hn; vm_compute; reflexivity.
  - apply Hn. vm_compute. reflexivity.
Defined.

(** A status named like an inherited member is not counted: the claim's
    "not dropped" needs the proviso. *)
Lemma status_proto_dropped :
  statusCounts (computeStats
    [mkTask (js "1") (js "a") None None (Some (js "__proto__")) None 1]) = ∅.
Proof. reflexivity. Qed.

(** ** The task store *)

Lemma findIndex_lookup (h : list Task) (id : list N) (refs : list nat) (idx : nat) :
  findIndex h id refs = Some idx ->
  exists r t, refs !! idx = Some r /\ h !! r = Some t /\ t_id t = id.
Proof.
  revert idx. induction refs as [|r refs IH]; intros idx; simpl; [done|].
  destruct (h !! r) as [t|] eqn:Hr.
  - destruct (decide (t_id t = id)) as [Hid|Hid].
    + intros [= <-]. eauto.
    + destruct (findIndex h id refs) as [i|]; [|done]. intros [= <-].
      destruct (IH i eq_refl) as (r' & t' & ? & ? & ?). eauto.
  - destruct (findIndex h id refs) as [i|]; [|done]. intros [= <-].
    destruct (IH i eq_refl) as (r' & t' & ? & ? & ?). eauto.
Qed.

Lemma findIndex_Some (h : list Task) (id : list N) (refs : list nat) :
  id ∈ idsOf h refs -> is_Some (findIndex h id refs).
Proof.
  unfold idsOf. induction refs as [|r refs IH]; simpl; [by intros ?%elem_of_nil|].
  destruct (h !! r) as [t|] eqn:Hr; simpl.
  - destruct (decide (t_id t = id)); [eauto|].
    intros [?|Hin]%elem_of_cons; [congruence|].
    destruct (IH Hin) as [i ->]. eauto.
  - intros Hin. destruct (IH Hin) as [i ->]. eauto.
Qed.

Lemma findTask_lookup (h : list Task) (id : list N) (refs : list nat) (r : nat) :
  findTask h id refs = Some r ->
  r ∈ refs /\ exists t, h !! r = Some t /\ t_id t = id.
Proof.
  induction refs as [|r' refs IH]; simpl; [done|].
  destruct (h !! r') as [t|] eqn:Hr.
  - destruct (decide (t_id t = id)) as [Hid|Hid].
    + intros [= <-]. split; [left|eauto].
    + intros H. destruct (IH H) as [? ?]. split; [by right | done].
  - intros H. destruct (IH H) as [? ?]. split; [by right | done].
Qed.

Lemma take_drop_delete {A} (l : list A) (i : nat) (x : A) :
  l !! i = Some x ->
  take i (delete i l) ++ x :: drop i (delete i l) = l.
Proof.
  revert i. induction l as [|y l IH]; intros [|i]; simpl; try done.
  - intros [= ->]. by rewrite drop_0.
  - intros H. f_equal. by apply IH.
Qed.

(** C4. Deleting the task the modal is open on and then clicking undo,
    before the toast goes away and with nothing done in between, gives the
    collection back as it was, the task at its old place. *)
Theorem delete_undo_restores (s : Store) (id : list N) :
  id <> [] -> id ∈ liveIds s ->
  tasks (clickUndo (deleteCurrentTask (openTaskModal (Some id) s))) = tasks s
  /\ getAll (clickUndo (deleteCurrentTask (openTaskModal (Some id) s))) = getAll s
  /\ exists idx removed,
       findIndex (heap s) id (tasks s) = Some idx
       /\ tasks s !! idx = Some removed
       /\ tasks (deleteCurrentTask (openTaskModal (Some id) s)) = delete idx (tasks s)
       /\ toastUndo (deleteCurrentTask (openTaskModal (Some id) s))
          = Some (UndoDelete idx removed).
Proof.
  intros Hne Hin. destruct (findIndex_Some _ _ _ Hin) as [idx Hidx].
  destruct (findIndex_lookup _ _ _ _ Hidx) as (removed & t & Hr & Ht & Hid).
  unfold deleteCurrentTask, openTaskModal. cbn [currentEditId setCurrentEditId heap tasks].
  assert (Htr : negb (truthy (Some id)) = false) by (by destruct id).
  rewrite Htr, Hidx, Hr.
  unfold clickUndo. cbn [toastUndo showToast runUndo hideToast persistTasks setTasks
                         closeTaskModal setCurrentEditId tasks heap getAll].
  rewrite (take_drop_delete _ _ _ Hr). eauto 10.
Qed.

Lemma delete_undo_restores_witness :
  tasks (clickUndo (deleteCurrentTask (openTaskModal (Some (js "20"))
    (mkStore [mkTask (js "10") (js "a") None None (Some s_todo) None 10;
              mkTask (js "20") (js "b") None None (Some s_doing) None 20;
              mkTask (js "30") (js "c") None None (Some s_done) None 30]
             [0; 1; 2]%nat None None false ∅))))
  = [0; 1; 2]%nat.
Proof.
  refine (proj1 (delete_undo_restores _ (js "20") _ _)).
  - discriminate.
  - apply list_elem_of_lookup. exists 1%nat. reflexivity.
Defined.

Lemma findTask_alter (h : list Task) (f : Task -> Task) (r : nat) (id : list N)
    (refs : list nat) :
  (forall t, t_id (f t) = t_id t) ->
  findTask (alter f r h) id refs = findTask h id refs.
Proof.
  intros Hf. induction refs as [|r' refs IH]; simpl; [done|].
  destruct (decide (r = r')) as [<-|Hne].
  - rewrite list_lookup_alter_eq. destruct (h !! r) as [t|]; simpl; [|done].
    rewrite Hf. by rewrite IH.
  - rewrite list_lookup_alter_ne by done. by rewrite IH.
Qed.

Lemma findTask_first (h : list Task) (id : list N) (refs : list nat) (idx r : nat)
    (t : Task) :
  refs !! idx = Some r -> h !! r = Some t -> t_id t = id ->
  (forall j r' t', (j < idx)%nat -> refs !! j = Some r' -> h !! r' = Some t' ->
     t_id t' <> id) ->
  findTask h id refs = Some r.
Proof.
  revert idx. induction refs as [|r0 refs IH]; intros idx Hidx Ht Hid Hfirst; [done|].
  destruct idx as [|idx]; simpl in Hidx |- *.
  - injection Hidx as ->. rewrite Ht. by rewrite decide_True.
  - assert (Hrest : findTask h id refs = Some r).
    { apply (IH idx Hidx Ht Hid). intros j r' t' Hj Hr' Ht'.
      apply (Hfirst (S j) r' t'); [lia | done | done]. }
    destruct (h !! r0) as [t0|] eqn:H0; [|done].
    rewrite decide_False; [done|]. apply (Hfirst 0%nat r0 t0); [lia | done | done].
Qed.

(** C5. Take any task of the collection, at any place and with any status,
    that is the first to carry its id (every task is, when ids are
    distinct).  Moving it to done by that id and clicking undo leaves this
    very task with the status doing and all else about it as it was; no
    other task object is touched, the order of the collection stays, and
    the toast that offered the undo was the one of this task. *)
Theorem move_done_undo_doing (s : Store) (id : list N) (idx task : nat) (t : Task) :
  tasks s !! idx = Some task -> heap s !! task = Some t -> t_id t = id ->
  (forall j r' t', (j < idx)%nat -> tasks s !! j = Some r' -> heap s !! r' = Some t' ->
     t_id t' <> id) ->
  heap (clickUndo (moveTask id s_done s)) !! task = Some (setStatus s_doing t)
  /\ option_map t_status (heap (clickUndo (moveTask id s_done s)) !! task)
     = Some (Some s_doing)
  /\ heap (moveTask id s_done s) !! task = Some (setStatus s_done t)
  /\ option_map t_status (heap (moveTask id s_done s) !! task) = Some (Some s_done)
  /\ toastUndo (moveTask id s_done s) = Some (UndoMove task)
  /\ toastUndo (clickUndo (moveTask id s_done s)) = None
  /\ tasks (clickUndo (moveTask id s_done s)) = tasks s
  /\ (forall r', r' <> task ->
        heap (clickUndo (moveTask id s_done s)) !! r' = heap s !! r')
  /\ findTask (heap (clickUndo (moveTask id s_done s))) id
              (tasks (clickUndo (moveTask id s_done s))) = Some task.
Proof.
  intros Hidx Ht Hid Hfirst.
  pose proof (findTask_first _ _ _ _ _ _ Hidx Ht Hid Hfirst) as Hfind.
  unfold moveTask. rewrite Hfind. rewrite decide_True by done.
  unfold clickUndo.
  cbn [toastUndo showToast runUndo hideToast persistTasks updateHeap tasks heap].
  rewrite !findTask_alter by done.
  rewrite !list_lookup_alter_eq, Ht. cbn [fmap option_fmap option_map].
  repeat (split; [done|]). split; [|done].
  intros r' Hne. by rewrite !list_lookup_alter_ne.
Qed.

Lemma move_done_undo_doing_witness :
  heap (clickUndo (moveTask (js "20") s_done
     (mkStore [mkTask (js "10") (js "a") None None (Some s_doing) None 10;
               mkTask (js "20") (js "b") None None (Some s_todo) None 20;
               mkTask (js "30") (js "c") None None (Some s_done) None 30]
              [2; 0; 1]%nat None None false ∅))) !! 1%nat
  = Some (mkTask (js "20") (js "b") None None (Some s_doing) None 20).
Proof.
  refine (proj1 (move_done_undo_doing _ (js "20") 2%nat 1%nat
                   (mkTask (js "20") (js "b") None None (Some s_todo) None 20)
                   _ _ _ _)); try reflexivity.
  intros j r' t' Hj Hr' Ht'.
  destruct j as [|[|j]]; [| |lia]; cbn in Hr'; injection Hr' as <-;
    cbn in Ht'; injection Ht' as <-; discriminate.
Defined.

(** *** Ids *)

Lemma Number_toString_inj (a b : Z) :
  Number_toString a = Number_toString b -> a = b.
Proof.
  intros H.
  pose proof (parseNumber_print a 0 [] eq_refl) as Ha.
  pose proof (parseNumber_print b 0 [] eq_refl) as Hb.
  unfold printNumber in Ha, Hb. simpl in Ha, Hb. rewrite H in Ha.
  congruence.
Qed.

Lemma idsOf_cons (h : list Task) (r : nat) (refs : list nat) :
  idsOf h (r :: refs)
  = match h !! r with
    | Some t => t_id t :: idsOf h refs
    | None => idsOf h refs
    end.
Proof. unfold idsOf. simpl. by destruct (h !! r). Qed.

Lemma idsOf_alter (h : list Task) (f : Task -> Task) (r : nat) (refs : list nat) :
  (forall t, t_id (f t) = t_id t) ->
  idsOf (alter f r h) refs = idsOf h refs.
Proof.
  intros Hf. induction refs as [|r' refs IH]; [done|].
  rewrite !idsOf_cons, IH. destruct (decide (r = r')) as [<-|Hne].
  - rewrite list_lookup_alter_eq. destruct (h !! r); simpl; by rewrite ?Hf.
  - by rewrite list_lookup_alter_ne.
Qed.

Lemma idsOf_snoc_heap (h : list Task) (t : Task) (refs : list nat) :
  Forall (fun r => r < length h)%nat refs ->
  idsOf (h ++ [t]) refs = idsOf h refs.
Proof.
  induction 1 as [|r refs Hr _ IH]; [done|].
  by rewrite !idsOf_cons, IH, lookup_app_l.
Qed.

Lemma idsOf_app (h : list Task) (a b : list nat) :
  idsOf h (a ++ b) = idsOf h a ++ idsOf h b.
Proof. apply omap_app. Qed.

Lemma idsOf_perm (h : list Task) (a b : list nat) :
  a ≡ₚ b -> idsOf h a ≡ₚ idsOf h b.
Proof. intros H. unfold idsOf. by rewrite H. Qed.

Lemma idsOf_new (h : list Task) (t : Task) :
  idsOf (h ++ [t]) [length h] = [t_id t].
Proof.
  rewrite idsOf_cons, lookup_app_r by lia.
  by rewrite Nat.sub_diag.
Qed.

Lemma insert_perm {A} (l : list A) (i : nat) (x : A) :
  take i l ++ x :: drop i l ≡ₚ x :: l.
Proof.
  rewrite <- Permutation_middle. by rewrite take_drop.
Qed.


Lemma Inv_mono (c c' : Z) (s : Store) : (c <= c')%Z -> Inv c s -> Inv c' s.
Proof.
  intros Hc (Hwf & Hnd & Hst). split; [done|]. split; [done|].
  intros id Hid. destruct (Hst id Hid) as (n & -> & Hn). exists n. split; [done | lia].
Qed.

(** An operation that keeps the ids of the heap, and keeps or forgets
    addresses, keeps the invariant. *)
Lemma Inv_shrink (c : Z) (s s' : Store) :
  length (heap s') = length (heap s) ->
  (forall refs, idsOf (heap s') refs = idsOf (heap s) refs) ->
  (exists rest, tasks s ++ tombstone s ≡ₚ (tasks s' ++ tombstone s') ++ rest) ->
  (wellFormed s ->
   match toastUndo s' with
   | Some (UndoMove r) => (r < length (heap s'))%nat
   | Some (UndoDelete idx _) => (idx <= length (tasks s'))%nat
   | None => True
   end) ->
  Inv c s -> Inv c s'.
Proof.
  intros Hlen Hids (rest & Hperm) Htoast (Hwf & Hids_nd & Hst).
  specialize (Htoast Hwf). destruct Hwf as (Hall & Hnd & _).
  assert (Hsub : forall r, r ∈ tasks s' ++ tombstone s' -> r ∈ tasks s ++ tombstone s).
  { intros r Hr. rewrite Hperm. apply elem_of_app. by left. }
  split; [split; [|split] | split].
  - rewrite Hlen. rewrite Forall_forall in Hall |- *. auto.
  - rewrite Hperm in Hnd. by apply NoDup_app in Hnd as (? & _).
  - done.
  - unfold allIds in *. rewrite Hids.
    rewrite (idsOf_perm _ _ _ Hperm), idsOf_app in Hids_nd.
    by apply NoDup_app in Hids_nd as (? & _).
  - intros id Hid. apply Hst. unfold allIds in *. rewrite Hids in Hid.
    rewrite (idsOf_perm _ _ _ Hperm), idsOf_app. apply elem_of_app. by left.
Qed.

Lemma Inv_persistTasks (c : Z) (s : Store) : Inv c s -> Inv c (persistTasks s).
Proof. intros H. exact H. Qed.

Lemma Inv_setCurrentEditId (c : Z) (id : option (list N)) (s : Store) :
  Inv c s -> Inv c (setCurrentEditId id s).
Proof. intros H. exact H. Qed.

Lemma Inv_hideToast (c : Z) (s : Store) : Inv c s -> Inv c (hideToast s).
Proof.
  apply Inv_shrink; try done.
  exists (tombstone s). unfold tombstone at 2. simpl. by rewrite app_nil_r.
Qed.

Lemma Inv_timerFires (c : Z) (s : Store) : Inv c s -> Inv c (timerFires s).
Proof.
  intros H. unfold timerFires. destruct (undoTimer s); [|done].
  by apply (Inv_hideToast c s) in H.
Qed.

Lemma Inv_updateHeap (c : Z) (r : nat) (f : Task -> Task) (s : Store) :
  (forall t, t_id (f t) = t_id t) -> Inv c s -> Inv c (updateHeap r f s).
Proof.
  intros Hf. apply Inv_shrink.
  - apply length_alter.
  - intros refs. by apply idsOf_alter.
  - exists []. by rewrite app_nil_r.
  - simpl. rewrite length_alter. by intros (_ & _ & Ht).
Qed.

Lemma Inv_showMove (c : Z) (r : nat) (s : Store) :
  (r < length (heap s))%nat -> Inv c s -> Inv c (showToast (Some (UndoMove r)) s).
Proof.
  intros Hr. apply Inv_shrink; try done.
  exists (tombstone s). simpl. by rewrite app_nil_r.
Qed.

Lemma Inv_moveTask (c : Z) (id st : list N) (s : Store) :
  Inv c s -> Inv c (moveTask id st s).
Proof.
  intros H. unfold moveTask.
  destruct (findTask (heap s) id (tasks s)) as [task|] eqn:Hfind; [|done].
  destruct (findTask_lookup _ _ _ _ Hfind) as (_ & t & Ht & _).
  apply lookup_lt_Some in Ht.
  apply Inv_persistTasks. apply (Inv_updateHeap c task (setStatus st)) in H; [|done].
  case_decide; [|done]. apply Inv_showMove; [|done].
  simpl. by rewrite length_alter.
Qed.

Lemma Inv_dropOn (c : Z) (taskId column : list N) (s : Store) :
  Inv c s -> Inv c (dropOn taskId column s).
Proof.
  intros H. unfold dropOn. destruct (findTask _ _ _); [|done].
  case_decide; [done|]. by apply Inv_moveTask.
Qed.

Lemma Inv_deleteCurrentTask (c : Z) (s : Store) :
  Inv c s -> Inv c (deleteCurrentTask s).
Proof.
  intros H. unfold deleteCurrentTask.
  destruct (currentEditId s) as [id|]; [|done].
  destruct (negb (truthy (Some id))); [done|].
  destruct (findIndex (heap s) id (tasks s)) as [idx|]; [|done].
  destruct (tasks s !! idx) as [removed|] eqn:Hr; [|done].
  revert H. apply Inv_shrink; try done.
  - exists (tombstone s). simpl.
    rewrite (delete_Permutation _ _ _ Hr) at 1.
    rewrite <- !app_assoc. simpl. by rewrite <- Permutation_middle.
  - intros _. simpl. rewrite length_delete by eauto.
    apply lookup_lt_Some in Hr. lia.
Qed.

Lemma Inv_clickUndo (c : Z) (s : Store) : Inv c s -> Inv c (clickUndo s).
Proof.
  intros H. unfold clickUndo. destruct (toastUndo s) as [[task|idx removed]|] eqn:Hu; [| |done].
  - apply Inv_hideToast, Inv_persistTasks. by apply Inv_updateHeap.
  - revert H. apply Inv_shrink; try done.
    exists []. unfold tombstone. rewrite Hu. simpl.
    rewrite !app_nil_r. rewrite insert_perm. by rewrite <- Permutation_cons_append.
Qed.

Lemma allIds_pushTask (t : Task) (s : Store) :
  wellFormed s -> allIds (pushTask t s) ≡ₚ t_id t :: allIds s.
Proof.
  intros (Hall & _ & _). unfold allIds, pushTask, tombstone. simpl.
  apply Forall_app in Hall as [Htasks Htomb].
  rewrite !idsOf_app, idsOf_new. rewrite !idsOf_snoc_heap by done.
  rewrite <- app_assoc. simpl. by rewrite <- Permutation_middle.
Qed.

Lemma Inv_pushTask (c now : Z) (t : Task) (s : Store) :
  (c <= now)%Z -> t_id t = Number_toString now ->
  Inv c s -> Inv (now + 1) (pushTask t s).
Proof.
  intros Hc Hid (Hwf & Hnd & Hst).
  pose proof (allIds_pushTask t s Hwf) as Hperm.
  destruct Hwf as (Hall & Hrefs & Htoast).
  split; [split; [|split] | split].
  - unfold pushTask, tombstone. simpl. rewrite length_app. simpl.
    rewrite <- app_assoc. apply Forall_app in Hall as [Htasks Htomb].
    apply Forall_app. split; [|apply Forall_app; split].
    + eapply Forall_impl; [exact Htasks|]. simpl. lia.
    + constructor; [lia | constructor].
    + eapply Forall_impl; [exact Htomb|]. simpl. lia.
  - unfold pushTask, tombstone. simpl.
    rewrite <- app_assoc. simpl. rewrite <- Permutation_middle.
    apply NoDup_cons. split; [|done].
    intros Hin. rewrite Forall_forall in Hall. specialize (Hall _ Hin). lia.
  - unfold pushTask. simpl. rewrite !length_app. simpl.
    destruct (toastUndo s) as [[r|idx removed]|]; lia || done.
  - rewrite Hperm. apply NoDup_cons. split; [|done].
    intros Hin. destruct (Hst _ Hin) as (n & Hn & Hlt).
    rewrite Hid in Hn. apply Number_toString_inj in Hn. lia.
  - intros id Hin. rewrite Hperm in Hin. apply elem_of_cons in Hin as [-> | Hin].
    + exists now. split; [done | lia].
    + destruct (Hst _ Hin) as (n & -> & Hlt). exists n. split; [done | lia].
Qed.

Lemma Inv_Board_addTask (c : Z) (clock : Clock) (data : TaskData) (s : Store) :
  (c <= nowId clock)%Z -> Inv c s ->
  Inv (nowId clock + 1) (BoardStore.addTask clock data s).
Proof.
  intros Hc H. unfold BoardStore.addTask. apply Inv_persistTasks.
  by apply (Inv_pushTask c).
Qed.

Lemma Inv_App_addTask (c : Z) (clock : Clock) (data : TaskData) (s : Store) :
  (c <= nowId clock)%Z -> Inv c s ->
  Inv (nowId clock + 1) (AppStore.addTask clock data s).
Proof.
  intros Hc H. unfold AppStore.addTask. apply Inv_persistTasks.
  by apply (Inv_pushTask c).
Qed.

Lemma Inv_step (sc : Script) (c : Z) (s : Store) (ev : Event) :
  Inv c s ->
  match clockOf sc s ev with
  | Some now => (c <= now)%Z -> Inv (now + 1) (step sc s ev)
  | None => Inv c (step sc s ev)
  end.
Proof.
  intros H. destruct ev as [clock text|id| |clock form| |taskId column| |];
    cbn [clockOf step].
  - destruct sc.
    + unfold BoardStore.handleQuickAdd. destruct (isNil (trim text)); [done|].
      by apply Inv_setCurrentEditId.
    + unfold AppStore.handleQuickAdd. destruct (isNil (trim text)); [done|].
      intros Hc. by apply (Inv_App_addTask c).
  - by apply Inv_setCurrentEditId.
  - by apply Inv_setCurrentEditId.
  - destruct sc.
    + unfold BoardStore.saveTask. destruct (isNil (trim (f_title form))); [done|].
      destruct (_ || _); [done|]. destruct (truthy (currentEditId s)).
      * apply Inv_setCurrentEditId. destruct (findTask _ _ _); [|done].
        by apply Inv_persistTasks, Inv_updateHeap.
      * intros Hc. apply Inv_setCurrentEditId. by apply (Inv_Board_addTask c).
    + unfold AppStore.saveTask. destruct (isNil (trim (f_title form))); [done|].
      destruct (truthy (currentEditId s)).
      * apply Inv_setCurrentEditId. destruct (findTask _ _ _); [|done].
        by apply Inv_persistTasks, Inv_updateHeap.
      * intros Hc. apply Inv_setCurrentEditId. by apply (Inv_App_addTask c).
  - by apply Inv_deleteCurrentTask.
  - by apply Inv_dropOn.
  - by apply Inv_clickUndo.
  - by apply Inv_timerFires.
Qed.

Lemma Inv_run (sc : Script) (evs : list Event) (c : Z) (s : Store) :
  Inv c s -> clockRises sc c s evs -> exists c', Inv c' (run sc s evs).
Proof.
  revert c s. induction evs as [|ev evs IH]; intros c s H Hrise; simpl.
  - by exists c.
  - pose proof (Inv_step sc c s ev H) as Hstep. simpl in Hrise.
    destruct (clockOf sc s ev) as [now|].
    + destruct Hrise as [Hc Hrise]. by apply (IH (now + 1)%Z); [apply Hstep|].
    + by apply (IH c).
Qed.

(** An event takes a reading exactly when it creates a task: with a
    reading the heap gains one task object, whose id is the decimal of the
    reading and whose address is put last in the collection; without one
    the heap keeps its size and every id in it. *)
Lemma clockOf_creates (sc : Script) (s : Store) (ev : Event) :
  match clockOf sc s ev with
  | Some now =>
      exists t, heap (step sc s ev) = heap s ++ [t]
                /\ tasks (step sc s ev) = tasks s ++ [length (heap s)]
                /\ t_id t = Number_toString now
  | None =>
      length (heap (step sc s ev)) = length (heap s)
      /\ forall refs, idsOf (heap (step sc s ev)) refs = idsOf (heap s) refs
  end.
Proof.
  assert (Hmove : forall id st s0,
            length (heap (moveTask id st s0)) = length (heap s0)
            /\ forall refs, idsOf (heap (moveTask id st s0)) refs = idsOf (heap s0) refs).
  { intros id st s0. unfold moveTask. destruct (findTask _ _ _); [|done].
    case_decide; simpl; (split; [apply length_alter | intros; by apply idsOf_alter]). }
  destruct ev as [clock text|id| |clock form| |taskId column| |];
    cbn [clockOf step].
  - destruct sc.
    + unfold BoardStore.handleQuickAdd. by destruct (isNil (trim text)).
    + unfold AppStore.handleQuickAdd. destruct (isNil (trim text)); [done|].
      eexists. split; [reflexivity|]. done.
  - done.
  - done.
  - destruct sc.
    + unfold BoardStore.saveTask. destruct (isNil (trim (f_title form))); [done|].
      destruct (_ || _); [done|]. destruct (truthy (currentEditId s)).
      * destruct (findTask _ _ _); [|done]. simpl.
        split; [apply length_alter | intros; by apply idsOf_alter].
      * eexists. split; [reflexivity|]. done.
    + unfold AppStore.saveTask. destruct (isNil (trim (f_title form))); [done|].
      destruct (truthy (currentEditId s)).
      * destruct (findTask _ _ _); [|done]. simpl.
        split; [apply length_alter | intros; by apply idsOf_alter].
      * eexists. split; [reflexivity|]. done.
  - unfold deleteCurrentTask. destruct (currentEditId s) as [id|]; [|done].
    destruct (negb (truthy (Some id))); [done|].
    destruct (findIndex _ _ _) as [idx|]; [|done].
    by destruct (tasks s !! idx).
  - unfold dropOn. destruct (findTask _ _ _); [|done]. case_decide; [done|].
    apply Hmove.
  - unfold clickUndo. destruct (toastUndo s) as [[task|idx removed]|]; [|done|done].
    simpl. split; [apply length_alter | intros; by apply idsOf_alter].
  - unfold timerFires. by destruct (undoTimer s).
Qed.

Lemma Inv_emptyStore (c : Z) : Inv c emptyStore.
Proof.
  split; [|split].
  - repeat split; constructor.
  - constructor.
  - intros id Hin. by apply elem_of_nil in Hin.
Qed.

Lemma NoDup_liveIds (c : Z) (s : Store) : Inv c s -> NoDup (liveIds s).
Proof.
  intros (_ & Hnd & _). unfold allIds in Hnd. rewrite idsOf_app in Hnd.
  by apply NoDup_app in Hnd as (? & _).
Qed.

(** C1 as stated fails: the id is the clock reading, and two tasks created
    at the same reading share it. *)
Lemma id_unique_counterexample :
  liveIds (run AppJs emptyStore
             [EvQuickAdd (mkClock 1700000000000 1700000000000) (js "Buy milk");
              EvQuickAdd (mkClock 1700000000000 1700000000000) (js "Ship report")])
  = [js "1700000000000"; js "1700000000000"]
  /\ ~ NoDup (liveIds (run AppJs emptyStore
             [EvQuickAdd (mkClock 1700000000000 1700000000000) (js "Buy milk");
              EvQuickAdd (mkClock 1700000000000 1700000000000) (js "Ship report")])).
Proof.
  assert (H : liveIds (run AppJs emptyStore
             [EvQuickAdd (mkClock 1700000000000 1700000000000) (js "Buy milk");
              EvQuickAdd (mkClock 1700000000000 1700000000000) (js "Ship report")])
              = [js "1700000000000"; js "1700000000000"]) by (vm_compute; reflexivity).
  split; [exact H|]. rewrite H. intros Hnd. apply NoDup_cons in Hnd as [Hin _].
  apply Hin. left.
Qed.

(** C1, amended.  The id of a new task is the decimal of the clock reading
    [addTask] takes at its creation, and nothing else reads the clock: an
    event takes a reading exactly when it creates a task.  In a store whose
    ids are distinct and stem from earlier readings, as long as each
    reading that is taken is above all earlier ones, the new id differs
    from every id of the collection and from the id of the task an undo
    button still holds, and the ids of the collection stay distinct under
    every operation, undo included.  Edits, refused saves and the quick
    add of the board page, which create nothing, are under no condition. *)
Theorem ids_unique_invariant (sc : Script) (c : Z) (s : Store) (evs : list Event) :
  wellFormed s -> NoDup (allIds s) -> stamped c s -> clockRises sc c s evs ->
  NoDup (liveIds (run sc s evs))
  /\ NoDup (allIds (run sc s evs))
  /\ wellFormed (run sc s evs)
  /\ (forall clock data,
        (forall id, id ∈ allIds (run sc s evs) ->
           exists n, id = Number_toString n /\ (n < nowId clock)%Z) ->
        (Number_toString (nowId clock) ∉ liveIds (run sc s evs))
        /\ liveIds (BoardStore.addTask clock data (run sc s evs))
           = liveIds (run sc s evs) ++ [Number_toString (nowId clock)]
        /\ liveIds (AppStore.addTask clock data (run sc s evs))
           = liveIds (run sc s evs) ++ [Number_toString (nowId clock)])
  /\ (forall s' ev,
        match clockOf sc s' ev with
        | Some now =>
            exists t, heap (step sc s' ev) = heap s' ++ [t]
                      /\ tasks (step sc s' ev) = tasks s' ++ [length (heap s')]
                      /\ t_id t = Number_toString now
        | None =>
            length (heap (step sc s' ev)) = length (heap s')
            /\ forall refs, idsOf (heap (step sc s' ev)) refs = idsOf (heap s') refs
        end).
Proof.
  intros Hwf Hnd Hst Hrise.
  destruct (Inv_run sc evs c s (conj Hwf (conj Hnd Hst)) Hrise) as (c' & Hinv).
  split; [by eapply NoDup_liveIds|].
  destruct Hinv as (Hwf' & Hnd' & Hst'). split; [done|]. split; [done|].
  split; [|apply clockOf_creates].
  intros clock data Hfresh. split; [|split].
  - intros Hin. destruct (Hfresh (Number_toString (nowId clock))) as (n & Hn & Hlt).
    + unfold allIds. rewrite idsOf_app. apply elem_of_app. by left.
    + apply Number_toString_inj in Hn. lia.
  - destruct Hwf' as (Hall & _). apply Forall_app in Hall as [Htasks _].
    unfold liveIds, BoardStore.addTask, pushTask. simpl.
    by rewrite idsOf_app, idsOf_new, idsOf_snoc_heap.
  - destruct Hwf' as (Hall & _). apply Forall_app in Hall as [Htasks _].
    unfold liveIds, AppStore.addTask, pushTask. simpl.
    by rewrite idsOf_app, idsOf_new, idsOf_snoc_heap.
Qed.

(** Two tasks created at the readings 5 and 6, with an edit, a refused save
    and an undone deletion between them: the readings the events that
    create nothing carry (here 0) do not matter. *)
Lemma ids_unique_invariant_witness :
  NoDup (liveIds (run AppJs emptyStore
    [EvQuickAdd (mkClock 5 5) (js "Buy milk !");
     EvOpen (js "5");
     EvSave (mkClock 0 0) (mkForm (js "Buy bread") [] [] [] (js "doing"));
     EvSave (mkClock 0 0) (mkForm (js "  ") [] [] [] (js "todo"));
     EvOpen (js "5");
     EvDelete;
     EvQuickAdd (mkClock 6 7) (js "Ship report");
     EvUndo])).
Proof.
  refine (proj1 (ids_unique_invariant AppJs 0 emptyStore _ _ _ _ _)).
  - apply Inv_emptyStore with (c := 0%Z).
  - apply Inv_emptyStore with (c := 0%Z).
  - apply Inv_emptyStore.
  - cbv. repeat split; discriminate.
Defined.

(** * Further properties *)

(** ** Themes *)

Lemma applyTheme_slots (mode : jsstring) (ui : ThemeUi) :
  themeSlots (applyTheme mode ui) = setItem (themeSlots ui) themeKey mode.
Proof. unfold applyTheme. by case_decide. Qed.

Lemma applyTheme_dark (mode : jsstring) (ui : ThemeUi) :
  wrapperDark (applyTheme mode ui) = bool_decide (mode = s_dark).
Proof.
  unfold applyTheme. destruct (decide (mode = s_dark)); simpl;
    [by rewrite bool_decide_true | by rewrite bool_decide_false].
Qed.

Lemma applyTheme_again (mode : jsstring) (ui ui' : ThemeUi) :
  setItem (themeSlots ui') themeKey mode = setItem (themeSlots ui) themeKey mode ->
  applyTheme mode ui' = applyTheme mode ui.
Proof.
  intros H. unfold applyTheme.
  case_decide; cbn [wrapperDark toggleText toggleLabel themeSlots]; by rewrite H.
Qed.

Lemma Board_initTheme_eq (p : bool) (ui : ThemeUi) :
  Board_initTheme p ui = initTheme p ui.
Proof. unfold Board_initTheme, initTheme, applyTheme. by case_decide. Qed.

Lemma isInitTheme_eq (init : bool -> ThemeUi -> ThemeUi) (p : bool) (ui : ThemeUi) :
  isInitTheme init -> init p ui = initTheme p ui.
Proof. intros [-> | ->]; [done | apply Board_initTheme_eq]. Qed.

Lemma getItem_setItem (slots : gmap (list N) (list N)) (k v : list N) :
  getItem (setItem slots k v) k = Some v.
Proof. apply lookup_insert_eq. Qed.

Lemma getItem_setItem_ne (slots : gmap (list N) (list N)) (k k' v : list N) :
  k <> k' -> getItem (setItem slots k v) k' = getItem slots k'.
Proof. intros H. by apply lookup_insert_ne. Qed.

(** X1. The toggle button flips the theme: the wrapper turns dark if it was
    light and light if it was dark, the new theme is what the storage holds
    under the theme key, no other slot is written, and a further pair of
    clicks brings the page back to the same state. *)
Theorem toggleTheme_flips (ui : ThemeUi) :
  wrapperDark (toggleTheme ui) = negb (wrapperDark ui)
  /\ getItem (themeSlots (toggleTheme ui)) themeKey
     = Some (if wrapperDark ui then s_light else s_dark)
  /\ (forall k, k <> themeKey ->
        getItem (themeSlots (toggleTheme ui)) k = getItem (themeSlots ui) k)
  /\ toggleTheme (toggleTheme (toggleTheme ui)) = toggleTheme ui.
Proof.
  unfold toggleTheme. split; [|split; [|split]].
  - rewrite applyTheme_dark. by destruct (wrapperDark ui).
  - rewrite applyTheme_slots. apply getItem_setItem.
  - intros k Hk. rewrite applyTheme_slots. by apply getItem_setItem_ne.
  - assert (Hl : bool_decide (s_light = s_dark) = false) by (vm_compute; reflexivity).
    assert (Hd : bool_decide (s_dark = s_dark) = true) by (vm_compute; reflexivity).
    rewrite !applyTheme_dark.
    destruct (wrapperDark ui); rewrite ?Hl, ?Hd; cbv iota; rewrite ?Hl, ?Hd; cbv iota;
      apply applyTheme_again; rewrite !applyTheme_slots; unfold setItem;
      by rewrite !insert_insert_eq.
Qed.

(** X2. A theme that was applied is the one every page opens with, whatever
    the system prefers: the stored mode wins, and the page comes up in the
    state [applyTheme] left.  Without a stored mode (none, or the empty
    text) the page follows the system preference and stores it, so that a
    later change of the system preference changes nothing. *)
Theorem initTheme_stored_wins (init : bool -> ThemeUi -> ThemeUi) (ui : ThemeUi) :
  isInitTheme init ->
  (forall mode ui' p,
     mode <> [] -> themeSlots ui' = themeSlots (applyTheme mode ui) ->
     init p ui' = applyTheme mode ui)
  /\ (forall p,
        truthy (getItem (themeSlots ui) themeKey) = false ->
        wrapperDark (init p ui) = p
        /\ getItem (themeSlots (init p ui)) themeKey
           = Some (if p then s_dark else s_light))
  /\ (forall p p', init p' (init p ui) = init p ui).
Proof.
  intros Hinit.
  assert (Hstored : forall mode ui0 ui' p,
            mode <> [] -> themeSlots ui' = themeSlots (applyTheme mode ui0) ->
            initTheme p ui' = applyTheme mode ui0).
  { intros mode ui0 ui' p Hmode Hslots. unfold initTheme.
    rewrite Hslots, applyTheme_slots, getItem_setItem.
    destruct mode as [|c mode]; [done|]. cbn [truthy isNil negb default].
    apply applyTheme_again. rewrite Hslots, applyTheme_slots. unfold setItem.
    by rewrite insert_insert_eq. }
  split; [|split].
  - intros mode ui' p Hmode Hslots. rewrite (isInitTheme_eq _ _ _ Hinit). eauto.
  - intros p Hnone. rewrite (isInitTheme_eq _ _ _ Hinit). unfold initTheme.
    rewrite Hnone. cbn [negb default].
    rewrite applyTheme_dark, applyTheme_slots, getItem_setItem.
    split; [|done]. by destruct p.
  - intros p p'. rewrite !(isInitTheme_eq _ _ _ Hinit). unfold initTheme at 2 3.
    destruct (truthy (getItem (themeSlots ui) themeKey)) eqn:Ht; cbn [negb default].
    + destruct (getItem (themeSlots ui) themeKey) as [[|c mode]|]; try done.
      by apply Hstored.
    + apply Hstored; [by destruct p | done].
Qed.

Lemma initTheme_stored_wins_witness :
  wrapperDark
    (Board_initTheme false
       (mkThemeUi false [] [] (themeSlots (applyTheme s_dark (mkThemeUi false [] [] ∅)))))
  = true.
Proof.
  destruct (initTheme_stored_wins Board_initTheme (mkThemeUi false [] [] ∅)
              (or_intror eq_refl)) as (H & _).
  rewrite (H s_dark _ false); [reflexivity | discriminate | reflexivity].
Defined.

(** ** Signing in and out *)

Lemma testAnchored_spec (r : regex) (s : jsstring) :
  testAnchored r s = true <-> exists g, Matches r s g.
Proof.
  unfold testAnchored. rewrite existsb_exists. split.
  - intros ([g rest] & Hin & Hnil). destruct rest; [|done].
    apply matchAt_spec in Hin as (m & Hs & Hm). rewrite app_nil_r in Hs.
    subst. eauto.
  - intros (g & Hm). exists (g, []). split; [|done].
    apply matchAt_spec. exists s. by rewrite app_nil_r.
Qed.

Lemma Matches_Plus_inv (p : char16 -> bool) (m : jsstring) (g : option jsstring) :
  Matches (Plus p) m g -> g = None /\ m <> [] /\ forallb p m = true.
Proof. inversion 1; subst; auto. Qed.

Lemma Matches_Seq_inv (r1 r2 : regex) (m : jsstring) (g : option jsstring) :
  Matches (Seq r1 r2) m g ->
  exists m1 m2 g1 g2,
    m = m1 ++ m2 /\ g = orElse g2 g1 /\ Matches r1 m1 g1 /\ Matches r2 m2 g2.
Proof. inversion 1; subst. eauto 10. Qed.

Lemma Matches_lit_inv (c : char16) (m : jsstring) (g : option jsstring) :
  Matches (lit c) m g -> g = None /\ m = [c].
Proof.
  unfold lit. inversion 1 as [p c' Hc| | | | |]; subst. split; [done|].
  unfold isChar in Hc. apply N.eqb_eq in Hc. by subst.
Qed.

Lemma Matches_emailRe (email : jsstring) :
  (exists g, Matches emailRe email g) <->
  exists l a b,
    email = l ++ c_at :: a ++ c_dot :: b
    /\ l <> [] /\ a <> [] /\ b <> []
    /\ forallb notSpaceOrAt l = true
    /\ forallb notSpaceOrAt a = true
    /\ forallb notSpaceOrAt b = true.
Proof.
  unfold emailRe. cbn [seqs]. split.
  - intros (g & H).
    apply Matches_Seq_inv in H as (l & m1 & g1 & g2 & -> & _ & Hl & H).
    apply Matches_Plus_inv in Hl as (_ & Hl & Hpl).
    apply Matches_Seq_inv in H as (x & m2 & g3 & g4 & -> & _ & Hx & H).
    apply Matches_lit_inv in Hx as (_ & ->).
    apply Matches_Seq_inv in H as (a & m3 & g5 & g6 & -> & _ & Ha & H).
    apply Matches_Plus_inv in Ha as (_ & Ha & Hpa).
    apply Matches_Seq_inv in H as (y & b & g7 & g8 & -> & _ & Hy & Hb).
    apply Matches_lit_inv in Hy as (_ & ->).
    apply Matches_Plus_inv in Hb as (_ & Hb & Hpb).
    exists l, a, b. simpl. auto 10.
  - intros (l & a & b & -> & Hl & Ha & Hb & Hpl & Hpa & Hpb).
    exists (orElse (orElse (orElse (orElse None None) None) None) None).
    apply M_Seq; [by apply M_Plus|].
    change (c_at :: a ++ c_dot :: b) with ([c_at] ++ a ++ [c_dot] ++ b).
    apply M_Seq; [apply M_Cls; reflexivity|].
    apply M_Seq; [by apply M_Plus|].
    apply M_Seq; [apply M_Cls; reflexivity | by apply M_Plus].
Qed.

Lemma forallb_count_none (c : char16) (m : jsstring) :
  forallb notSpaceOrAt m = true -> c = c_at \/ isWhiteSpace c = true ->
  count_occ N.eq_dec m c = 0%nat.
Proof.
  intros Hm Hc. apply count_occ_not_In. intros Hin.
  rewrite forallb_forall in Hm. specialize (Hm _ Hin). unfold notSpaceOrAt in Hm.
  apply negb_true_iff, orb_false_iff in Hm as [Hw Ha].
  destruct Hc as [-> | Hc]; [|congruence].
  unfold isChar in Ha. by rewrite N.eqb_refl in Ha.
Qed.

(** X3. [validateEmail] accepts exactly the texts made of a name, an at
    sign and a domain in which a dot has something before and after it,
    all free of white space and further at signs.  So an accepted address
    has one at sign and no white space; nothing more is checked. *)
Theorem validateEmail_shape (email : jsstring) :
  (validateEmail email = true <->
   exists l a b,
     email = l ++ c_at :: a ++ c_dot :: b
     /\ l <> [] /\ a <> [] /\ b <> []
     /\ forallb notSpaceOrAt (l ++ a ++ b) = true)
  /\ (validateEmail email = true ->
      count_occ N.eq_dec email c_at = 1%nat
      /\ forallb (fun c => negb (isWhiteSpace c)) email = true
      /\ (5 <= length email)%nat)
  /\ validateEmail (js "a@b.c") = true
  /\ validateEmail (js "a@b") = false
  /\ validateEmail (js "a@@b.c") = false
  /\ validateEmail (js "a@b.c ") = false.
Proof.
  assert (Hshape : validateEmail email = true <->
            exists l a b,
              email = l ++ c_at :: a ++ c_dot :: b
              /\ l <> [] /\ a <> [] /\ b <> []
              /\ forallb notSpaceOrAt (l ++ a ++ b) = true).
  { unfold validateEmail. rewrite testAnchored_spec, Matches_emailRe.
    split; intros (l & a & b & H); exists l, a, b.
    - destruct H as (-> & Hl & Ha & Hb & Hpl & Hpa & Hpb).
      rewrite !forallb_app, Hpl, Hpa, Hpb. auto.
    - destruct H as (-> & Hl & Ha & Hb & Hp).
      rewrite !forallb_app in Hp. apply andb_prop in Hp as [Hpl Hp].
      apply andb_prop in Hp as [Hpa Hpb]. auto 10. }
  split; [exact Hshape|]. split; [|by vm_compute].
  intros (l & a & b & -> & Hl & Ha & Hb & Hp)%Hshape.
  rewrite !forallb_app in Hp. apply andb_prop in Hp as [Hpl Hp].
  apply andb_prop in Hp as [Hpa Hpb].
  assert (Hdot : isWhiteSpace c_dot = false) by reflexivity.
  assert (Hat : isWhiteSpace c_at = false) by reflexivity.
  assert (Hws : forall m, forallb notSpaceOrAt m = true ->
                          forallb (fun c => negb (isWhiteSpace c)) m = true).
  { intros m Hm. rewrite forallb_forall in Hm |- *. intros c Hc.
    specialize (Hm _ Hc). unfold notSpaceOrAt in Hm.
    apply negb_true_iff, orb_false_iff in Hm as [-> _]. done. }
  split; [|split].
  - rewrite count_occ_app. cbn [count_occ].
    destruct (N.eq_dec c_at c_at) as [_|]; [|done].
    rewrite count_occ_app. cbn [count_occ].
    destruct (N.eq_dec c_dot c_at) as [Hx|_]; [discriminate Hx|].
    rewrite !forallb_count_none by auto. reflexivity.
  - rewrite forallb_app. cbn [forallb]. rewrite forallb_app. cbn [forallb].
    rewrite Hat, Hdot, !Hws by done. reflexivity.
  - rewrite length_app. cbn [length]. rewrite length_app. cbn [length].
    destruct l, a, b; simpl; try done; lia.
Qed.

Lemma loadTasks_slot (slots slots' : gmap (list N) (list N)) :
  getItem slots' tasksKey = getItem slots tasksKey ->
  loadTasks slots' = loadTasks slots /\ Stats_tasks slots' = Stats_tasks slots.
Proof.
  intros H. unfold Stats_tasks, Stats_loadTasks, loadTasks. by rewrite H.
Qed.

Lemma signin_session_slots (emailInput : jsstring) (p : SigninPage) :
  validateEmail (trim emailInput) = true ->
  getItem (signinSlots (Signin_submit emailInput p)) loggedInKey = Some (js "true")
  /\ getItem (signinSlots (Signin_submit emailInput p)) tasksKey
     = getItem (signinSlots p) tasksKey.
Proof.
  intros Hv. unfold Signin_submit. rewrite Hv. cbn [negb signinSlots].
  rewrite !(getItem_setItem_ne _ userEmailKey) by done.
  rewrite getItem_setItem, getItem_setItem_ne by done. done.
Qed.

(** X4. Submitting an address that [validateEmail] accepts, white space
    around it aside, stores the session, the flag and the trimmed address,
    and touches no other slot; from then on the board and the stats page
    open on the tasks that were stored, and the sign-in page forwards to
    the board.  A rejected address changes nothing but the message. *)
Theorem signin_opens_board (emailInput : jsstring) (p : SigninPage) :
  (validateEmail (trim emailInput) = true ->
   getItem (signinSlots (Signin_submit emailInput p)) loggedInKey = Some (js "true")
   /\ getItem (signinSlots (Signin_submit emailInput p)) userEmailKey
      = Some (trim emailInput)
   /\ (forall k, k <> loggedInKey -> k <> userEmailKey ->
         getItem (signinSlots (Signin_submit emailInput p)) k
         = getItem (signinSlots p) k)
   /\ signinTimer (Signin_submit emailInput p) = Some board_html
   /\ Board_init (signinSlots (Signin_submit emailInput p))
      = inr (loadTasks (signinSlots p))
   /\ Stats_open (signinSlots (Signin_submit emailInput p))
      = inr (Stats_tasks (signinSlots p))
   /\ Signin_open (signinSlots (Signin_submit emailInput p)) = Some board_html)
  /\ (validateEmail (trim emailInput) = false ->
      Signin_submit emailInput p
      = mkSigninPage (signinSlots p) (Some InvalidEmail) (signinTimer p)).
Proof.
  unfold Signin_submit. split; intros Hv; rewrite Hv; cbn [negb]; [|done].
  cbn [signinSlots signinTimer].
  assert (Hin : getItem (setItem (setItem (signinSlots p) loggedInKey (js "true"))
                           userEmailKey (trim emailInput)) loggedInKey
                = Some (js "true")).
  { rewrite getItem_setItem_ne by done. apply getItem_setItem. }
  assert (Hother : forall k, k <> loggedInKey -> k <> userEmailKey ->
            getItem (setItem (setItem (signinSlots p) loggedInKey (js "true"))
                       userEmailKey (trim emailInput)) k
            = getItem (signinSlots p) k).
  { intros k H1 H2. by rewrite !getItem_setItem_ne. }
  destruct (loadTasks_slot (signinSlots p) _ (Hother tasksKey ltac:(done) ltac:(done)))
    as [Hload Hstats].
  split; [exact Hin|]. split; [apply getItem_setItem|]. split; [exact Hother|].
  split; [done|]. unfold Board_init, Stats_open, Signin_open.
  rewrite Hin, Hload, Hstats. done.
Qed.

Lemma signin_opens_board_witness :
  Board_init (signinSlots (Signin_submit (js " ann@example.org ")
                             (mkSigninPage ∅ None None)))
  = inr (loadTasks ∅).
Proof.
  destruct (signin_opens_board (js " ann@example.org ") (mkSigninPage ∅ None None))
    as (H & _).
  apply H. vm_compute. reflexivity.
Defined.

(** X5. Signing out ends the session and nothing else: the board and the
    stats page send the browser to the sign-in page, which stays, while
    the tasks and the theme remain in the storage, so that the next
    address to sign in on this browser opens the board on the same
    tasks. *)
Theorem signOut_keeps_tasks (slots : gmap (list N) (list N)) :
  snd (Board_signOut slots) = landing_html
  /\ Board_init (fst (Board_signOut slots)) = inl signin_html
  /\ Stats_open (fst (Board_signOut slots)) = inl signin_html
  /\ Signin_open (fst (Board_signOut slots)) = None
  /\ getItem (fst (Board_signOut slots)) userEmailKey = None
  /\ (forall k, k <> loggedInKey -> k <> userEmailKey ->
        getItem (fst (Board_signOut slots)) k = getItem slots k)
  /\ (forall emailInput p,
        validateEmail (trim emailInput) = true ->
        signinSlots p = fst (Board_signOut slots) ->
        Board_init (signinSlots (Signin_submit emailInput p))
        = inr (loadTasks slots)).
Proof.
  unfold Board_signOut. cbn [fst snd]. unfold removeItem.
  assert (Hout : getItem (delete userEmailKey (delete loggedInKey slots)) loggedInKey
                 = None).
  { unfold getItem. rewrite lookup_delete_ne by done. apply lookup_delete_eq. }
  assert (Hother : forall k, k <> loggedInKey -> k <> userEmailKey ->
            getItem (delete userEmailKey (delete loggedInKey slots)) k
            = getItem slots k).
  { intros k H1 H2. unfold getItem. by rewrite !lookup_delete_ne. }
  split; [done|]. unfold Board_init, Stats_open, Signin_open. rewrite Hout.
  split; [done|]. split; [done|]. split; [done|].
  split; [apply lookup_delete_eq|]. split; [exact Hother|].
  intros emailInput p Hv Hp.
  destruct (signin_session_slots emailInput p Hv) as (Hin & Htasks).
  unfold Board_init. rewrite Hin. cbn [truthy isNil negb].
  f_equal. apply loadTasks_slot. rewrite Htasks, Hp. by apply Hother.
Qed.

(** ** Sorting *)

Section sorting.
Context {A : Type} (cmp : A -> A -> Z) (f : A -> Z).
Hypothesis cmp_key : forall a b, (cmp a b <= 0)%Z <-> (f a <= f b)%Z.

Lemma insertSorted_perm (x : A) (l : list A) : insertSorted cmp x l ≡ₚ x :: l.
Proof.
  induction l as [|y l IH]; simpl; [done|].
  destruct (cmp x y <=? 0)%Z; [done|]. rewrite IH. apply Permutation_swap.
Qed.

Lemma Array_sort_perm (l : list A) : Array_sort cmp l ≡ₚ l.
Proof.
  induction l as [|x l IH]; simpl; [done|].
  by rewrite insertSorted_perm, IH.
Qed.

Lemma Array_sort_length (l : list A) : length (Array_sort cmp l) = length l.
Proof. by rewrite Array_sort_perm. Qed.

Lemma insertSorted_sorted (x : A) (l : list A) :
  StronglySorted (fun a b => (f a <= f b)%Z) l ->
  StronglySorted (fun a b => (f a <= f b)%Z) (insertSorted cmp x l).
Proof.
  induction 1 as [|y l Hl IH Hy]; simpl.
  - constructor; constructor.
  - destruct (cmp x y <=? 0)%Z eqn:Hc.
    + apply Z.leb_le, cmp_key in Hc. constructor; [by constructor|].
      constructor; [done|]. eapply List.Forall_impl; [|exact Hy].
      intros z Hz. simpl in Hz. lia.
    + apply Z.leb_gt in Hc.
      assert (Hyx : (f y <= f x)%Z).
      { destruct (Z.le_gt_cases (f x) (f y)) as [H|H]; [|lia].
        apply cmp_key in H. lia. }
      constructor; [exact IH|].
      rewrite insertSorted_perm. constructor; [done | exact Hy].
Qed.

Lemma Array_sort_sorted (l : list A) :
  StronglySorted (fun a b => (f a <= f b)%Z) (Array_sort cmp l).
Proof.
  induction l as [|x l IH]; simpl; [constructor|]. by apply insertSorted_sorted.
Qed.

(** The sort is stable: the elements of one key keep their order. *)
Lemma insertSorted_stable (z : Z) (x : A) (l : list A) :
  List.filter (fun a => (f a =? z)%Z) (insertSorted cmp x l)
  = List.filter (fun a => (f a =? z)%Z) (x :: l).
Proof.
  induction l as [|y l IH]; simpl; [done|].
  destruct (cmp x y <=? 0)%Z eqn:Hc; [done|]. simpl. simpl in IH. rewrite IH.
  apply Z.leb_gt in Hc.
  assert (Hxy : (f y < f x)%Z).
  { destruct (Z.le_gt_cases (f x) (f y)) as [H|H]; [|lia].
    apply cmp_key in H. lia. }
  destruct (f x =? z)%Z eqn:Hx, (f y =? z)%Z eqn:Hy; try done.
  apply Z.eqb_eq in Hx, Hy. lia.
Qed.

Lemma Array_sort_stable (z : Z) (l : list A) :
  List.filter (fun a => (f a =? z)%Z) (Array_sort cmp l)
  = List.filter (fun a => (f a =? z)%Z) l.
Proof.
  induction l as [|x l IH]; simpl; [done|].
  rewrite insertSorted_stable. simpl. by rewrite IH.
Qed.

End sorting.

Lemma insertSorted_ext {A} (cmp cmp' : A -> A -> Z) (x : A) (l : list A) :
  (forall y, y ∈ l -> cmp x y = cmp' x y) ->
  insertSorted cmp x l = insertSorted cmp' x l.
Proof.
  induction l as [|y l IH]; intros H; simpl; [done|].
  rewrite (H y) by left. rewrite IH; [done|]. intros z Hz. apply H. by right.
Qed.

Lemma Array_sort_ext {A} (cmp cmp' : A -> A -> Z) (l : list A) :
  (forall x y, x ∈ l -> y ∈ l -> cmp x y = cmp' x y) ->
  Array_sort cmp l = Array_sort cmp' l.
Proof.
  induction l as [|x l IH]; intros H; simpl; [done|].
  rewrite IH by (intros; apply H; by right).
  apply insertSorted_ext. intros y Hy. rewrite Array_sort_perm in Hy.
  apply H; [by left | by right].
Qed.

(** ** Rendering the board *)

Lemma createdAt_cmp (a b : Task) :
  (t_createdAt a - t_createdAt b <= 0)%Z <-> (t_createdAt a <= t_createdAt b)%Z.
Proof. lia. Qed.

Lemma renderBoard_column (s : Store) (col : Column) :
  col ∈ renderBoard s ->
  (col_status col = s_todo \/ col_status col = s_doing \/ col_status col = s_done)
  /\ col_count col
     = length (List.filter (fun t => bool_decide (t_status t = Some (col_status col)))
                           (getAll s))
  /\ col_cards col
     = Array_sort (fun a b => (t_createdAt a - t_createdAt b)%Z)
         (List.filter (fun t => bool_decide (t_status t = Some (col_status col)))
                      (getAll s)).
Proof.
  unfold renderBoard, statuses. cbn [map fst snd].
  intros H. repeat (apply elem_of_cons in H as [-> | H]); cbn; auto.
  by apply elem_of_nil in H.
Qed.

Lemma filter_status_split (l : list Task) :
  length (List.filter onBoard l)
  = (length (List.filter (fun t => bool_decide (t_status t = Some s_todo)) l)
     + (length (List.filter (fun t => bool_decide (t_status t = Some s_doing)) l)
        + (length (List.filter (fun t => bool_decide (t_status t = Some s_done)) l)
           + 0)))%nat.
Proof.
  induction l as [|t l IH]; [done|]. cbn [List.filter]. unfold onBoard at 1.
  repeat case_bool_decide; cbn [orb length]; try lia;
    match goal with
    | H1 : t_status t = Some ?a, H2 : t_status t = Some ?b |- _ =>
        rewrite H1 in H2; vm_compute in H2; discriminate H2
    end.
Qed.

Lemma renderBoard_member (s : Store) (col : Column) (t : Task) :
  col ∈ renderBoard s ->
  (t ∈ col_cards col <-> t ∈ getAll s /\ t_status t = Some (col_status col)).
Proof.
  intros (_ & _ & ->)%renderBoard_column.
  rewrite Array_sort_perm, list_elem_of_In, filter_In, <- list_elem_of_In.
  by rewrite bool_decide_eq_true.
Qed.

(** X6. The board shows the three columns to do, in progress and done, in
    this order, and a task of the collection is on a card of a column
    exactly when its status is the key of that column.  A task with any
    other status, or with none, is on no card, though it stays in the
    collection; the chips add up to the number of tasks that are shown. *)
Theorem renderBoard_columns (s : Store) :
  map col_status (renderBoard s) = [s_todo; s_doing; s_done]
  /\ (forall col t,
        col ∈ renderBoard s ->
        (t ∈ col_cards col <-> t ∈ getAll s /\ t_status t = Some (col_status col)))
  /\ (forall col t,
        col ∈ renderBoard s -> onBoard t = false -> t ∉ col_cards col)
  /\ foldr Nat.add 0%nat (map col_count (renderBoard s))
     = length (List.filter onBoard (getAll s))
  /\ (length (getAll s)
      = foldr Nat.add 0%nat (map col_count (renderBoard s))
        + length (List.filter (fun t => negb (onBoard t)) (getAll s)))%nat.
Proof.
  pose proof (renderBoard_member s) as Hmem.
  assert (Hsum : foldr Nat.add 0%nat (map col_count (renderBoard s))
                 = length (List.filter onBoard (getAll s))).
  { rewrite filter_status_split. reflexivity. }
  split; [reflexivity|]. split; [exact Hmem|]. split; [|split; [exact Hsum|]].
  - intros col t Hcol Hoff Hin. apply (Hmem _ _ Hcol) in Hin as [_ Hst].
    apply renderBoard_column in Hcol as (Hkey & _). unfold onBoard in Hoff.
    destruct Hkey as [Hk | [Hk | Hk]]; rewrite Hk in Hst;
      repeat case_bool_decide; simpl in Hoff; done.
  - rewrite Hsum. clear. induction (getAll s) as [|t l IH]; [done|].
    cbn [List.filter]. destruct (onBoard t); simpl in *; lia.
Qed.

(** X7. The cards of a column are the tasks of its status, each once for
    every time the collection holds it, ordered by the time of creation
    from the oldest to the newest; tasks created at the same time keep the
    order of the collection, and the chip shows the number of cards. *)
Theorem renderBoard_order (s : Store) (col : Column) :
  col ∈ renderBoard s ->
  col_cards col
  ≡ₚ List.filter (fun t => bool_decide (t_status t = Some (col_status col))) (getAll s)
  /\ StronglySorted (fun a b => (t_createdAt a <= t_createdAt b)%Z) (col_cards col)
  /\ (forall z,
        List.filter (fun t => (t_createdAt t =? z)%Z) (col_cards col)
        = List.filter (fun t => (t_createdAt t =? z)%Z)
            (List.filter (fun t => bool_decide (t_status t = Some (col_status col)))
                         (getAll s)))
  /\ col_count col = length (col_cards col).
Proof.
  intros (_ & Hcount & Hcards)%renderBoard_column. rewrite Hcards, Hcount.
  split; [apply Array_sort_perm|]. split; [|split].
  - apply (Array_sort_sorted _ t_createdAt createdAt_cmp).
  - intros z. apply (Array_sort_stable _ t_createdAt createdAt_cmp).
  - by rewrite Array_sort_length.
Qed.

Lemma renderBoard_order_witness :
  col_cards
    (mkColumn s_todo (js "To Do") 2
       [mkTask (js "1") (js "a") None None (Some s_todo) None 1;
        mkTask (js "2") (js "b") None None (Some s_todo) None 2])
  ≡ₚ List.filter (fun t => bool_decide (t_status t = Some s_todo))
       (getAll (mkStore [mkTask (js "2") (js "b") None None (Some s_todo) None 2;
                         mkTask (js "1") (js "a") None None (Some s_todo) None 1;
                         mkTask (js "3") (js "c") None None (Some s_done) None 3]
                        [0; 1; 2]%nat None None false ∅)).
Proof.
  refine (proj1 (renderBoard_order _ _ _)).
  apply list_elem_of_lookup. exists 0%nat. reflexivity.
Defined.

(** ** The priority and owner sections of the stats page *)

Lemma priorityCounts_fold (tasks : list Task) (st : Stats) :
  priorityCounts (fold_left tally tasks st)
  = fold_left increment (map priorityKey tasks) (priorityCounts st).
Proof. revert st. induction tasks as [|t tasks IH]; intros st; simpl; [done|]. by rewrite IH. Qed.

Lemma ownerCounts_fold (tasks : list Task) (st : Stats) :
  ownerCounts (fold_left tally tasks st)
  = fold_left increment (map ownerKey tasks) (ownerCounts st).
Proof. revert st. induction tasks as [|t tasks IH]; intros st; simpl; [done|]. by rewrite IH. Qed.

Lemma filter_map_key (key : Task -> jsstring) (k : list N) (tasks : list Task) :
  length (List.filter (fun x => bool_decide (x = k)) (map key tasks))
  = inBucketBy key k tasks.
Proof.
  unfold inBucketBy. induction tasks as [|t tasks IH]; simpl; [done|].
  case_bool_decide; simpl; by rewrite IH.
Qed.

Lemma tally_counts (key : Task -> jsstring) (tasks : list Task) :
  (forall k, ~ inheritedName k ->
     fold_left increment (map key tasks) ∅ !! k = cellOfCount (inBucketBy key k tasks))
  /\ (Forall (fun t => ~ inheritedName (key t)) tasks ->
      totalCount (fold_left increment (map key tasks) ∅) = length tasks).
Proof.
  split.
  - intros k Hk. rewrite fold_increment, filter_map_key by done.
    rewrite lookup_empty. by destruct (inBucketBy key k tasks).
  - intros Hall. rewrite fold_increment_total.
    + rewrite length_map. unfold totalCount. rewrite map_fold_empty. lia.
    + by apply Forall_map.
    + intros k. by rewrite lookup_empty.
Qed.

(** X8. In the priority section a task without a priority, or with the
    empty one, is counted under "none" and any other under its priority
    as written.  For a key that is no name inherited from
    [Object.prototype] the count is the number of tasks of the bucket, and
    when no task has such a name for its priority the counts add up to the
    size of the collection. *)
Theorem priority_counts_buckets (tasks : list Task) :
  (forall t,
     (t_priority t = None \/ t_priority t = Some [] -> priorityKey t = js "none")
     /\ (forall p, t_priority t = Some p -> p <> [] -> priorityKey t = p))
  /\ (forall k, ~ inheritedName k ->
        priorityCounts (computeStats tasks) !! k
        = cellOfCount (inBucketBy priorityKey k tasks))
  /\ (Forall (fun t => ~ inheritedName (priorityKey t)) tasks ->
      totalCount (priorityCounts (computeStats tasks)) = length tasks).
Proof.
  split; [|split].
  - intros t. unfold priorityKey. split.
    + by intros [-> | ->].
    + intros p -> Hp. by destruct p.
  - intros k Hk. unfold computeStats. rewrite priorityCounts_fold.
    by apply tally_counts.
  - intros Hall. unfold computeStats. rewrite priorityCounts_fold.
    by apply tally_counts.
Qed.

Lemma trim_nil_nil : trim [] = [].
Proof. reflexivity. Qed.

(** X9. In the owner section tasks are grouped by the owner with the white
    space around it removed, so that owners written with different spacing
    share a bucket; a task without an owner, or with one that is empty or
    all white space, is counted under "Unassigned".  The count of a key
    that is no inherited name is the number of tasks of its bucket. *)
Theorem owner_counts_buckets (tasks : list Task) :
  (forall t,
     (forall o, t_owner t = Some o -> trim o <> [] -> ownerKey t = trim o)
     /\ (t_owner t = None \/ (exists o, t_owner t = Some o /\ trim o = []) ->
         ownerKey t = js "Unassigned"))
  /\ (forall t t' o o',
        t_owner t = Some o -> t_owner t' = Some o' -> trim o = trim o' ->
        ownerKey t = ownerKey t')
  /\ (forall k, ~ inheritedName k ->
        ownerCounts (computeStats tasks) !! k
        = cellOfCount (inBucketBy ownerKey k tasks))
  /\ (Forall (fun t => ~ inheritedName (ownerKey t)) tasks ->
      totalCount (ownerCounts (computeStats tasks)) = length tasks).
Proof.
  assert (Hkey : forall t o, t_owner t = Some o ->
            ownerKey t = if isNil (trim o) then js "Unassigned" else trim o).
  { intros t o Ho. unfold ownerKey. rewrite Ho.
    destruct o as [|c o]; [done|]. cbn [isNil negb andb].
    by destruct (trim (c :: o)). }
  split; [|split; [|split]].
  - intros t. split.
    + intros o Ho Hne. rewrite (Hkey _ _ Ho). by destruct (trim o).
    + intros [Hnone | (o & Ho & Hnil)].
      * unfold ownerKey. by rewrite Hnone.
      * rewrite (Hkey _ _ Ho), Hnil. done.
  - intros t t' o o' Ho Ho' Heq. by rewrite (Hkey _ _ Ho), (Hkey _ _ Ho'), Heq.
  - intros k Hk. unfold computeStats. rewrite ownerCounts_fold.
    by apply tally_counts.
  - intros Hall. unfold computeStats. rewrite ownerCounts_fold.
    by apply tally_counts.
Qed.

(** ** Rendering a section *)

Lemma countDiff_counts (data : gmap (list N) Cell) (keys : list (list N)) :
  (forall k, k ∈ keys -> exists n, data !! k = Some (Count n)) ->
  forall a b, a ∈ keys -> b ∈ keys ->
    countDiff data a b
    = (- Z.of_nat (countOfKey data a) - - Z.of_nat (countOfKey data b))%Z.
Proof.
  intros H a b Ha Hb. destruct (H a Ha) as [x Hx], (H b Hb) as [y Hy].
  unfold countDiff, countOfKey. rewrite Hx, Hy. simpl. lia.
Qed.

(** X10. A section of the stats page whose object has no key shows "No
    data" and nothing else.  Otherwise it shows one item for every key,
    with the value of the key, and, the values being counts, the items go
    from the highest count to the lowest; keys of equal count stay in the
    order in which the host lists them.  A key the label map knows is
    shown by its label and any other key that is no inherited name by
    itself; the owner section, which has no label map, shows every key as
    it is. *)
Theorem renderList_order (keys : list (list N)) (data : gmap (list N) Cell)
    (labelMap : option (list (list N * list N))) :
  (forall k, k ∈ keys -> exists n, data !! k = Some (Count n)) ->
  (renderList keys data labelMap = NoData <-> keys = [])
  /\ (keys <> [] ->
      exists sorted,
        renderList keys data labelMap
        = Items (map (fun key => mkItem (labelOf labelMap key) (data !! key)) sorted)
        /\ sorted ≡ₚ keys
        /\ StronglySorted (fun a b => (countOfKey data b <= countOfKey data a)%nat) sorted
        /\ (forall n,
              List.filter (fun k => (countOfKey data k =? n)%nat) sorted
              = List.filter (fun k => (countOfKey data k =? n)%nat) keys))
  /\ (forall lm key label, lookupLabel lm key = Some label ->
        labelOf (Some lm) key = LabelText label)
  /\ (forall lm key, lookupLabel lm key = None -> ~ inheritedName key ->
        labelOf (Some lm) key = LabelText key)
  /\ (forall key, labelOf None key = LabelText key)
  /\ map (labelOf (Some statusLabels)) [js "todo"; js "doing"; js "done"; js "unknown"]
     = [LabelText (js "To Do"); LabelText (js "In Progress"); LabelText (js "Done");
        LabelText (js "unknown")]
  /\ map (labelOf (Some priorityLabels)) [js "none"; js "high"; js "medium"; js "low"]
     = [LabelText (js "None"); LabelText (js "High"); LabelText (js "Medium");
        LabelText (js "Low")].
Proof.
  intros Hcounts. split; [|split; [|split; [|split; [|split; [|split]]]]].
  - unfold renderList. destruct keys; simpl; split; done.
  - intros Hne. exists (Array_sort (countDiff data) keys).
    set (f := fun k => (- Z.of_nat (countOfKey data k))%Z).
    assert (Hext : Array_sort (countDiff data) keys
                   = Array_sort (fun a b => (f a - f b)%Z) keys).
    { apply Array_sort_ext. intros x y Hx Hy. by apply (countDiff_counts data keys). }
    assert (Hcmp : forall a b : list N, (f a - f b <= 0)%Z <-> (f a <= f b)%Z)
      by (intros; lia).
    split; [|split; [|split]].
    + unfold renderList. destruct keys; [done | reflexivity].
    + apply Array_sort_perm.
    + rewrite Hext.
      generalize (Array_sort_sorted _ f Hcmp keys).
      generalize (Array_sort (fun a b => (f a - f b)%Z) keys). intros l Hs.
      induction Hs as [|a l Hl IH Ha]; constructor; [exact IH|].
      eapply List.Forall_impl; [|exact Ha]. intros b Hb. unfold f in Hb. simpl in Hb. lia.
    + intros n. rewrite Hext.
      pose proof (Array_sort_stable _ f Hcmp (- Z.of_nat n) keys) as Hs.
      assert (Hf : forall l : list (list N),
                List.filter (fun k => (countOfKey data k =? n)%nat) l
                = List.filter (fun a => (f a =? - Z.of_nat n)%Z) l).
      { intros l. apply filter_ext. intros k. unfold f.
        destruct (Nat.eqb_spec (countOfKey data k) n) as [->|Hn].
        - by rewrite Z.eqb_refl.
        - symmetry. apply Z.eqb_neq. lia. }
      by rewrite !Hf.
  - intros lm key label Hl. unfold labelOf. by rewrite Hl.
  - intros lm key Hl Hin. unfold labelOf. rewrite Hl.
    destruct (decide (key = protoAccessor)); [exfalso; apply Hin; by left|].
    destruct (decide (key ∈ inheritedMethods)); [exfalso; apply Hin; by right|]. done.
  - done.
  - vm_compute. reflexivity.
  - vm_compute. reflexivity.
Qed.

Lemma renderList_order_witness :
  renderList [js "todo"; js "done"]
    (<[js "done" := Count 2]> (<[js "todo" := Count 1]> ∅)) (Some statusLabels)
  = NoData <-> [js "todo"; js "done"] = [].
Proof.
  refine (proj1 (renderList_order _ _ _ _)).
  intros k Hk. apply elem_of_cons in Hk as [-> | Hk]; [by exists 1%nat|].
  apply elem_of_cons in Hk as [-> | Hk]; [by exists 2%nat|].
  by apply elem_of_nil in Hk.
Defined.

(** A section of two keys, rendered: done comes before to do. *)
Example renderList_two :
  renderList [js "todo"; js "done"]
    (<[js "done" := Count 2]> (<[js "todo" := Count 1]> ∅)) (Some statusLabels)
  = Items [mkItem (LabelText (js "Done")) (Some (Count 2));
           mkItem (LabelText (js "To Do")) (Some (Count 1))].
Proof. vm_compute. reflexivity. Qed.

(** ** The stats page and the board *)

Lemma statusKey_column (t : Task) (key : list N) :
  key = s_todo \/ key = s_doing \/ key = s_done ->
  bool_decide (statusKey t = key) = bool_decide (t_status t = Some key).
Proof.
  intros Hkey. apply bool_decide_ext. unfold statusKey.
  destruct (t_status t) as [[|c st]|]; cbn [orDefault isNil].
  - split; [intros <- | intros [= <-]]; by destruct Hkey as [H | [H | H]].
  - split; [by intros -> | by intros [= ->]].
  - split; [|done]. intros <-. by destruct Hkey as [H | [H | H]].
Qed.

Lemma column_not_inherited (key : list N) :
  key = s_todo \/ key = s_doing \/ key = s_done -> ~ inheritedName key.
Proof.
  intros Hkey [Hp | Hm].
  - by destruct Hkey as [-> | [-> | ->]].
  - revert Hm. apply (bool_decide_unpack _).
    by destruct Hkey as [-> | [-> | ->]]; vm_compute.
Qed.

(** X11. The stats page and the board count alike.  For each of the three
    columns the status section holds, under the key of the column, the
    number on the chip of the column; a column without cards has no item
    in the section at all. *)
Theorem stats_agree_with_board (s : Store) (col : Column) :
  col ∈ renderBoard s ->
  statusCounts (computeStats (getAll s)) !! col_status col = cellOfCount (col_count col)
  /\ (col_count col = 0%nat <->
      statusCounts (computeStats (getAll s)) !! col_status col = None)
  /\ (forall n, col_count col = S n ->
        statusCounts (computeStats (getAll s)) !! col_status col = Some (Count (S n))).
Proof.
  intros (Hkey & Hcount & _)%renderBoard_column.
  assert (Hc : statusCounts (computeStats (getAll s)) !! col_status col
               = cellOfCount (col_count col)).
  { unfold computeStats.
    rewrite statusCounts_fold, fold_increment by (by apply column_not_inherited).
    rewrite filter_map_length. cbn [statusCounts]. rewrite lookup_empty, Hcount.
    unfold inBucket.
    rewrite (filter_ext _ (fun t => bool_decide (t_status t = Some (col_status col))))
      by (intros t; by apply statusKey_column).
    by destruct (length _). }
  split; [exact Hc|]. rewrite Hc. split.
  - by destruct (col_count col).
  - by intros n ->.
Qed.

Lemma stats_agree_with_board_witness :
  statusCounts (computeStats (getAll
    (mkStore [mkTask (js "1") (js "a") None None (Some s_todo) None 1;
              mkTask (js "2") (js "b") None None (Some s_todo) None 2]
             [0; 1]%nat None None false ∅)))
  !! s_todo = cellOfCount 2.
Proof.
  refine (proj1 (stats_agree_with_board _ (mkColumn s_todo (js "To Do") 2 _) _)).
  apply list_elem_of_lookup. exists 0%nat. reflexivity.
Defined.

(** ** The collection behind the addresses *)

Lemma valid_tasks (s : Store) :
  wellFormed s -> Forall (fun r => r < length (heap s))%nat (tasks s) /\ NoDup (tasks s).
Proof.
  intros (Hall & Hnd & _). apply Forall_app in Hall as [Hall _].
  apply NoDup_app in Hnd as (Hnd & _). done.
Qed.

Lemma omap_heap_lookup (h : list Task) (refs : list nat) (i : nat) :
  Forall (fun r => r < length h)%nat refs ->
  omap (fun r => h !! r) refs !! i = refs !! i ≫= (fun r => h !! r).
Proof.
  intros Hall. revert i. induction Hall as [|r refs Hr _ IH]; intros i; [done|].
  apply lookup_lt_is_Some in Hr as [t Ht]. cbn [omap list_omap]. rewrite Ht.
  destruct i as [|i]; simpl; [done | apply IH].
Qed.

Lemma getAll_lookup (s : Store) (i : nat) :
  wellFormed s -> getAll s !! i = tasks s !! i ≫= (fun r => heap s !! r).
Proof. intros [Hall _]%valid_tasks. by apply omap_heap_lookup. Qed.

Lemma omap_heap_alter (h : list Task) (f : Task -> Task) (refs : list nat)
    (idx r : nat) :
  Forall (fun r => r < length h)%nat refs -> NoDup refs -> refs !! idx = Some r ->
  omap (fun r' => alter f r h !! r') refs = alter f idx (omap (fun r' => h !! r') refs).
Proof.
  intros Hall Hnd Hidx. apply list_eq. intros i.
  rewrite omap_heap_lookup by (by rewrite length_alter).
  destruct (decide (i = idx)) as [-> | Hne].
  - rewrite list_lookup_alter_eq, omap_heap_lookup, Hidx by done. simpl.
    by rewrite list_lookup_alter_eq.
  - rewrite list_lookup_alter_ne, omap_heap_lookup by done.
    destruct (refs !! i) as [r'|] eqn:Hi; [|done]. simpl.
    apply list_lookup_alter_ne. intros <-.
    apply Hne. by apply (NoDup_lookup refs i idx r).
Qed.

Lemma omap_heap_delete (h : list Task) (refs : list nat) (idx : nat) :
  Forall (fun r => r < length h)%nat refs ->
  omap (fun r => h !! r) (delete idx refs) = delete idx (omap (fun r => h !! r) refs).
Proof.
  intros Hall. revert idx. induction Hall as [|r refs Hr _ IH]; intros idx; [done|].
  apply lookup_lt_is_Some in Hr as [t Ht].
  destruct idx as [|idx]; cbn [delete list_delete omap list_omap]; rewrite Ht; [done|].
  cbn [delete list_delete]. f_equal. apply IH.
Qed.

Lemma omap_heap_snoc (h : list Task) (t : Task) (refs : list nat) :
  Forall (fun r => r < length h)%nat refs ->
  omap (fun r => (h ++ [t]) !! r) (refs ++ [length h])
  = omap (fun r => h !! r) refs ++ [t].
Proof.
  intros Hall. rewrite omap_app. f_equal.
  - induction Hall as [|r refs Hr _ IH]; [done|]. cbn [omap list_omap].
    by rewrite lookup_app_l, IH.
  - cbn [omap list_omap]. rewrite lookup_app_r by lia. by rewrite Nat.sub_diag.
Qed.

Lemma findIndex_findTask (h : list Task) (id : list N) (refs : list nat) :
  match findIndex h id refs with
  | Some idx => exists r, findTask h id refs = Some r /\ refs !! idx = Some r
  | None => findTask h id refs = None
  end.
Proof.
  induction refs as [|r refs IH]; simpl; [done|].
  destruct (h !! r) as [t|].
  - destruct (decide (t_id t = id)); [by exists r|].
    destruct (findIndex h id refs) as [i|]; simpl; [|done].
    destruct IH as (r' & ? & ?). eauto.
  - destruct (findIndex h id refs) as [i|]; simpl; [|done].
    destruct IH as (r' & ? & ?). eauto.
Qed.

(** ** The storage mirrors the collection *)

Lemma mirrors_persistTasks (s : Store) : mirrors (persistTasks s).
Proof.
  exists (map reload (map taskObject (getAll s))).
  split; [apply persisted_reads_back|]. change (getAll (persistTasks s)) with (getAll s).
  induction (getAll s) as [|t l IH]; [constructor|].
  cbn [map]. constructor; [apply readTask_reload | exact IH].
Qed.

Lemma mirrors_same (s s' : Store) :
  heap s' = heap s -> tasks s' = tasks s -> storage s' = storage s ->
  mirrors s -> mirrors s'.
Proof.
  intros Hh Ht Hs (vs & Hl & Hf). exists vs. unfold getAll. by rewrite Hs, Hh, Ht.
Qed.

Lemma mirrors_moveTask (id st : list N) (s : Store) :
  mirrors s -> mirrors (moveTask id st s).
Proof.
  intros H. unfold moveTask. destruct (findTask _ _ _); [|done].
  apply mirrors_persistTasks.
Qed.

Lemma mirrors_step (sc : Script) (s : Store) (ev : Event) :
  mirrors s -> mirrors (step sc s ev).
Proof.
  intros H. destruct ev as [clock text|id| |clock form| |taskId column| |]; simpl.
  - destruct sc.
    + unfold BoardStore.handleQuickAdd. destruct (isNil (trim text)); [done|].
      by apply (mirrors_same s).
    + unfold AppStore.handleQuickAdd. destruct (isNil (trim text)); [done|].
      apply mirrors_persistTasks.
  - by apply (mirrors_same s).
  - by apply (mirrors_same s).
  - destruct sc.
    + unfold BoardStore.saveTask. destruct (isNil (trim (f_title form))); [done|].
      destruct (_ || _); [done|].
      destruct (truthy (currentEditId s)).
      * destruct (findTask _ _ _); [|by apply (mirrors_same s)].
        eapply mirrors_same; [..|apply mirrors_persistTasks]; reflexivity.
      * eapply mirrors_same; [..|apply mirrors_persistTasks]; reflexivity.
    + unfold AppStore.saveTask. destruct (isNil (trim (f_title form))); [done|].
      destruct (truthy (currentEditId s)).
      * destruct (findTask _ _ _); [|by apply (mirrors_same s)].
        eapply mirrors_same; [..|apply mirrors_persistTasks]; reflexivity.
      * eapply mirrors_same; [..|apply mirrors_persistTasks]; reflexivity.
  - unfold deleteCurrentTask. destruct (currentEditId s) as [id|]; [|done].
    destruct (negb (truthy (Some id))); [done|].
    destruct (findIndex _ _ _) as [idx|]; [|done].
    destruct (tasks s !! idx) as [removed|]; [|done].
    eapply mirrors_same; [..|apply mirrors_persistTasks]; reflexivity.
  - unfold dropOn. destruct (findTask _ _ _); [|done].
    case_decide; [done|]. by apply mirrors_moveTask.
  - unfold clickUndo. destruct (toastUndo s) as [[task|idx removed]|]; [| |done].
    + eapply mirrors_same; [..|apply mirrors_persistTasks]; reflexivity.
    + eapply mirrors_same; [..|apply mirrors_persistTasks]; reflexivity.
  - unfold timerFires. destruct (undoTimer s); [|done]. by apply (mirrors_same s).
Qed.

Lemma getAll_startStore (ts : list Task) (slots : gmap (list N) (list N)) :
  getAll (startStore ts slots) = ts.
Proof.
  unfold getAll, startStore. cbn [heap tasks].
  induction ts as [|t ts IH] using rev_ind; [done|].
  rewrite length_app. cbn [length]. rewrite Nat.add_1_r, seq_S. cbn [Nat.add].
  rewrite omap_heap_snoc, IH; [done|].
  apply Forall_forall. intros r Hr. apply list_elem_of_In, in_seq in Hr. lia.
Qed.

(** X12. The storage always mirrors the collection.  Starting from the
    empty store, or from the store a page builds from what it loaded,
    after any sequence of quick adds, edits, saves, deletions, drops,
    undos and timeouts, on either board script, loading the tasks slot
    gives an array that reads back, element by element, as the tasks of
    the collection: closing the page at any moment loses nothing. *)
Theorem storage_mirrors_collection (sc : Script) (s : Store) (evs : list Event) :
  mirrors s ->
  (exists vs,
     loadTasks (storage (run sc s evs)) = Normal (JArray vs)
     /\ Forall2 (fun t v => readTask v = Some t) (getAll (run sc s evs)) vs)
  /\ mirrors emptyStore
  /\ (forall ts slots,
        mirrors (startStore ts (persistValue (JArray (map taskObject ts)) slots))).
Proof.
  intros H. split; [|split].
  - change (mirrors (run sc s evs)). unfold run. revert s H.
    induction evs as [|ev evs IH]; intros s H; simpl; [done|].
    apply IH. by apply mirrors_step.
  - exists []. split; [reflexivity | constructor].
  - intros ts slots.
    apply (mirrors_same (persistTasks (startStore ts slots))).
    + reflexivity.
    + reflexivity.
    + unfold persistTasks. cbn [storage]. by rewrite getAll_startStore.
    + apply mirrors_persistTasks.
Qed.

Lemma storage_mirrors_collection_witness :
  exists vs,
    loadTasks (storage (run AppJs emptyStore
                 [EvQuickAdd (mkClock 1 1) (js "Buy milk !"); EvDrop (js "1") s_done;
                  EvUndo]))
    = Normal (JArray vs)
    /\ Forall2 (fun t v => readTask v = Some t)
         (getAll (run AppJs emptyStore
                    [EvQuickAdd (mkClock 1 1) (js "Buy milk !"); EvDrop (js "1") s_done;
                     EvUndo])) vs.
Proof.
  refine (proj1 (storage_mirrors_collection AppJs emptyStore _ _)).
  exists []. split; [reflexivity | constructor].
Defined.

(** ** What is deleted stays deleted *)

Lemma outOfReach_keep (r : nat) (s s' : Store) :
  (length (heap s) <= length (heap s'))%nat ->
  (forall r', r' ∈ tasks s' ++ tombstone s' ->
     r' ∈ tasks s ++ tombstone s \/ (length (heap s) <= r')%nat) ->
  outOfReach r s -> outOfReach r s'.
Proof.
  intros Hlen Hsub (Hr & Ht & Hb).
  assert (Hno : r ∉ tasks s' ++ tombstone s').
  { intros [Hin | Hin]%Hsub; [|lia]. apply elem_of_app in Hin as [?|?]; done. }
  apply not_elem_of_app in Hno as [? ?]. split; [lia | done].
Qed.

Lemma outOfReach_moveTask (r : nat) (id st : list N) (s : Store) :
  outOfReach r s -> outOfReach r (moveTask id st s).
Proof.
  unfold moveTask. destruct (findTask _ _ _) as [task|]; [|done].
  apply outOfReach_keep.
  - case_decide; simpl; by rewrite length_alter.
  - intros r' Hin. left. case_decide; simpl in *.
    + unfold tombstone in Hin. simpl in Hin. rewrite app_nil_r in Hin.
      apply elem_of_app. by left.
    + done.
Qed.

Lemma outOfReach_pushTask (r : nat) (t : Task) (s : Store) :
  outOfReach r s -> outOfReach r (persistTasks (pushTask t s)).
Proof.
  apply outOfReach_keep; simpl.
  - rewrite length_app. lia.
  - intros r' Hin. unfold tombstone in *. simpl in Hin.
    rewrite <- app_assoc in Hin. apply elem_of_app in Hin as [Hin | Hin].
    + left. apply elem_of_app. by left.
    + apply elem_of_cons in Hin as [-> | Hin]; [right; lia|].
      left. apply elem_of_app. by right.
Qed.

Lemma outOfReach_deleteCurrentTask (r : nat) (s : Store) :
  outOfReach r s -> outOfReach r (deleteCurrentTask s).
Proof.
  unfold deleteCurrentTask. destruct (currentEditId s) as [id|]; [|done].
  destruct (negb (truthy (Some id))); [done|].
  destruct (findIndex _ _ _) as [idx|]; [|done].
  destruct (tasks s !! idx) as [removed|] eqn:Hr; [|done].
  apply outOfReach_keep; simpl; [done|].
  intros r' Hin. left. apply elem_of_app. left.
  unfold tombstone in Hin. simpl in Hin.
  apply elem_of_app in Hin as [Hin | Hin].
  - by apply list_elem_of_delete_inv in Hin.
  - apply list_elem_of_singleton in Hin as ->. by apply list_elem_of_lookup_2 in Hr.
Qed.

Lemma outOfReach_clickUndo (r : nat) (s : Store) :
  outOfReach r s -> outOfReach r (clickUndo s).
Proof.
  unfold clickUndo. destruct (toastUndo s) as [[task|idx removed]|] eqn:Hu; [| |done].
  - apply outOfReach_keep; simpl; [by rewrite length_alter|].
    intros r' Hin. left. unfold tombstone in Hin. simpl in Hin.
    rewrite app_nil_r in Hin. apply elem_of_app. by left.
  - apply outOfReach_keep; simpl; [done|].
    intros r' Hin. left. unfold tombstone in *. rewrite Hu. simpl in Hin.
    rewrite app_nil_r in Hin. apply elem_of_app.
    apply elem_of_app in Hin as [Hin | Hin].
    + left. by apply (subseteq_take idx (tasks s)).
    + apply elem_of_cons in Hin as [-> | Hin]; [right; by left|].
      left. by apply (subseteq_drop idx (tasks s)).
Qed.

Lemma outOfReach_cosmetic (r : nat) (s s' : Store) :
  heap s' = heap s -> tasks s' = tasks s ->
  toastUndo s' = toastUndo s \/ toastUndo s' = None ->
  outOfReach r s -> outOfReach r s'.
Proof.
  intros Hh Ht Hu. apply outOfReach_keep; [by rewrite Hh|].
  intros r' Hin. left. rewrite Ht in Hin. unfold tombstone in *.
  destruct Hu as [Hu | Hu]; rewrite Hu in Hin; [done|].
  rewrite app_nil_r in Hin. apply elem_of_app. by left.
Qed.

Lemma outOfReach_updateHeap (r task : nat) (f : Task -> Task) (s : Store) :
  outOfReach r s -> outOfReach r (persistTasks (updateHeap task f s)).
Proof.
  apply outOfReach_keep; simpl; [by rewrite length_alter | auto].
Qed.

Lemma outOfReach_step (sc : Script) (r : nat) (s : Store) (ev : Event) :
  outOfReach r s -> outOfReach r (step sc s ev).
Proof.
  intros H. destruct ev as [clock text|id| |clock form| |taskId column| |]; simpl.
  - destruct sc.
    + unfold BoardStore.handleQuickAdd. destruct (isNil (trim text)); [done|].
      apply (outOfReach_cosmetic r s); auto.
    + unfold AppStore.handleQuickAdd. destruct (isNil (trim text)); [done|].
      by apply outOfReach_pushTask.
  - apply (outOfReach_cosmetic r s); auto.
  - apply (outOfReach_cosmetic r s); auto.
  - destruct sc.
    + unfold BoardStore.saveTask. destruct (isNil (trim (f_title form))); [done|].
      destruct (_ || _); [done|].
      eapply outOfReach_cosmetic; [reflexivity | reflexivity | by left |].
      destruct (truthy (currentEditId s)).
      * destruct (findTask _ _ _); [|done]. by apply outOfReach_updateHeap.
      * by apply outOfReach_pushTask.
    + unfold AppStore.saveTask. destruct (isNil (trim (f_title form))); [done|].
      eapply outOfReach_cosmetic; [reflexivity | reflexivity | by left |].
      destruct (truthy (currentEditId s)).
      * destruct (findTask _ _ _); [|done]. by apply outOfReach_updateHeap.
      * by apply outOfReach_pushTask.
  - by apply outOfReach_deleteCurrentTask.
  - unfold dropOn. destruct (findTask _ _ _); [|done].
    case_decide; [done|]. by apply outOfReach_moveTask.
  - by apply outOfReach_clickUndo.
  - unfold timerFires. destruct (undoTimer s); [|done].
    apply (outOfReach_cosmetic r s); auto.
Qed.

Lemma outOfReach_run (sc : Script) (r : nat) (evs : list Event) (s : Store) :
  outOfReach r s -> outOfReach r (run sc s evs).
Proof.
  unfold run. revert s. induction evs as [|ev evs IH]; intros s H; simpl; [done|].
  apply IH. by apply outOfReach_step.
Qed.

(** The state after a deletion: the address [removed] left the collection
    and is held by the undo button alone. *)
Lemma delete_state (s : Store) (id : list N) :
  wellFormed s -> id <> [] -> id ∈ liveIds s ->
  exists idx removed,
    findIndex (heap s) id (tasks s) = Some idx
    /\ findTask (heap s) id (tasks s) = Some removed
    /\ tasks s !! idx = Some removed
    /\ deleteCurrentTask (openTaskModal (Some id) s)
       = showToast (Some (UndoDelete idx removed))
           (persistTasks (closeTaskModal (setTasks (delete idx (tasks s))
              (openTaskModal (Some id) s))))
    /\ (removed < length (heap s))%nat
    /\ removed ∉ delete idx (tasks s).
Proof.
  intros Hwf Hne Hin. destruct (valid_tasks s Hwf) as [Hall Hnd].
  destruct (findIndex_Some _ _ _ Hin) as [idx Hidx].
  pose proof (findIndex_findTask (heap s) id (tasks s)) as Hft. rewrite Hidx in Hft.
  destruct Hft as (removed & Hfind & Hr).
  exists idx, removed. split; [done|]. split; [done|]. split; [done|].
  split; [|split].
  - unfold deleteCurrentTask, openTaskModal.
    cbn [currentEditId setCurrentEditId heap tasks].
    assert (Htr : negb (truthy (Some id)) = false) by (by destruct id).
    by rewrite Htr, Hidx, Hr.
  - rewrite Forall_forall in Hall. apply Hall. by apply list_elem_of_lookup_2 in Hr.
  - intros Hin'. apply list_elem_of_lookup in Hin' as [j Hj].
    destruct (decide (j < idx)%nat).
    + rewrite list_lookup_delete_lt in Hj by done.
      pose proof (NoDup_lookup _ _ _ _ Hnd Hj Hr). lia.
    + rewrite list_lookup_delete_ge in Hj by lia.
      pose proof (NoDup_lookup _ _ _ _ Hnd Hj Hr). lia.
Qed.

(** X13. A deletion is final once its toast is gone.  After the timer of
    the toast has fired, or after a further deletion has put its own toast
    in its place, the task object that was deleted is in no collection the
    user can reach, whatever is done afterwards: only the latest deletion
    can be undone, and only while its toast shows. *)
Theorem deleted_task_is_gone (sc : Script) (s : Store) (id : list N) :
  wellFormed s -> id <> [] -> id ∈ liveIds s ->
  exists removed,
    findTask (heap s) id (tasks s) = Some removed
    /\ toastUndo (deleteCurrentTask (openTaskModal (Some id) s))
       = Some (UndoDelete (default 0%nat (findIndex (heap s) id (tasks s))) removed)
    /\ (forall evs,
          removed ∉ tasks (run sc (timerFires
                      (deleteCurrentTask (openTaskModal (Some id) s))) evs))
    /\ (forall id' evs,
          id' <> [] ->
          id' ∈ liveIds (deleteCurrentTask (openTaskModal (Some id) s)) ->
          removed ∉ tasks (run sc (deleteCurrentTask (openTaskModal (Some id')
                      (deleteCurrentTask (openTaskModal (Some id) s)))) evs)).
Proof.
  intros Hwf Hne Hin.
  destruct (delete_state s id Hwf Hne Hin)
    as (idx & removed & Hidx & Hfind & Hr & Hdel & Hlt & Hnot).
  exists removed. rewrite Hidx, Hdel. cbn [toastUndo showToast default].
  split; [done|]. split; [done|]. split.
  - intros evs. apply (outOfReach_run sc removed evs).
    unfold timerFires. cbn [undoTimer showToast].
    split; [exact Hlt|]. split; [exact Hnot|]. by intros ?%elem_of_nil.
  - intros id' evs Hne' Hin'. apply (outOfReach_run sc removed evs).
    set (s1 := showToast _ _) in *.
    destruct (findIndex_Some _ _ _ Hin') as [idx' Hidx'].
    destruct (findIndex_lookup _ _ _ _ Hidx') as (removed' & t & Hr' & _).
    unfold deleteCurrentTask, openTaskModal.
    cbn [currentEditId setCurrentEditId heap tasks].
    assert (Htr : negb (truthy (Some id')) = false) by (by destruct id').
    rewrite Htr, Hidx', Hr'.
    split; [exact Hlt|]. cbn [tasks showToast persistTasks closeTaskModal
                              setCurrentEditId setTasks tombstone toastUndo].
    split.
    + intros Hx%list_elem_of_delete_inv. by apply Hnot.
    + intros ->%list_elem_of_singleton. apply Hnot.
      by apply list_elem_of_lookup_2 in Hr'.
Qed.

Lemma deleted_task_is_gone_witness :
  1%nat ∉ tasks (run BoardJs
    (timerFires (deleteCurrentTask (openTaskModal (Some (js "20"))
       (mkStore [mkTask (js "10") (js "a") None None (Some s_todo) None 10;
                 mkTask (js "20") (js "b") None None (Some s_doing) None 20]
                [0; 1]%nat None None false ∅))))
    [EvUndo; EvOpen (js "20"); EvDrop (js "20") s_done]).
Proof.
  destruct (deleted_task_is_gone BoardJs
              (mkStore [mkTask (js "10") (js "a") None None (Some s_todo) None 10;
                        mkTask (js "20") (js "b") None None (Some s_doing) None 20]
                       [0; 1]%nat None None false ∅) (js "20"))
    as (removed & Hfind & _ & Htimer & _).
  - split; [|split]; [repeat constructor | | exact I].
    apply (bool_decide_unpack _). vm_compute. reflexivity.
  - discriminate.
  - apply list_elem_of_lookup. exists 1%nat. reflexivity.
  - vm_compute in Hfind. injection Hfind as <-. apply Htimer.
Defined.

(** ** Sound addresses

    The stores the pages can reach are well formed: the empty store and
    the store a page starts with are, and every event keeps a store so. *)

Lemma wellFormed_shrink (s s' : Store) :
  (length (heap s) <= length (heap s'))%nat ->
  (exists rest, tasks s ++ tombstone s ≡ₚ (tasks s' ++ tombstone s') ++ rest) ->
  (wellFormed s ->
   match toastUndo s' with
   | Some (UndoMove r) => (r < length (heap s'))%nat
   | Some (UndoDelete idx _) => (idx <= length (tasks s'))%nat
   | None => True
   end) ->
  wellFormed s -> wellFormed s'.
Proof.
  intros Hlen (rest & Hperm) Htoast Hwf. specialize (Htoast Hwf).
  destruct Hwf as (Hall & Hnd & _). split; [|split; [|done]].
  - rewrite Hperm in Hall. apply Forall_app in Hall as [Hall _].
    eapply Forall_impl; [exact Hall|]. simpl. lia.
  - rewrite Hperm in Hnd. by apply NoDup_app in Hnd as (? & _).
Qed.

Lemma wellFormed_cosmetic (s s' : Store) :
  heap s' = heap s -> tasks s' = tasks s ->
  toastUndo s' = toastUndo s \/ toastUndo s' = None ->
  wellFormed s -> wellFormed s'.
Proof.
  intros Hh Ht Hu. apply wellFormed_shrink.
  - by rewrite Hh.
  - unfold tombstone. rewrite Ht. destruct Hu as [-> | ->].
    + exists []. by rewrite app_nil_r.
    + exists (tombstone s). by rewrite app_nil_r.
  - intros (_ & _ & Hc). rewrite Hh, Ht. by destruct Hu as [-> | ->].
Qed.

Lemma wellFormed_updateHeap (r : nat) (f : Task -> Task) (s : Store) :
  wellFormed s -> wellFormed (persistTasks (updateHeap r f s)).
Proof.
  apply wellFormed_shrink; simpl.
  - by rewrite length_alter.
  - exists []. by rewrite app_nil_r.
  - rewrite length_alter. by intros (_ & _ & Hc).
Qed.

Lemma wellFormed_moveTask (id st : list N) (s : Store) :
  wellFormed s -> wellFormed (moveTask id st s).
Proof.
  unfold moveTask. destruct (findTask _ _ _) as [task|] eqn:Hfind; [|done].
  destruct (findTask_lookup _ _ _ _ Hfind) as (_ & t & Ht & _).
  apply lookup_lt_Some in Ht. case_decide.
  - apply wellFormed_shrink; simpl.
    + by rewrite length_alter.
    + exists (tombstone s). unfold tombstone at 2. simpl. by rewrite app_nil_r.
    + by rewrite length_alter.
  - apply wellFormed_updateHeap.
Qed.

Lemma wellFormed_pushTask (t : Task) (s : Store) :
  wellFormed s -> wellFormed (persistTasks (pushTask t s)).
Proof.
  intros (Hall & Hnd & Hc). split; [|split].
  - unfold pushTask, tombstone. simpl. rewrite length_app. simpl.
    rewrite <- app_assoc. apply Forall_app in Hall as [Htasks Htomb].
    apply Forall_app. split; [|apply Forall_app; split].
    + eapply Forall_impl; [exact Htasks|]. simpl. lia.
    + constructor; [lia | constructor].
    + eapply Forall_impl; [exact Htomb|]. simpl. lia.
  - unfold pushTask, tombstone. simpl.
    rewrite <- app_assoc. simpl. rewrite <- Permutation_middle.
    apply NoDup_cons. split; [|done].
    intros Hin. rewrite Forall_forall in Hall. specialize (Hall _ Hin). lia.
  - unfold pushTask. simpl. rewrite !length_app. simpl.
    destruct (toastUndo s) as [[r|idx removed]|]; lia || done.
Qed.

Lemma wellFormed_step (sc : Script) (s : Store) (ev : Event) :
  wellFormed s -> wellFormed (step sc s ev).
Proof.
  intros H. destruct ev as [clock text|id| |clock form| |taskId column| |]; simpl.
  - destruct sc.
    + unfold BoardStore.handleQuickAdd. destruct (isNil (trim text)); [done|].
      apply (wellFormed_cosmetic s); auto.
    + unfold AppStore.handleQuickAdd. destruct (isNil (trim text)); [done|].
      by apply wellFormed_pushTask.
  - apply (wellFormed_cosmetic s); auto.
  - apply (wellFormed_cosmetic s); auto.
  - destruct sc.
    + unfold BoardStore.saveTask. destruct (isNil (trim (f_title form))); [done|].
      destruct (_ || _); [done|].
      eapply wellFormed_cosmetic; [reflexivity | reflexivity | by left |].
      destruct (truthy (currentEditId s)).
      * destruct (findTask _ _ _); [|done]. by apply wellFormed_updateHeap.
      * by apply wellFormed_pushTask.
    + unfold AppStore.saveTask. destruct (isNil (trim (f_title form))); [done|].
      eapply wellFormed_cosmetic; [reflexivity | reflexivity | by left |].
      destruct (truthy (currentEditId s)).
      * destruct (findTask _ _ _); [|done]. by apply wellFormed_updateHeap.
      * by apply wellFormed_pushTask.
  - unfold deleteCurrentTask. destruct (currentEditId s) as [id|]; [|done].
    destruct (negb (truthy (Some id))); [done|].
    destruct (findIndex _ _ _) as [idx|]; [|done].
    destruct (tasks s !! idx) as [removed|] eqn:Hr; [|done].
    revert H. apply wellFormed_shrink; simpl; [done | |].
    + exists (tombstone s). unfold tombstone at 2. simpl.
      rewrite (delete_Permutation _ _ _ Hr) at 1.
      rewrite <- !app_assoc. simpl. by rewrite <- Permutation_middle.
    + intros _. rewrite length_delete by eauto.
      apply lookup_lt_Some in Hr. lia.
  - unfold dropOn. destruct (findTask _ _ _); [|done].
    case_decide; [done|]. by apply wellFormed_moveTask.
  - unfold clickUndo. destruct (toastUndo s) as [[task|idx removed]|] eqn:Hu; [| |done].
    + apply (wellFormed_cosmetic (runUndo (UndoMove task) s)); [done | done | by right |].
      exact (wellFormed_updateHeap task (setStatus s_doing) s H).
    + revert H. apply wellFormed_shrink; simpl; [done | | done].
      exists []. unfold tombstone. rewrite Hu. simpl.
      rewrite !app_nil_r. rewrite insert_perm. by rewrite <- Permutation_cons_append.
  - unfold timerFires. destruct (undoTimer s); [|done].
    apply (wellFormed_cosmetic s); auto.
Qed.

Lemma wellFormed_run (sc : Script) (evs : list Event) (s : Store) :
  wellFormed s -> wellFormed (run sc s evs).
Proof.
  unfold run. revert s. induction evs as [|ev evs IH]; intros s H; simpl; [done|].
  apply IH. by apply wellFormed_step.
Qed.

Lemma wellFormed_startStore (ts : list Task) (slots : gmap (list N) (list N)) :
  wellFormed (startStore ts slots).
Proof.
  unfold startStore. split; [|split; [|exact I]]; unfold tombstone; simpl;
    rewrite app_nil_r.
  - apply Forall_forall. intros r Hr. apply list_elem_of_In, in_seq in Hr. lia.
  - apply NoDup_ListNoDup, seq_NoDup.
Qed.

(** ** The operations, seen from the collection *)

Lemma getAll_updateHeap (s : Store) (r idx : nat) (f : Task -> Task) :
  wellFormed s -> tasks s !! idx = Some r ->
  getAll (updateHeap r f s) = alter f idx (getAll s).
Proof.
  intros [Hall Hnd]%valid_tasks Hidx. unfold getAll, updateHeap. cbn [heap tasks].
  by apply omap_heap_alter.
Qed.

Lemma getAll_pushTask (t : Task) (s : Store) :
  wellFormed s -> getAll (pushTask t s) = getAll s ++ [t].
Proof.
  intros [Hall _]%valid_tasks. unfold getAll, pushTask. cbn [heap tasks].
  by apply omap_heap_snoc.
Qed.

Lemma findIndex_first (h : list Task) (id : list N) (refs : list nat) (idx : nat) :
  findIndex h id refs = Some idx ->
  forall j r t, (j < idx)%nat -> refs !! j = Some r -> h !! r = Some t -> t_id t <> id.
Proof.
  revert idx. induction refs as [|r0 refs IH]; intros idx; simpl; [done|].
  destruct (h !! r0) as [t0|] eqn:Hr0.
  - destruct (decide (t_id t0 = id)) as [Hid|Hid]; [intros [= <-]; lia|].
    destruct (findIndex h id refs) as [i|]; [|done]. intros [= <-] j r t Hj Hr Ht.
    destruct j as [|j]; simpl in Hr.
    + injection Hr as <-. congruence.
    + apply (IH i eq_refl j r t); [lia | done | done].
  - destruct (findIndex h id refs) as [i|]; [|done]. intros [= <-] j r t Hj Hr Ht.
    destruct j as [|j]; simpl in Hr.
    + injection Hr as <-. congruence.
    + apply (IH i eq_refl j r t); [lia | done | done].
Qed.

Lemma findIndex_None (h : list Task) (id : list N) (refs : list nat) :
  id ∉ idsOf h refs -> findIndex h id refs = None.
Proof.
  intros Hno. destruct (findIndex h id refs) as [idx|] eqn:Hidx; [|done].
  exfalso. apply Hno.
  destruct (findIndex_lookup _ _ _ _ Hidx) as (r & t & Hr & Ht & Hid).
  unfold idsOf. apply list_elem_of_omap. exists r.
  split; [by apply list_elem_of_lookup_2 in Hr | by rewrite Ht, <- Hid].
Qed.

(** The task the search for an id finds, in the collection. *)
Lemma findIndex_getAll (s : Store) (id : list N) (idx : nat) :
  wellFormed s -> findIndex (heap s) id (tasks s) = Some idx ->
  exists r t,
    findTask (heap s) id (tasks s) = Some r /\ tasks s !! idx = Some r
    /\ heap s !! r = Some t /\ getAll s !! idx = Some t /\ t_id t = id
    /\ (forall j t', (j < idx)%nat -> getAll s !! j = Some t' -> t_id t' <> id).
Proof.
  intros Hwf Hidx.
  pose proof (findIndex_findTask (heap s) id (tasks s)) as Hft. rewrite Hidx in Hft.
  destruct Hft as (r & Hfind & Hr).
  destruct (findTask_lookup _ _ _ _ Hfind) as (_ & t & Ht & Hid).
  exists r, t. repeat split; try done.
  - by rewrite getAll_lookup, Hr.
  - intros j t' Hj Hj'. rewrite getAll_lookup in Hj' by done.
    destruct (tasks s !! j) as [r'|] eqn:Hr'; [|done]. simpl in Hj'.
    by apply (findIndex_first _ _ _ _ Hidx j r' t').
Qed.

(** X14. Deleting removes exactly one task: the first of the collection
    whose id is the one the modal is open on.  The others keep their order,
    the modal is closed, and the storage is written.  With no modal open,
    or with an id no task has, nothing happens at all. *)
Theorem delete_removes_one (s : Store) :
  wellFormed s ->
  (forall id idx,
     currentEditId s = Some id -> id <> [] ->
     findIndex (heap s) id (tasks s) = Some idx ->
     getAll (deleteCurrentTask s) = delete idx (getAll s)
     /\ (exists t, getAll s !! idx = Some t /\ t_id t = id)
     /\ (forall j t', (j < idx)%nat -> getAll s !! j = Some t' -> t_id t' <> id)
     /\ S (length (getAll (deleteCurrentTask s))) = length (getAll s)
     /\ currentEditId (deleteCurrentTask s) = None
     /\ mirrors (deleteCurrentTask s))
  /\ (currentEditId s = None \/ currentEditId s = Some []
      \/ (exists id, currentEditId s = Some id /\ id ∉ liveIds s) ->
      deleteCurrentTask s = s).
Proof.
  intros Hwf. split.
  - intros id idx Hcur Hne Hidx.
    destruct (findIndex_getAll s id idx Hwf Hidx)
      as (r & t & Hfind & Hr & Ht & Hget & Hid & Hfirst).
    assert (Hdel : deleteCurrentTask s
                   = showToast (Some (UndoDelete idx r))
                       (persistTasks (closeTaskModal (setTasks (delete idx (tasks s)) s)))).
    { unfold deleteCurrentTask. rewrite Hcur.
      assert (Htr : negb (truthy (Some id)) = false) by (by destruct id).
      by rewrite Htr, Hidx, Hr. }
    assert (Hall : getAll (deleteCurrentTask s) = delete idx (getAll s)).
    { rewrite Hdel. unfold getAll. cbn [heap tasks showToast persistTasks closeTaskModal
                                       setCurrentEditId setTasks].
      apply omap_heap_delete. by apply valid_tasks. }
    split; [exact Hall|]. split; [eauto|]. split; [exact Hfirst|].
    split; [|split].
    + rewrite Hall, length_delete by eauto.
      apply lookup_lt_Some in Hget. lia.
    + by rewrite Hdel.
    + rewrite Hdel. eapply mirrors_same; [..|apply mirrors_persistTasks]; reflexivity.
  - unfold deleteCurrentTask. intros [-> | [-> | (id & -> & Hno)]]; [done | done |].
    destruct (negb (truthy (Some id))); [done|].
    by rewrite (findIndex_None _ _ _ Hno).
Qed.

Lemma delete_removes_one_witness :
  getAll (deleteCurrentTask
            (mkStore [mkTask (js "10") (js "a") None None (Some s_todo) None 10;
                      mkTask (js "20") (js "b") None None (Some s_doing) None 20]
                     [0; 1]%nat (Some (js "10")) None false ∅))
  = [mkTask (js "20") (js "b") None None (Some s_doing) None 20].
Proof.
  refine (proj1 (proj1 (delete_removes_one _ _) (js "10") 0%nat _ _ _));
    [|reflexivity | discriminate | reflexivity].
  split; [|split]; [repeat constructor | | exact I].
  apply (bool_decide_unpack _). vm_compute. reflexivity.
Defined.

Lemma getAll_moveTask (s : Store) (id st : list N) (idx : nat) :
  wellFormed s -> findIndex (heap s) id (tasks s) = Some idx ->
  getAll (moveTask id st s) = alter (setStatus st) idx (getAll s).
Proof.
  intros Hwf Hidx.
  destruct (findIndex_getAll s id idx Hwf Hidx) as (r & t & Hfind & Hr & _).
  unfold moveTask. rewrite Hfind.
  rewrite <- (getAll_updateHeap s r idx (setStatus st) Hwf Hr).
  by case_decide.
Qed.

(** X15. Dropping a card on another column moves exactly the first task
    with the id of the card: its status becomes the key of the column, all
    else in the collection is as before, and the board then shows the task
    in the column of its new status and in no other.  Only a drop on the
    done column puts up a toast.  Dropping a card on the column it is in,
    or a card whose id no task has, changes nothing and writes nothing. *)
Theorem dropOn_moves_card (s : Store) (id col : list N) :
  wellFormed s ->
  (forall idx t,
     findIndex (heap s) id (tasks s) = Some idx -> getAll s !! idx = Some t ->
     (t_status t = Some col -> dropOn id col s = s)
     /\ (t_status t <> Some col ->
         getAll (dropOn id col s) = alter (setStatus col) idx (getAll s)
         /\ getAll (dropOn id col s) !! idx = Some (setStatus col t)
         /\ (forall c, c ∈ renderBoard (dropOn id col s) ->
               (setStatus col t ∈ col_cards c <-> col_status c = col))
         /\ (col <> s_done -> toastUndo (dropOn id col s) = toastUndo s)
         /\ (col = s_done ->
             exists r, tasks s !! idx = Some r
                       /\ toastUndo (dropOn id col s) = Some (UndoMove r))))
  /\ (id ∉ liveIds s -> dropOn id col s = s).
Proof.
  intros Hwf. split.
  - intros idx t Hidx Hget.
    destruct (findIndex_getAll s id idx Hwf Hidx)
      as (r & t0 & Hfind & Hr & Ht & Hget' & _).
    assert (t0 = t) as -> by congruence.
    unfold dropOn. rewrite Hfind, Ht. cbn [option_map]. split.
    + intros Hst. by rewrite decide_True by (by rewrite Hst).
    + intros Hst. rewrite decide_False by (intros [=]; congruence).
      pose proof (getAll_moveTask s id col idx Hwf Hidx) as Hall.
      assert (Hnew : getAll (moveTask id col s) !! idx = Some (setStatus col t)).
      { by rewrite Hall, list_lookup_alter_eq, Hget. }
      split; [exact Hall|]. split; [exact Hnew|]. split; [|split].
      * intros c Hc.
        rewrite (renderBoard_member _ c _ Hc). cbn [t_status setStatus]. split.
        -- intros [_ [= ->]]. reflexivity.
        -- intros ->. split; [by apply list_elem_of_lookup_2 in Hnew | done].
      * intros Hcol. unfold moveTask. rewrite Hfind. by rewrite decide_False.
      * intros ->. exists r. split; [done|]. unfold moveTask. rewrite Hfind.
        by rewrite decide_True.
  - intros Hno. unfold dropOn.
    pose proof (findIndex_findTask (heap s) id (tasks s)) as Hft.
    rewrite (findIndex_None _ _ _ Hno) in Hft. by rewrite Hft.
Qed.

Lemma dropOn_moves_card_witness :
  getAll (dropOn (js "10") s_done
            (mkStore [mkTask (js "10") (js "a") None None (Some s_todo) None 10]
                     [0%nat] None None false ∅))
  = [mkTask (js "10") (js "a") None None (Some s_done) None 10].
Proof.
  refine (proj1 (proj2 (proj1 (dropOn_moves_card _ (js "10") s_done _) 0%nat
                          (mkTask (js "10") (js "a") None None (Some s_todo) None 10)
                          _ _) _));
    [|reflexivity | reflexivity | discriminate].
  split; [|split]; [repeat constructor | | exact I].
  apply (bool_decide_unpack _). vm_compute. reflexivity.
Defined.

Lemma map_alter_same {A B} (g : A -> B) (f : A -> A) (i : nat) (l : list A) :
  (forall x, g (f x) = g x) -> map g (alter f i l) = map g l.
Proof.
  intros H. revert i. induction l as [|x l IH]; intros [|i]; [done..| |].
  - cbn. by rewrite H.
  - cbn. f_equal. apply IH.
Qed.

Lemma edit_truthy (id : list N) : id <> [] -> truthy (Some id) = true.
Proof. by destruct id. Qed.

Lemma orUndefined_Some (v : list N) : v <> [] -> orUndefined v = Some v.
Proof. by destruct v. Qed.

Lemma isNil_false {A} (l : list A) : l <> [] -> isNil l = false.
Proof. by destruct l. Qed.

(** The guard of [saveTask] of board.js lets a full form through. *)
Lemma board_guard_passes (form : Form) :
  trim (f_owner form) <> [] -> f_due form <> [] -> f_priority form <> [] ->
  f_status form <> [] ->
  isNil (trim (f_owner form)) || negb (truthy (orUndefined (f_due form)))
  || negb (truthy (orUndefined (f_priority form)))
  || negb (truthy (orUndefined (f_status form))) = false.
Proof.
  intros Ho Hd Hp Hs.
  rewrite (isNil_false _ Ho), !orUndefined_Some by done.
  by rewrite !edit_truthy.
Qed.

Lemma saveTask_board_edit (clock : Clock) (form : Form) (s : Store)
    (id : list N) (idx : nat) :
  wellFormed s -> currentEditId s = Some id -> id <> [] ->
  findIndex (heap s) id (tasks s) = Some idx -> trim (f_title form) <> [] ->
  trim (f_owner form) <> [] -> f_due form <> [] -> f_priority form <> [] ->
  f_status form <> [] ->
  getAll (BoardStore.saveTask clock form s)
  = alter (editTask (trim (f_title form)) (Some (f_due form)) (Some (f_priority form))
                    (Some (f_status form)) (Some (trim (f_owner form))) true)
          idx (getAll s)
  /\ currentEditId (BoardStore.saveTask clock form s) = None.
Proof.
  intros Hwf Hcur Hne Hidx Htitle Ho Hd Hp Hs.
  destruct (findIndex_getAll s id idx Hwf Hidx) as (r & t & Hfind & Hr & _).
  unfold BoardStore.saveTask.
  rewrite (isNil_false _ Htitle), (board_guard_passes form Ho Hd Hp Hs).
  split; [|done].
  rewrite Hcur, (edit_truthy _ Hne). change (default [] (Some id)) with id.
  rewrite Hfind. rewrite !orUndefined_Some by done.
  by rewrite <- (getAll_updateHeap s r idx _ Hwf Hr).
Qed.

(** X16. Saving the modal that is open on a task edits that task in place.
    The first task with the id takes the values of the form, the title and
    on the board page the owner trimmed; its id, its time of creation and
    its place in the collection stay, as does every other task, and no task
    is added.  The app script leaves the owner alone and stores an empty
    due date or priority as a missing one. *)
Theorem saveTask_edits_in_place (clock : Clock) (form : Form) (s : Store)
    (id : list N) (idx : nat) :
  wellFormed s -> currentEditId s = Some id -> id <> [] ->
  findIndex (heap s) id (tasks s) = Some idx -> trim (f_title form) <> [] ->
  (trim (f_owner form) <> [] -> f_due form <> [] -> f_priority form <> [] ->
   f_status form <> [] ->
   getAll (BoardStore.saveTask clock form s)
   = alter (editTask (trim (f_title form)) (Some (f_due form)) (Some (f_priority form))
                     (Some (f_status form)) (Some (trim (f_owner form))) true)
           idx (getAll s)
   /\ map t_id (getAll (BoardStore.saveTask clock form s)) = map t_id (getAll s)
   /\ map t_createdAt (getAll (BoardStore.saveTask clock form s))
      = map t_createdAt (getAll s)
   /\ currentEditId (BoardStore.saveTask clock form s) = None)
  /\ getAll (AppStore.saveTask clock form s)
     = alter (editTask (trim (f_title form)) (orUndefined (f_due form))
                       (orUndefined (f_priority form)) (Some (f_status form)) None false)
             idx (getAll s)
  /\ map t_id (getAll (AppStore.saveTask clock form s)) = map t_id (getAll s)
  /\ map t_createdAt (getAll (AppStore.saveTask clock form s))
     = map t_createdAt (getAll s)
  /\ map t_owner (getAll (AppStore.saveTask clock form s)) = map t_owner (getAll s)
  /\ currentEditId (AppStore.saveTask clock form s) = None.
Proof.
  intros Hwf Hcur Hne Hidx Htitle.
  destruct (findIndex_getAll s id idx Hwf Hidx) as (r & t & Hfind & Hr & _).
  assert (Happ : getAll (AppStore.saveTask clock form s)
                 = alter (editTask (trim (f_title form)) (orUndefined (f_due form))
                            (orUndefined (f_priority form)) (Some (f_status form))
                            None false) idx (getAll s)).
  { unfold AppStore.saveTask. rewrite (isNil_false _ Htitle), Hcur, (edit_truthy _ Hne).
    change (default [] (Some id)) with id. rewrite Hfind.
    by rewrite <- (getAll_updateHeap s r idx _ Hwf Hr). }
  split; [|split; [exact Happ|]].
  - intros Ho Hd Hp Hs.
    destruct (saveTask_board_edit clock form s id idx Hwf Hcur Hne Hidx Htitle
                Ho Hd Hp Hs) as [Hb Hclosed].
    split; [exact Hb|]. rewrite Hb, !map_alter_same by done. done.
  - rewrite Happ, !map_alter_same by done. split; [done|]. split; [done|].
    split; [done|]. unfold AppStore.saveTask. by rewrite (isNil_false _ Htitle).
Qed.

Lemma saveTask_edits_in_place_witness :
  getAll (AppStore.saveTask (mkClock 5 5)
            (mkForm (js " Buy bread ") [] [] (js "high") (js "doing"))
            (mkStore [mkTask (js "10") (js "Buy milk") None None (Some s_todo) None 10]
                     [0%nat] (Some (js "10")) None false ∅))
  = [mkTask (js "10") (js "Buy bread") None (Some (js "high")) (Some (js "doing"))
            None 10].
Proof.
  refine (proj1 (proj2 (saveTask_edits_in_place (mkClock 5 5) _ _ (js "10") 0%nat
                          _ _ _ _ _))); try reflexivity; try discriminate.
  split; [|split]; [repeat constructor | | exact I].
  apply (bool_decide_unpack _). vm_compute. reflexivity.
Defined.

(** X17. Saving the modal that is open on no task adds exactly one task,
    at the end of the collection: it has the values of the form, the
    decimal of the clock for its id and the clock for its time of
    creation.  On the board page every field must be filled in; the app
    script asks for the title only and creates the task without owner. *)
Theorem saveTask_adds_last (clock : Clock) (form : Form) (s : Store) :
  wellFormed s -> truthy (currentEditId s) = false -> trim (f_title form) <> [] ->
  (trim (f_owner form) <> [] -> f_due form <> [] -> f_priority form <> [] ->
   f_status form <> [] ->
   getAll (BoardStore.saveTask clock form s)
   = getAll s
     ++ [mkTask (Number_toString (nowId clock)) (trim (f_title form))
                (Some (f_due form)) (Some (f_priority form)) (Some (f_status form))
                (Some (trim (f_owner form))) (nowCreated clock)])
  /\ getAll (AppStore.saveTask clock form s)
     = getAll s
       ++ [mkTask (Number_toString (nowId clock)) (trim (f_title form))
                  (orUndefined (f_due form)) (orUndefined (f_priority form))
                  (Some (f_status form)) None (nowCreated clock)]
  /\ currentEditId (AppStore.saveTask clock form s) = None
  /\ mirrors (AppStore.saveTask clock form s).
Proof.
  intros Hwf Hcur Htitle. split; [|split; [|split]].
  - intros Ho Hd Hp Hs. unfold BoardStore.saveTask.
    rewrite (isNil_false _ Htitle), (board_guard_passes form Ho Hd Hp Hs), Hcur.
    rewrite !orUndefined_Some by done. unfold BoardStore.addTask.
    change (getAll (closeTaskModal (persistTasks ?x))) with (getAll x).
    rewrite getAll_pushTask by done. cbn [d_title d_due d_priority d_status d_owner].
    cbn [orDefault]. by rewrite (isNil_false _ Ho).
  - unfold AppStore.saveTask. rewrite (isNil_false _ Htitle), Hcur.
    unfold AppStore.addTask.
    change (getAll (closeTaskModal (persistTasks ?x))) with (getAll x).
    by rewrite getAll_pushTask.
  - unfold AppStore.saveTask. by rewrite (isNil_false _ Htitle).
  - unfold AppStore.saveTask. rewrite (isNil_false _ Htitle), Hcur.
    eapply mirrors_same; [..|apply mirrors_persistTasks]; reflexivity.
Qed.

Lemma saveTask_adds_last_witness :
  getAll (AppStore.saveTask (mkClock 5 6)
            (mkForm (js "Call Ann") [] [] [] (js "todo")) emptyStore)
  = [mkTask (js "5") (js "Call Ann") None None (Some (js "todo")) None 6].
Proof.
  refine (proj1 (proj2 (saveTask_adds_last (mkClock 5 6) _ emptyStore _ _ _)));
    try reflexivity; try discriminate.
  split; [|split]; [constructor | constructor | exact I].
Defined.

(** ** Undo, whatever happened since *)

Lemma omap_heap_take (h : list Task) (refs : list nat) (i : nat) :
  Forall (fun r => r < length h)%nat refs ->
  omap (fun r => h !! r) (take i refs) = take i (omap (fun r => h !! r) refs)
  /\ omap (fun r => h !! r) (drop i refs) = drop i (omap (fun r => h !! r) refs).
Proof.
  intros Hall. revert i. induction Hall as [|r refs Hr _ IH]; intros i; [by destruct i|].
  apply lookup_lt_is_Some in Hr as [t Ht].
  destruct i as [|i]; cbn [take drop omap list_omap]; rewrite Ht; [done|].
  cbn [take drop]. destruct (IH i) as [-> ->]. done.
Qed.

(** X18. The undo button acts on the collection as it is when it is
    clicked, not as it was when the toast came up.  After a deletion it
    puts the deleted task back at the index it had, among whatever tasks
    are there by then; after a move to done it sets the status of the
    moved task to doing, whatever status it has by then.  Either way the
    toast is cleared and the storage is written; without a toast a click
    does nothing. *)
Theorem undo_acts_on_current_state (s : Store) :
  wellFormed s ->
  (forall idx removed t,
     toastUndo s = Some (UndoDelete idx removed) -> heap s !! removed = Some t ->
     getAll (clickUndo s) = take idx (getAll s) ++ t :: drop idx (getAll s)
     /\ length (getAll (clickUndo s)) = S (length (getAll s))
     /\ toastUndo (clickUndo s) = None
     /\ mirrors (clickUndo s))
  /\ (forall r idx,
        toastUndo s = Some (UndoMove r) -> tasks s !! idx = Some r ->
        getAll (clickUndo s) = alter (setStatus s_doing) idx (getAll s)
        /\ toastUndo (clickUndo s) = None
        /\ mirrors (clickUndo s))
  /\ (toastUndo s = None -> clickUndo s = s).
Proof.
  intros Hwf. destruct (valid_tasks s Hwf) as [Hall Hnd]. split; [|split].
  - intros idx removed t Hu Ht. unfold clickUndo. rewrite Hu.
    assert (Hget : getAll (hideToast (runUndo (UndoDelete idx removed) s))
                   = take idx (getAll s) ++ t :: drop idx (getAll s)).
    { unfold getAll. cbn [heap tasks hideToast runUndo persistTasks setTasks].
      destruct (omap_heap_take (heap s) (tasks s) idx Hall) as [Htake Hdrop].
      rewrite omap_app. cbn [omap list_omap]. by rewrite Ht, Htake, Hdrop. }
    split; [exact Hget|]. split; [|split; [done|]].
    + rewrite Hget, length_app. cbn [length].
      rewrite <- (take_drop idx (getAll s)) at 3. rewrite length_app. lia.
    + eapply mirrors_same; [..|apply mirrors_persistTasks]; reflexivity.
  - intros r idx Hu Hr. unfold clickUndo. rewrite Hu. split; [|split; [done|]].
    + rewrite <- (getAll_updateHeap s r idx (setStatus s_doing) Hwf Hr). reflexivity.
    + eapply mirrors_same; [..|apply mirrors_persistTasks]; reflexivity.
  - intros Hu. unfold clickUndo. by rewrite Hu.
Qed.

Lemma undo_acts_on_current_state_witness :
  getAll (clickUndo
    (AppStore.handleQuickAdd (mkClock 30 30) (js "c")
       (deleteCurrentTask
          (mkStore [mkTask (js "10") (js "a") None None (Some s_todo) None 10;
                    mkTask (js "20") (js "b") None None (Some s_todo) None 20]
                   [0; 1]%nat (Some (js "20")) None false ∅))))
  = [mkTask (js "10") (js "a") None None (Some s_todo) None 10;
     mkTask (js "20") (js "b") None None (Some s_todo) None 20;
     mkTask (js "30") (js "c") None None (Some s_todo) None 30].
Proof.
  refine (proj1 (proj1 (undo_acts_on_current_state _ _) 1%nat 1%nat
                   (mkTask (js "20") (js "b") None None (Some s_todo) None 20) _ _));
    [|reflexivity..].
  split; [|split].
  - apply (bool_decide_unpack _). vm_compute. reflexivity.
  - apply (bool_decide_unpack _). vm_compute. reflexivity.
  - vm_compute. lia.
Defined.

(** ** Titles *)

Lemma dropWhile_head {A} (p : A -> bool) (l : list A) :
  match dropWhile p l with
  | x :: _ => p x = false
  | [] => True
  end.
Proof.
  induction l as [|x l IH]; simpl; [done|]. destruct (p x) eqn:Hx; [exact IH | exact Hx].
Qed.

Lemma dropWhile_id {A} (p : A -> bool) (x : A) (l : list A) :
  p x = false -> dropWhile p (x :: l) = x :: l.
Proof. intros H. simpl. by rewrite H. Qed.

Lemma dropWhile_snoc {A} (p : A -> bool) (l : list A) (x : A) :
  p x = false -> dropWhile p (l ++ [x]) = dropWhile p l ++ [x].
Proof.
  intros Hx. induction l as [|y l IH]; simpl; [by rewrite Hx|].
  by destruct (p y).
Qed.

(** A trimmed text neither starts nor ends with white space. *)
Lemma trim_ends (s : jsstring) :
  (forall c rest, trim s = c :: rest -> isWhiteSpace c = false)
  /\ (forall front c, trim s = front ++ [c] -> isWhiteSpace c = false).
Proof.
  unfold trim, trimEnd, trimStart.
  pose proof (dropWhile_head isWhiteSpace s) as Hs.
  pose proof (dropWhile_head isWhiteSpace (rev (dropWhile isWhiteSpace s))) as He.
  split.
  - intros c rest Heq. destruct (dropWhile isWhiteSpace s) as [|x u]; [done|].
    cbn [rev] in *. rewrite dropWhile_snoc, rev_app_distr in Heq by done.
    simpl in Heq. by injection Heq as <- _.
  - intros front c Heq.
    destruct (dropWhile isWhiteSpace (rev (dropWhile isWhiteSpace s))) as [|x u];
      [by destruct front|].
    simpl in Heq. apply app_inj_tail in Heq as [_ <-]. exact He.
Qed.

Lemma trim_idem (s : jsstring) : trim (trim s) = trim s.
Proof.
  destruct (trim_ends s) as [Hh Hl]. unfold trim at 1. unfold trimStart, trimEnd.
  destruct (trim s) as [|c rest] eqn:Ht; [done|].
  rewrite (dropWhile_id _ _ _ (Hh c rest eq_refl)).
  destruct (rev (c :: rest)) as [|x u] eqn:Hr.
  - apply (f_equal (@rev _)) in Hr. rewrite rev_involutive in Hr. done.
  - assert (Hx : isWhiteSpace x = false).
    { apply (Hl (rev u) x). apply (f_equal (@rev _)) in Hr.
      rewrite rev_involutive in Hr. by rewrite Hr. }
    rewrite (dropWhile_id _ _ _ Hx), <- Hr. apply rev_involutive.
Qed.

(** X19. The title [parseInput] returns is trimmed: it neither starts nor
    ends with white space, and trimming it again changes nothing.  White
    space inside the title, such as the two blanks a removed token leaves
    behind, stays. *)
Theorem parseInput_title_trimmed (parse : jsstring -> Parsed) (input : jsstring) :
  isParseInput parse ->
  trim (p_title (parse input)) = p_title (parse input)
  /\ (forall c rest, p_title (parse input) = c :: rest -> isWhiteSpace c = false)
  /\ (forall front c, p_title (parse input) = front ++ [c] -> isWhiteSpace c = false)
  /\ p_title (parse (js " Ship @2024-03-05 now ")) = js "Ship  now".
Proof.
  intros ->%isParseInput_Board. rewrite parseInput_steps. cbn [p_title].
  split; [apply trim_idem|]. split; [apply trim_ends|]. split; [apply trim_ends|].
  vm_compute. reflexivity.
Qed.

Lemma parseInput_title_trimmed_witness :
  trim (p_title (App.parseInput (js "  Call Ann !! ")))
  = p_title (App.parseInput (js "  Call Ann !! ")).
Proof.
  apply (parseInput_title_trimmed App.parseInput). by right.
Defined.

(** ** Quick add *)

Lemma String_match_dueRe_no_at (s : jsstring) :
  forallb (fun c => negb (isChar c_at c)) s = true -> String_match dueRe s = None.
Proof.
  induction s as [|c s IH]; [reflexivity|]. intros [Hc Hs]%andb_prop.
  rewrite String_match_eq. unfold dueRe at 1. cbn [matchAt lit].
  apply negb_true_iff in Hc. rewrite Hc. cbn [flat_map]. by rewrite IH.
Qed.

Lemma forallb_replicate_bang (k : nat) :
  forallb (fun c => negb (isChar c_at c)) (replicate k c_bang) = true
  /\ forallb (fun c => negb (isWhiteSpace c)) (replicate k c_bang) = true.
Proof.
  induction k as [|k [IH1 IH2]]; [done|]. cbn [replicate forallb].
  rewrite IH1, IH2. done.
Qed.

Lemma trim_no_space (s : jsstring) :
  forallb (fun c => negb (isWhiteSpace c)) s = true -> trim s = s.
Proof.
  intros H. unfold trim, trimStart, trimEnd.
  assert (Hd : forall l, forallb (fun c => negb (isWhiteSpace c)) l = true ->
                         dropWhile isWhiteSpace l = l).
  { intros [|c l]; [done|]. simpl. intros [Hc _]%andb_prop.
    apply negb_true_iff in Hc. by rewrite Hc. }
  rewrite (Hd s H), Hd; [apply rev_involutive|].
  rewrite forallb_forall in H |- *. intros c Hc. apply H. by apply in_rev.
Qed.

Lemma parseInput_marks_alone (k : nat) :
  (1 <= k)%nat ->
  Board.parseInput (replicate k c_bang) = mkParsed [] None (Some (priorityOfRun k)).
Proof.
  intros Hk. destruct (forallb_replicate_bang k) as [Hat _].
  assert (Hrun : firstRun (replicate k c_bang) = replicate k c_bang).
  { pose proof (firstRun_replicate [] [] k eq_refl Hk eq_refl) as H.
    by rewrite app_nil_l, app_nil_r in H. }
  unfold Board.parseInput.
  rewrite (String_match_dueRe_no_at _ Hat), String_match_priRe, Hrun.
  destruct k as [|k]; [lia|]. cbn [replicate m_0].
  change (c_bang :: replicate k c_bang) with (replicate (S k) c_bang).
  rewrite length_replicate, (priorityOfCount_run _ Hk).
  pose proof (replace_run [] (replicate (S k) c_bang) [] eq_refl eq_refl) as Hrep.
  rewrite app_nil_l, app_nil_r in Hrep. by rewrite Hrep.
Qed.

(** X20. In the app script a quick add whose text is not blank adds
    exactly one task at the end of the collection, to do, without owner,
    with the title, due date and priority parsed from the trimmed text; a
    blank text adds nothing.  The title is not checked: a text of marks
    alone gives a task with an empty title. *)
Theorem app_quickAdd_adds_one (clock : Clock) (text : jsstring) (s : Store) :
  wellFormed s ->
  (trim text = [] -> AppStore.handleQuickAdd clock text s = s)
  /\ (trim text <> [] ->
      getAll (AppStore.handleQuickAdd clock text s)
      = getAll s
        ++ [mkTask (Number_toString (nowId clock))
                   (p_title (App.parseInput (trim text)))
                   (p_due (App.parseInput (trim text)))
                   (p_priority (App.parseInput (trim text)))
                   (Some s_todo) None (nowCreated clock)])
  /\ (forall k, (1 <= k)%nat ->
        getAll (AppStore.handleQuickAdd clock (replicate k c_bang) s)
        = getAll s
          ++ [mkTask (Number_toString (nowId clock)) [] None (Some (priorityOfRun k))
                     (Some s_todo) None (nowCreated clock)]).
Proof.
  intros Hwf.
  assert (Hadd : forall t, trim t <> [] ->
            getAll (AppStore.handleQuickAdd clock t s)
            = getAll s
              ++ [mkTask (Number_toString (nowId clock))
                         (p_title (App.parseInput (trim t)))
                         (p_due (App.parseInput (trim t)))
                         (p_priority (App.parseInput (trim t)))
                         (Some s_todo) None (nowCreated clock)]).
  { intros t Ht. unfold AppStore.handleQuickAdd. rewrite (isNil_false _ Ht).
    unfold AppStore.addTask.
    change (getAll (persistTasks ?x)) with (getAll x).
    by rewrite getAll_pushTask. }
  split; [|split].
  - intros Hnil. unfold AppStore.handleQuickAdd. by rewrite Hnil.
  - apply Hadd.
  - intros k Hk. destruct (forallb_replicate_bang k) as [_ Hws].
    assert (Ht : trim (replicate k c_bang) = replicate k c_bang)
      by (by apply trim_no_space).
    rewrite Hadd by (rewrite Ht; destruct k; [lia | done]).
    rewrite Ht, App_parseInput_eq, (parseInput_marks_alone k Hk). reflexivity.
Qed.

Lemma app_quickAdd_adds_one_witness :
  getAll (AppStore.handleQuickAdd (mkClock 7 8) (js "!!") emptyStore)
  = [mkTask (js "7") [] None (Some s_medium) (Some s_todo) None 8].
Proof.
  refine (proj2 (proj2 (app_quickAdd_adds_one (mkClock 7 8) (js "!!") emptyStore _))
                2%nat _); [|lia].
  split; [|split]; [constructor | constructor | exact I].
Defined.

(** ** The modal of the board page *)

Lemma saveTask_store (clock : Clock) (ui : Ui) (s : Store) :
  snd (BoardPage.saveTask clock (ui, s)) = BoardStore.saveTask clock (fields ui) s.
Proof.
  unfold BoardPage.saveTask, BoardStore.saveTask, BoardPage.getActiveStatus,
    BoardPage.getActivePriority.
  destruct (isNil (trim (f_title (fields ui)))); [done|].
  by destruct (_ || _).
Qed.

Lemma allFilled_spec (ui : Ui) :
  saveDisabled (BoardPage.updateSaveBtnState ui) = false <->
  trim (f_title (fields ui)) <> [] /\ trim (f_owner (fields ui)) <> []
  /\ f_due (fields ui) <> [] /\ f_priority (fields ui) <> []
  /\ f_status (fields ui) <> [].
Proof.
  unfold BoardPage.updateSaveBtnState, BoardPage.getActivePriority,
    BoardPage.getActiveStatus. cbn [saveDisabled].
  destruct (trim (f_title (fields ui))), (trim (f_owner (fields ui))),
    (f_due (fields ui)), (f_priority (fields ui)), (f_status (fields ui));
    cbn; split; try done; intros (? & ? & ? & ? & ?); done.
Qed.

(** X21. On the board page the save button and [saveTask] agree.  The
    button is enabled exactly when the title and the owner are not blank
    and a due date, a priority and a status are set; with the button
    disabled, [saveTask] changes nothing and leaves the modal open, and
    with the button enabled it closes the modal and ends the edit. *)
Theorem save_button_matches_saveTask (clock : Clock) (ui : Ui) (s : Store) :
  (saveDisabled (BoardPage.updateSaveBtnState ui) = false <->
   trim (f_title (fields ui)) <> [] /\ trim (f_owner (fields ui)) <> []
   /\ f_due (fields ui) <> [] /\ f_priority (fields ui) <> []
   /\ f_status (fields ui) <> [])
  /\ (saveDisabled (BoardPage.updateSaveBtnState ui) = true <->
      BoardPage.saveTask clock (ui, s) = (ui, s))
  /\ (saveDisabled (BoardPage.updateSaveBtnState ui) = false ->
      modalShown (fst (BoardPage.saveTask clock (ui, s))) = false
      /\ currentEditId (snd (BoardPage.saveTask clock (ui, s))) = None)
  /\ snd (BoardPage.saveTask clock (ui, s)) = BoardStore.saveTask clock (fields ui) s.
Proof.
  pose proof (allFilled_spec ui) as Hspec.
  assert (Hon : saveDisabled (BoardPage.updateSaveBtnState ui) = false ->
            BoardPage.saveTask clock (ui, s)
            = BoardPage.closeTaskModal
                (ui, if truthy (currentEditId s) then
                       match findTask (heap s) (default [] (currentEditId s)) (tasks s) with
                       | Some task =>
                           persistTasks
                             (updateHeap task
                                (editTask (trim (f_title (fields ui)))
                                   (orUndefined (f_due (fields ui)))
                                   (BoardPage.getActivePriority ui)
                                   (BoardPage.getActiveStatus ui)
                                   (Some (trim (f_owner (fields ui)))) true) s)
                       | None => s
                       end
                     else BoardStore.addTask clock
                            (mkData (trim (f_title (fields ui)))
                               (orUndefined (f_due (fields ui)))
                               (BoardPage.getActivePriority ui)
                               (BoardPage.getActiveStatus ui)
                               (Some (trim (f_owner (fields ui))))) s)).
  { intros (Ht & Ho & Hd & Hp & Hs)%Hspec. unfold BoardPage.saveTask.
    rewrite (isNil_false _ Ht). unfold BoardPage.getActiveStatus, BoardPage.getActivePriority.
    by rewrite (board_guard_passes (fields ui) Ho Hd Hp Hs). }
  assert (Hoff : saveDisabled (BoardPage.updateSaveBtnState ui) = true ->
            BoardPage.saveTask clock (ui, s) = (ui, s)).
  { intros Hdis. unfold BoardPage.saveTask.
    destruct (isNil (trim (f_title (fields ui)))) eqn:Ht; [done|].
    destruct (_ || _) eqn:Hg; [done|]. exfalso.
    revert Hdis Hg. unfold BoardPage.updateSaveBtnState, BoardPage.getActivePriority,
      BoardPage.getActiveStatus. cbn [saveDisabled]. rewrite Ht.
    destruct (isNil (trim (f_owner (fields ui)))), (f_due (fields ui)),
      (f_priority (fields ui)), (f_status (fields ui)); cbn; done. }
  split; [exact Hspec|]. split; [|split; [|apply saveTask_store]].
  - split; [exact Hoff|]. intros Heq.
    destruct (saveDisabled (BoardPage.updateSaveBtnState ui)) eqn:Hdis; [done|].
    exfalso. rewrite (Hon eq_refl) in Heq. unfold BoardPage.closeTaskModal in Heq.
    injection Heq as _ Hs.
    destruct (truthy (currentEditId s)) eqn:Hcur.
    + apply (f_equal currentEditId) in Hs. cbn in Hs. rewrite <- Hs in Hcur. done.
    + apply (f_equal (fun x => length (heap x))) in Hs. cbn in Hs.
      rewrite length_app in Hs. cbn in Hs. lia.
  - intros Hdis. by rewrite (Hon Hdis).
Qed.

(** X22. On the board page a quick add adds no task.  A text that is not
    blank empties the bar and opens the modal on a new task, to do, with
    the parsed title, due date and priority filled in and no owner; as the
    owner is required, the save button is disabled and saving is refused
    until one is typed.  A blank text does nothing. *)
Theorem board_quickAdd_opens_modal (clock : Clock) (ui : Ui) (s : Store) :
  (trim (quickAdd ui) = [] -> BoardPage.handleQuickAdd (ui, s) = (ui, s))
  /\ (trim (quickAdd ui) <> [] ->
      getAll (snd (BoardPage.handleQuickAdd (ui, s))) = getAll s
      /\ storage (snd (BoardPage.handleQuickAdd (ui, s))) = storage s
      /\ currentEditId (snd (BoardPage.handleQuickAdd (ui, s))) = None
      /\ quickAdd (fst (BoardPage.handleQuickAdd (ui, s))) = []
      /\ modalShown (fst (BoardPage.handleQuickAdd (ui, s))) = true
      /\ modalTitle (fst (BoardPage.handleQuickAdd (ui, s))) = js "Add Task"
      /\ fields (fst (BoardPage.handleQuickAdd (ui, s)))
         = mkForm (p_title (Board.parseInput (trim (quickAdd ui))))
                  (orDefault (p_due (Board.parseInput (trim (quickAdd ui)))) [])
                  []
                  (orDefault (p_priority (Board.parseInput (trim (quickAdd ui)))) [])
                  (js "todo")
      /\ saveDisabled (fst (BoardPage.focusTimer (BoardPage.handleQuickAdd (ui, s))))
         = true
      /\ BoardPage.saveTask clock (BoardPage.handleQuickAdd (ui, s))
         = BoardPage.handleQuickAdd (ui, s))
  /\ snd (BoardPage.handleQuickAdd (ui, s)) = BoardStore.handleQuickAdd (quickAdd ui) s.
Proof.
  unfold BoardPage.handleQuickAdd, BoardStore.handleQuickAdd.
  split; [|split].
  - by intros ->.
  - intros Hv. rewrite (isNil_false _ Hv). cbn [fst snd].
    repeat (split; [reflexivity|]).
    assert (Hf : fields
                   (setModal (js "Add Task") false true
                      (BoardPage.setActivePriority
                         (orDefault (p_priority (Board.parseInput (trim (quickAdd ui)))) [])
                         (BoardPage.setActiveStatus (Some (js "todo"))
                            (BoardPage.setInputs
                               (p_title (Board.parseInput (trim (quickAdd ui))))
                               (orDefault (p_due (Board.parseInput (trim (quickAdd ui)))) [])
                               []
                               (mkUi [] (modalTitle ui) (fields ui) (deleteShown ui)
                                     (modalShown ui) (saveDisabled ui))))))
                 = mkForm (p_title (Board.parseInput (trim (quickAdd ui))))
                     (orDefault (p_due (Board.parseInput (trim (quickAdd ui)))) [])
                     []
                     (orDefault (p_priority (Board.parseInput (trim (quickAdd ui)))) [])
                     (js "todo")).
    { cbn. by destruct (orDefault (p_priority _) []). }
    split; [exact Hf|].
    split.
    + unfold BoardPage.focusTimer, BoardPage.updateSaveBtnState. cbn [fst saveDisabled].
      rewrite Hf. cbn [f_owner f_title]. change (trim []) with (@nil N).
      cbn [isNil negb]. by rewrite andb_false_r.
    + unfold BoardPage.saveTask. rewrite Hf. cbn [f_owner f_title].
      change (trim []) with (@nil N). cbn [isNil orb].
      by destruct (isNil (trim (p_title _))).
  - by destruct (isNil (trim (quickAdd ui))).
Qed.

(** A text with a due token and two marks: the modal opens on the parsed
    values, the task that was there is the whole collection still, the save
    button is disabled and saving is refused. *)
Lemma board_quickAdd_opens_modal_witness :
  fields (fst (BoardPage.handleQuickAdd
      (mkUi (js " Ship report @2024-03-05 !! ") [] (mkForm [] [] [] [] []) false false true,
       mkStore [mkTask (js "10") (js "a") None None (Some s_todo) None 10]
               [0%nat] None None false ∅)))
  = mkForm (js "Ship report") (js "2024-03-05") [] (js "medium") (js "todo")
  /\ getAll (snd (BoardPage.handleQuickAdd
      (mkUi (js " Ship report @2024-03-05 !! ") [] (mkForm [] [] [] [] []) false false true,
       mkStore [mkTask (js "10") (js "a") None None (Some s_todo) None 10]
               [0%nat] None None false ∅)))
     = [mkTask (js "10") (js "a") None None (Some s_todo) None 10]
  /\ modalShown (fst (BoardPage.handleQuickAdd
      (mkUi (js " Ship report @2024-03-05 !! ") [] (mkForm [] [] [] [] []) false false true,
       mkStore [mkTask (js "10") (js "a") None None (Some s_todo) None 10]
               [0%nat] None None false ∅))) = true
  /\ saveDisabled (fst (BoardPage.focusTimer (BoardPage.handleQuickAdd
      (mkUi (js " Ship report @2024-03-05 !! ") [] (mkForm [] [] [] [] []) false false true,
       mkStore [mkTask (js "10") (js "a") None None (Some s_todo) None 10]
               [0%nat] None None false ∅)))) = true
  /\ BoardPage.saveTask (mkClock 1 1) (BoardPage.handleQuickAdd
      (mkUi (js " Ship report @2024-03-05 !! ") [] (mkForm [] [] [] [] []) false false true,
       mkStore [mkTask (js "10") (js "a") None None (Some s_todo) None 10]
               [0%nat] None None false ∅))
     = BoardPage.handleQuickAdd
      (mkUi (js " Ship report @2024-03-05 !! ") [] (mkForm [] [] [] [] []) false false true,
       mkStore [mkTask (js "10") (js "a") None None (Some s_todo) None 10]
               [0%nat] None None false ∅).
Proof.
  destruct (proj1 (proj2 (board_quickAdd_opens_modal (mkClock 1 1)
      (mkUi (js " Ship report @2024-03-05 !! ") [] (mkForm [] [] [] [] []) false false true)
      (mkStore [mkTask (js "10") (js "a") None None (Some s_todo) None 10]
               [0%nat] None None false ∅))))
    as (Hall & _ & _ & _ & Hshown & _ & Hf & Hdis & Hsave).
  - vm_compute. discriminate.
  - split; [rewrite Hf; vm_compute; reflexivity|].
    split; [exact Hall|]. split; [exact Hshown|]. split; [exact Hdis | exact Hsave].
Defined.

Lemma alter_fixed {A} (f : A -> A) (i : nat) (l : list A) (x : A) :
  l !! i = Some x -> f x = x -> alter f i l = l.
Proof.
  revert i. induction l as [|y l IH]; intros [|i] Hi Hf; try done; cbn in *.
  - injection Hi as ->. by rewrite Hf.
  - f_equal. by apply IH.
Qed.

Lemma orDefault_Some (v : list N) : v <> [] -> orDefault (Some v) [] = v.
Proof. by destruct v. Qed.

(** X23. On the board page, opening the modal on a task fills the form
    with the values of the task, a missing one as the empty text, and
    saving at once gives the collection back unchanged, provided the task
    has every field and its title and owner are trimmed.  A task that
    lacks one, as a task the app script created has no owner, is refused
    by [saveTask] until the field is filled in. *)
Theorem open_save_roundtrip (clock : Clock) (ui : Ui) (s : Store) (id : list N)
    (idx : nat) (t : Task) :
  wellFormed s -> id <> [] ->
  findIndex (heap s) id (tasks s) = Some idx -> getAll s !! idx = Some t ->
  fields (fst (BoardPage.openTaskModal (Some id) (ui, s)))
  = mkForm (t_title t) (orDefault (t_due t) []) (orDefault (t_owner t) [])
           (orDefault (t_priority t) []) (orDefault (t_status t) [])
  /\ modalShown (fst (BoardPage.openTaskModal (Some id) (ui, s))) = true
  /\ deleteShown (fst (BoardPage.openTaskModal (Some id) (ui, s))) = true
  /\ snd (BoardPage.openTaskModal (Some id) (ui, s)) = openTaskModal (Some id) s
  /\ (forall due owner priority status,
        t_due t = Some due -> t_owner t = Some owner ->
        t_priority t = Some priority -> t_status t = Some status ->
        due <> [] -> priority <> [] -> status <> [] ->
        trim (t_title t) = t_title t -> t_title t <> [] ->
        trim owner = owner -> owner <> [] ->
        getAll (snd (BoardPage.saveTask clock
                       (BoardPage.openTaskModal (Some id) (ui, s))))
        = getAll s)
  /\ (truthy (t_due t) = false \/ truthy (t_priority t) = false
      \/ truthy (t_status t) = false \/ trim (orDefault (t_owner t) []) = []
      \/ trim (t_title t) = [] ->
      BoardPage.saveTask clock (BoardPage.openTaskModal (Some id) (ui, s))
      = BoardPage.openTaskModal (Some id) (ui, s)).
Proof.
  intros Hwf Hne Hidx Hget.
  destruct (findIndex_getAll s id idx Hwf Hidx)
    as (r & t0 & Hfind & Hr & Ht & Hget' & _).
  assert (t0 = t) as -> by congruence.
  assert (Hopen : BoardPage.openTaskModal (Some id) (ui, s)
                  = (mkUi (quickAdd ui) (js "Edit Task")
                       (mkForm (t_title t) (orDefault (t_due t) [])
                          (orDefault (t_owner t) []) (orDefault (t_priority t) [])
                          (orDefault (t_status t) []))
                       true true (saveDisabled ui),
                     openTaskModal (Some id) s)).
  { unfold BoardPage.openTaskModal. rewrite (edit_truthy _ Hne).
    change (default [] (Some id)) with id.
    cbn [heap tasks setCurrentEditId]. rewrite Hfind, Ht.
    unfold openTaskModal. f_equal.
    unfold setModal, BoardPage.setActivePriority, BoardPage.setActiveStatus,
      BoardPage.setInputs, setFields.
    cbn [quickAdd modalTitle fields deleteShown modalShown saveDisabled
         f_title f_due f_owner f_priority f_status].
    by destruct (orDefault (t_priority t) []). }
  rewrite Hopen. cbn [fst snd fields modalShown deleteShown].
  split; [done|]. split; [done|]. split; [done|]. split; [done|]. split.
  - intros due owner priority status Hd Ho Hp Hs Hdn Hpn Hsn Htt Htn Hot Hon.
    rewrite saveTask_store. cbn [fields]. rewrite Hd, Ho, Hp, Hs.
    rewrite !orDefault_Some by done.
    assert (Hwf' : wellFormed (openTaskModal (Some id) s)) by exact Hwf.
    destruct (saveTask_board_edit clock
                (mkForm (t_title t) due owner priority status)
                (openTaskModal (Some id) s) id idx Hwf' eq_refl Hne Hidx)
      as [Hsave _].
    + cbn [f_title]. by rewrite Htt.
    + cbn [f_owner]. by rewrite Hot.
    + done.
    + done.
    + done.
    + rewrite Hsave. cbn [f_title f_due f_owner f_priority f_status].
      change (getAll (openTaskModal (Some id) s)) with (getAll s).
      apply (alter_fixed _ _ _ t Hget). rewrite Htt, Hot.
      destruct t as [tid title d p st o created]. cbn in *. by subst.
  - intros Hmiss. unfold BoardPage.saveTask. cbn [fields f_title f_owner f_due].
    unfold BoardPage.getActiveStatus, BoardPage.getActivePriority.
    cbn [fields f_priority f_status].
    destruct (isNil (trim (t_title t))) eqn:Htitle; [done|].
    assert (Hg : isNil (trim (orDefault (t_owner t) []))
                 || negb (truthy (orUndefined (orDefault (t_due t) [])))
                 || negb (truthy (orUndefined (orDefault (t_priority t) [])))
                 || negb (truthy (orUndefined (orDefault (t_status t) []))) = true).
    { destruct Hmiss as [H | [H | [H | [H | H]]]].
      - destruct (t_due t) as [[|]|]; try done; cbn; by rewrite orb_true_r.
      - destruct (t_priority t) as [[|]|]; try done; cbn; by rewrite !orb_true_r.
      - destruct (t_status t) as [[|]|]; try done; cbn; by rewrite !orb_true_r.
      - by rewrite H.
      - by rewrite H in Htitle. }
    by rewrite Hg.
Qed.

Lemma open_save_roundtrip_witness :
  getAll (snd (BoardPage.saveTask (mkClock 9 9)
                 (BoardPage.openTaskModal (Some (js "10"))
                    (mkUi [] [] (mkForm [] [] [] [] []) false false true,
                     mkStore [mkTask (js "10") (js "Buy milk") (Some (js "2024-03-05"))
                                     (Some s_high) (Some s_todo) (Some (js "Ann")) 10]
                             [0%nat] None None false ∅))))
  = [mkTask (js "10") (js "Buy milk") (Some (js "2024-03-05")) (Some s_high)
            (Some s_todo) (Some (js "Ann")) 10].
Proof.
  refine (proj1 (proj2 (proj2 (proj2 (proj2
            (open_save_roundtrip (mkClock 9 9) _ _ (js "10") 0%nat
               (mkTask (js "10") (js "Buy milk") (Some (js "2024-03-05"))
                       (Some s_high) (Some s_todo) (Some (js "Ann")) 10) _ _ _ _)))))
            (js "2024-03-05") (js "Ann") s_high s_todo _ _ _ _ _ _ _ _ _ _ _);
    try reflexivity; try discriminate.
  split; [|split]; [repeat constructor | | exact I].
  apply (bool_decide_unpack _). vm_compute. reflexivity.
Defined.
